(** * Align Anything: a shallow embedding of [extension.js]

    The extension aligns the first match of a regular expression on each
    selected line by inserting spaces in front of it.  This file embeds the
    three commands of [extension.js] ([alignAssignmentOperators],
    [alignComments], [alignCustomPattern]) together with the helper
    [createRegExp] and the table [COMMENT_PATTERNS], and proves properties of
    them.

    The host (the editor API and the regular expression engine) is modelled
    as far as the extension observes it:
    - a line of text is a list of characters, columns are indices in it;
    - [Position], [Range] and [Selection] follow the editor's classes, with
      the normalisation their constructors perform;
    - a [RegExp] object carries its flags and its [lastIndex], and [exec]
      follows the language standard's RegExpBuiltinExec;
    - an insertion of [editor.edit] changes its line and moves the ends of
      the selections that are on that line, at the insertion or after it;
    - the regular expression compiler is a parameter of the development
      ([Section Extension]); [Module Fragment] gives a concrete compiler for
      the quantifier-free patterns the extension itself uses. *)

From stdpp Require Import base option list gmap strings.
From Stdlib Require Import Ascii ZArith Lia.

Set Warnings "-clear-no-such-hyp".

Open Scope Z_scope.
Open Scope nat_scope.

(** ** Text and the [String.prototype.substring] method *)

(** A line of text: the sequence of its characters. *)
Definition text := list ascii.

(** String literals for examples. *)
Definition txt (s : string) : text := String.list_ascii_of_string s.

(** [s.substring(a)]: the suffix from index [a], clamped to the length. *)
Definition substring1 (s : text) (a : nat) : text :=
  drop (a `min` length s) s.

(** [s.substring(a, b)]: both indices are clamped to the length and swapped
    when [a > b]; the result is the characters from the smaller to the
    larger index. *)
Definition substring2 (s : text) (a b : nat) : text :=
  let a' := a `min` length s in
  let b' := b `min` length s in
  let from := a' `min` b' in
  let to := a' `max` b' in
  take (to - from) (drop from s).

(** [' '.repeat(n)]. *)
Definition spaces (n : nat) : text := replicate n " "%char.

(** ** Positions, ranges and selections of the editor *)

Record Position := mkPosition { line : nat; character : nat }.

Definition Position_eqb (p q : Position) : bool :=
  (line p =? line q) && (character p =? character q).

(** [p.isBefore(q)]. *)
Definition isBefore (p q : Position) : bool :=
  (line p <? line q) || ((line p =? line q) && (character p <? character q)).

(** A range; [start] is before or equal to [end_] when the range is built
    by [newRange], as the editor's constructor does. *)
Record Range := mkRange { start : Position; end_ : Position }.

(** [new vscode.Range(p, q)]: the constructor orders its two positions. *)
Definition newRange (p q : Position) : Range :=
  if isBefore q p then mkRange q p else mkRange p q.

(** [new vscode.Range(l1, c1, l2, c2)]. *)
Definition newRange4 (l1 c1 l2 c2 : nat) : Range :=
  newRange (mkPosition l1 c1) (mkPosition l2 c2).

(** A selection is given by its anchor and its active end; [start] and
    [end] are derived from them, so [start] is never after [end]. *)
Record Selection := mkSelection { anchor : Position; active : Position }.

Definition sel_start (s : Selection) : Position :=
  if isBefore (active s) (anchor s) then active s else anchor s.

Definition sel_end (s : Selection) : Position :=
  if isBefore (active s) (anchor s) then anchor s else active s.

(** [selection.isEmpty]: start and end are equal. *)
Definition isEmpty (s : Selection) : bool :=
  Position_eqb (sel_start s) (sel_end s).

(** A cursor without a span. *)
Definition cursor (l c : nat) : Selection :=
  mkSelection (mkPosition l c) (mkPosition l c).

(** ** Documents *)

Record TextDocument := mkDocument { languageId : string; lines : list text }.

Definition lineCount (d : TextDocument) : nat := length (lines d).

(** [document.lineAt(line).text]; the host raises an exception on a line
    that is not in the document, which is [None] here. *)
Definition lineAt (d : TextDocument) (l : nat) : option text := lines d !! l.

(** ** Regular expression objects *)

(** What the engine makes of a pattern: a function that tries to match at
    one index of a subject and gives the end index of the match. *)
Definition Matcher := text → nat → option nat.

Record RegExp := mkRegExp {
  source : string;
  matcher : Matcher;
  global : bool;
  sticky : bool;
  lastIndex : nat
}.

(** The search loop of RegExpBuiltinExec: try index [i], then [i + 1], ...
    for [fuel] indices; the result is the start and the end of the match. *)
Fixpoint search (m : Matcher) (s : text) (i fuel : nat) : option (nat * nat) :=
  match fuel with
  | 0 => None
  | S fuel' =>
      match m s i with
      | Some e => Some (i, e)
      | None => search m s (S i) fuel'
      end
  end.

Definition setLastIndex (r : RegExp) (i : nat) : RegExp :=
  mkRegExp (source r) (matcher r) (global r) (sticky r) i.

(** [r.exec(s)]: the index of the match found ([matches.index]) or [None]
    for [null], and the object afterwards.  [lastIndex] is read and written
    only under the global or the sticky flag. *)
Definition exec (r : RegExp) (s : text) : option nat * RegExp :=
  let stateful := global r || sticky r in
  let from := if stateful then lastIndex r else 0 in
  if length s <? from then
    (None, if stateful then setLastIndex r 0 else r)
  else
    match search (matcher r) s from (if sticky r then 1 else length s + 1 - from) with
    | Some (i, e) => (Some i, if stateful then setLastIndex r e else r)
    | None => (None, if stateful then setLastIndex r 0 else r)
    end.

(** The leftmost index of a subject at which a matcher succeeds. *)
Definition leftmost (m : Matcher) (s : text) : option nat :=
  fst <$> search m s 0 (length s + 1).

(** ** A regular expression engine for the quantifier-free fragment

    The patterns of [COMMENT_PATTERNS], the fallback pattern and the
    assignment pattern are built from literal characters, escaped
    characters, the dot, character classes and alternation.  [Fragment]
    gives these their meaning; a pattern with another construct (a
    quantifier, a group, an anchor, a class range or a letter escape) is
    outside the fragment and [parse] answers [None] for it. *)
Module Fragment.

Inductive regex :=
| Eps
| Chr (c : ascii)
| Any
| Cls (negated : bool) (members : list ascii)
| Seq (r1 r2 : regex)
| Alt (r1 r2 : regex).

Inductive token :=
| TChr (c : ascii)
| TAny
| TCls (negated : bool) (members : list ascii)
| TBar.

Definition isOneOf (c : ascii) (s : string) : bool :=
  existsb (Ascii.eqb c) (String.list_ascii_of_string s).

(** The syntax characters, which a backslash turns into literals, and the
    slash, which may be escaped as well. *)
Definition escapable (c : ascii) : bool := isOneOf c "^$\.*+?()[]{}|/".

(** Characters that stand for themselves outside a class: all but
    [^ $ \ . * + ? ( ) [ |]. An opening brace is literal unless it begins
    a braced quantifier, so it is taken here only when no digit follows. *)
Definition plain (c : ascii) : bool := negb (isOneOf c "^$\.*+?()[|").

Definition isDigit (c : ascii) : bool := isOneOf c "0123456789".

(** The lexer: [cls] is [None] outside a character class and holds the
    negation flag and the members read so far inside one. *)
Fixpoint lex (cls : option (bool * list ascii)) (cs : list ascii)
  : option (list token) :=
  match cls, cs with
  | None, [] => Some []
  | Some _, [] => None
  | None, c :: rest =>
      if Ascii.eqb c "\" then
        match rest with
        | c' :: rest' =>
            if escapable c' then cons (TChr c') <$> lex None rest' else None
        | [] => None
        end
      else if Ascii.eqb c "." then cons TAny <$> lex None rest
      else if Ascii.eqb c "|" then cons TBar <$> lex None rest
      else if Ascii.eqb c "[" then
        match rest with
        | c' :: rest' =>
            if Ascii.eqb c' "^" then lex (Some (true, [])) rest'
            else lex (Some (false, [])) rest
        | [] => None
        end
      else if Ascii.eqb c "{" then
        match rest with
        | c' :: _ => if isDigit c' then None else cons (TChr c) <$> lex None rest
        | [] => cons (TChr c) <$> lex None rest
        end
      else if plain c then cons (TChr c) <$> lex None rest
      else None
  | Some (neg, ms), c :: rest =>
      if Ascii.eqb c "]" then cons (TCls neg ms) <$> lex None rest
      else if Ascii.eqb c "\" then
        match rest with
        | c' :: rest' =>
            if escapable c' || Ascii.eqb c' "-"
            then lex (Some (neg, ms ++ [c'])) rest' else None
        | [] => None
        end
      else if Ascii.eqb c "-" then None
      else lex (Some (neg, ms ++ [c])) rest
  end.

Definition atom (t : token) : regex :=
  match t with
  | TChr c => Chr c
  | TAny => Any
  | TCls neg ms => Cls neg ms
  | TBar => Eps
  end.

(** A disjunction of alternatives, each a sequence of atoms; [cur] is the
    alternative read so far. *)
Fixpoint build (ts : list token) (cur : regex) : regex :=
  match ts with
  | [] => cur
  | TBar :: rest => Alt cur (build rest Eps)
  | t :: rest => build rest (Seq cur (atom t))
  end.

Definition parse (src : string) : option regex :=
  (λ ts, build ts Eps) <$> lex None (String.list_ascii_of_string src).

Definition lineTerminator (c : ascii) : bool :=
  Ascii.eqb c "010" || Ascii.eqb c "013".

(** The backtracking matcher in continuation-passing style: [k] is what
    remains to be matched after [r]; the result is the end index. *)
Fixpoint run (r : regex) (s : text) (i : nat) (k : nat → option nat)
  : option nat :=
  match r with
  | Eps => k i
  | Chr c =>
      match s !! i with
      | Some c' => if Ascii.eqb c' c then k (S i) else None
      | None => None
      end
  | Any =>
      match s !! i with
      | Some c' => if lineTerminator c' then None else k (S i)
      | None => None
      end
  | Cls neg ms =>
      match s !! i with
      | Some c' => if xorb neg (existsb (Ascii.eqb c') ms) then k (S i) else None
      | None => None
      end
  | Seq r1 r2 => run r1 s i (λ j, run r2 s j k)
  | Alt r1 r2 =>
      match run r1 s i k with
      | Some e => Some e
      | None => run r2 s i k
      end
  end.

Definition matchAt (r : regex) : Matcher := λ s i, run r s i Some.

End Fragment.

(** ** The compiler of the host *)

Inductive Compiled :=
| SyntaxError (message : string)
| Pattern (m : Matcher).

Module Fragment_engine.
(** The engine restricted to the fragment.  It is used at patterns of the
    fragment only; the message stands for whatever the host says about a
    pattern it rejects. *)
Definition compile (src : string) : Compiled :=
  match Fragment.parse src with
  | Some r => Pattern (Fragment.matchAt r)
  | None => SyntaxError "Invalid regular expression"
  end.
End Fragment_engine.

(** ** The table of comment patterns *)

(** The values are the strings the script's literals denote (a doubled
    backslash of the script is one backslash of the string). *)
Definition COMMENT_PATTERNS : gmap string string :=
  list_to_map [
    ("coffeescript", "#"); ("dockercompose", "#"); ("dockerfile", "#");
    ("elixir", "#"); ("gdscript", "#"); ("ignore", "#"); ("julia", "#");
    ("makefile", "#"); ("perl", "#"); ("powershell", "#"); ("python", "#");
    ("r", "#"); ("raku", "#"); ("ruby", "#"); ("shellscript", "#");
    ("ssh_config", "#"); ("yaml", "#");
    ("html", "<!--"); ("markdown", "<!--"); ("php", "<!--");
    ("razor", "<!--"); ("xml", "<!--"); ("xsl", "<!--");
    ("ada", "--|/\*"); ("lua", "--|/\*"); ("haskell", "--|/\*");
    ("sql", "--|/\*"); ("sqlite", "--|/\*");
    ("bibtex", "%"); ("erlang", "%"); ("latex", "%"); ("matlab", "%");
    ("tex", "%");
    ("gdresource", ";"); ("gdscene", ";"); ("ini", ";"); ("properties", ";");
    ("fsharp", "//"); ("shaderlab", "//");
    ("bat", "@[rR][eE][mM]");
    ("css", "/\*");
    ("clojure", ";;");
    ("handlebars", "{{!--");
    ("jade", "//-");
    ("ocaml", "\(\*");
    ("prolog", "%|/\*");
    ("restructuredtext", "..");
    ("vb", "'")
  ].

(** ** The window of the host, as the extension sees it *)

(** The messages of the script, by what they report:
    - [InvalidPattern e]: [error.message] of a pattern that does not compile;
    - [InvalidArgument j]: [Expected a string arg but got: j];
    - [NoEditor]: [No editor];
    - [InsufficientLines]: [Document should have multiple lines];
    - [DuplicateLineSelection n]: [Only 1 selection per line is allowed (line n)];
    - [InsufficientSelection]: [Multiple lines must be selected];
    - [NoMatchesFound p]: [No matches found for pattern p];
    - [SingleMatchFound p]: [Only 1 match found for pattern p]. *)
Inductive Message :=
| InvalidPattern (e : string)
| InvalidArgument (j : string)
| NoEditor
| InsufficientLines
| DuplicateLineSelection (n : nat)
| InsufficientSelection
| NoMatchesFound (p : string)
| SingleMatchFound (p : string).

Record TextEditor := mkEditor {
  document : TextDocument;
  selections : list Selection
}.

(** [activeTextEditor] may be absent; [inputBox] is what the prompt will
    answer ([None] when the user dismisses it); [shown] collects the error
    messages shown so far. *)
Record Window := mkWindow {
  activeTextEditor : option TextEditor;
  inputBox : option string;
  shown : list Message
}.

Definition showErrorMessage (m : Message) (w : Window) : Window :=
  mkWindow (activeTextEditor w) (inputBox w) (shown w ++ [m]).

(** The argument of a command: a string, [undefined], or any other value.
    Of another value the script observes only what the template literal
    makes of [JSON.stringify]: a text (which is [undefined] for a function
    or a symbol), or the exception that [JSON.stringify] throws on a value
    it cannot print, such as a [BigInt] or a cyclic object. *)
Inductive Json :=
| JString (s : string)
| JUndefined
| JOther (stringified : string)
| JUnprintable.

(** ** Resolving the selections into ranges *)

(** The result of a step that can show a message and stop, or be cut short
    by an exception of the host. *)
Inductive Step (A : Type) :=
| Done (a : A)
| Fail (m : Message)
| Threw.
Arguments Done {A} a.
Arguments Fail {A} m.
Arguments Threw {A}.

(** The lines a [for (line = a; line < b + 1; line++)] loop visits. *)
Definition linesFromTo (a b : nat) : list nat := seq a (b + 1 - a).

(** The inner loop over the lines of a span: stops at the first line that
    is in the set already. *)
Fixpoint claimLines (ls : list nat) (claimed : gset nat) : nat + gset nat :=
  match ls with
  | [] => inr claimed
  | l :: rest =>
      if decide (l ∈ claimed) then inl l
      else claimLines rest (claimed ∪ {[l]})
  end.

(** The loop over the selections, with the set [lines] and the array
    [ranges] as its state. *)
Fixpoint selectEach (d : TextDocument) (sels : list Selection)
    (claimed : gset nat) (ranges : list Range) : Step (list Range) :=
  match sels with
  | [] =>
      if size claimed <? 2 then Fail InsufficientSelection else Done ranges
  | selection :: rest =>
      if isEmpty selection then
        let l := line (sel_start selection) in
        match lineAt d l with
        | None => Threw
        | Some t =>
            let lastChar := length t in
            if decide (l ∈ claimed) then Fail (DuplicateLineSelection (l + 1))
            else selectEach d rest (claimed ∪ {[l]})
                   (ranges ++ [newRange4 l 0 l lastChar])
        end
      else
        match claimLines (linesFromTo (line (sel_start selection))
                                      (line (sel_end selection))) claimed with
        | inl l => Fail (DuplicateLineSelection (l + 1))
        | inr claimed' =>
            selectEach d rest claimed'
              (ranges ++ [newRange (sel_start selection) (sel_end selection)])
        end
  end.

(** Lines 161 to 206 of the script: the whole document for a single bare
    cursor, the selected ranges otherwise. *)
Definition selectRanges (d : TextDocument) (sels : list Selection)
  : Step (list Range) :=
  if (length sels =? 1) && from_option isEmpty false (sels !! 0) then
    if lineCount d <? 2 then Fail InsufficientLines
    else
      let lastLine := lineCount d - 1 in
      match lineAt d lastLine with
      | None => Threw
      | Some t => Done [newRange4 0 0 lastLine (length t)]
      end
  else selectEach d sels ∅ [].

(** ** Finding the matches *)

(** The part of a line that a range leaves to the matcher, and the column
    at which that part begins. *)
Definition selectedPart (range : Range) (l : nat) (fullText : text)
  : text * nat :=
  if line (start range) =? line (end_ range) then
    (substring2 fullText (character (start range)) (character (end_ range)),
     character (start range))
  else if l =? line (start range) then
    (substring1 fullText (character (start range)), character (start range))
  else if l =? line (end_ range) then
    (substring2 fullText 0 (character (end_ range)), 0)
  else (fullText, 0).

(** The state of the two nested loops. *)
Record Scan := mkScan {
  positions : list Position;
  rightmostChar : Z;
  pattern : RegExp
}.

(** The body of the inner loop for one line. *)
Definition scanLine (d : TextDocument) (range : Range) (acc : option Scan)
    (l : nat) : option Scan :=
  sc ← acc;
  fullText ← lineAt d l;
  let '(selectedText, selectionStartChar) := selectedPart range l fullText in
  match exec (pattern sc) selectedText with
  | (None, p') => Some (mkScan (positions sc) (rightmostChar sc) p')
  | (Some index, p') =>
      let char := index + selectionStartChar in
      Some (mkScan (positions sc ++ [mkPosition l char])
                   (if (rightmostChar sc <? Z.of_nat char)%Z
                    then Z.of_nat char else rightmostChar sc)
                   p')
  end.

Definition scanRange (d : TextDocument) (acc : option Scan) (range : Range)
  : option Scan :=
  foldl (scanLine d range) acc
        (linesFromTo (line (start range)) (line (end_ range))).

(** Lines 208 to 243 of the script; [None] when the host raised an
    exception for a line that is not in the document. *)
Definition findPositions (p : RegExp) (d : TextDocument) (ranges : list Range)
  : option Scan :=
  foldl (scanRange d) (Some (mkScan [] (-1) p)) ranges.

(** ** Planning and making the edits *)

(** One call of [textEditorEdit.insert(position, ' '.repeat(spaceCount))]. *)
Record Insertion := mkInsertion { target : Position; spaceCount : nat }.

(** The loop of lines 257 to 266, as the list of the insertions it makes. *)
Definition planEdits (ps : list Position) (rightmost : Z) : list Insertion :=
  omap (λ position,
          let spaceCount := (rightmost - Z.of_nat (character position))%Z in
          if (spaceCount <? 1)%Z then None
          else Some (mkInsertion position (Z.to_nat spaceCount))) ps.

(** The text of a line after [t] has been inserted at column [c]. *)
Definition insertInLine (c : nat) (t : text) (old : text) : text :=
  take c old ++ t ++ drop c old.

(** [editor.edit] with one insertion, on the lines of the document. *)
Definition insertSpaces (e : Insertion) (ls : list text) : list text :=
  alter (insertInLine (character (target e)) (spaces (spaceCount e)))
        (line (target e)) ls.

(** The insertions are awaited one after the other. *)
Definition applyEdits (es : list Insertion) (ls : list text) : list text :=
  foldl (λ ls e, insertSpaces e ls) ls es.

(** The host keeps the selections on their text.  [TextEditorEdit.insert]
    pushes its edit with forced marker movement: an end of a selection
    that is on the line of the insertion, at its column or after it,
    moves right by the number of characters inserted; every other end
    stays where it is. *)
Definition moveBy (e : Insertion) (p : Position) : Position :=
  if (line p =? line (target e)) && (character (target e) <=? character p)
  then mkPosition (line p) (character p + spaceCount e)
  else p.

Definition movePosition (es : list Insertion) (p : Position) : Position :=
  foldl (λ p e, moveBy e p) p es.

Definition moveSelection (es : list Insertion) (s : Selection) : Selection :=
  mkSelection (movePosition es (anchor s)) (movePosition es (active s)).

(** The insertions change the lines of the document in the window, and
    the host moves the selections along. *)
Definition editDocument (es : list Insertion) (w : Window) : Window :=
  match activeTextEditor w with
  | None => w
  | Some editor =>
      mkWindow
        (Some (mkEditor (mkDocument (languageId (document editor))
                                    (applyEdits es (lines (document editor))))
                        (moveSelection es <$> selections editor)))
        (inputBox w) (shown w)
  end.

(** ** The commands *)

Section Extension.

(** The regular expression compiler of the host. *)
Variable compile : string → Compiled.

(** [new RegExp(src)], with no flags. *)
Definition newRegExp (src : string) : string + RegExp :=
  match compile src with
  | SyntaxError e => inl e
  | Pattern m => inr (mkRegExp src m false false 0)
  end.

(** The promise of [createRegExp] and the window it leaves.  [None] is the
    answer [null] and, for an argument that [JSON.stringify] cannot print,
    the exception that line 107 raises before a message is shown: either
    way [alignCustomPattern] ends there, with the window as [createRegExp]
    leaves it. *)
Definition createRegExp (json : Json) (w : Window) : option RegExp * Window :=
  match json with
  | JString s =>
      match newRegExp s with
      | inr r => (Some r, w)
      | inl e => (None, showErrorMessage (InvalidPattern e) w)
      end
  | JUndefined =>
      match inputBox w with
      | None => (None, w)
      | Some s =>
          match newRegExp s with
          | inr r => (Some r, w)
          | inl e => (None, showErrorMessage (InvalidPattern e) w)
          end
      end
  | JOther j => (None, showErrorMessage (InvalidArgument j) w)
  | JUnprintable => (None, w)
  end.

Definition alignCustomPattern (possiblePatternString : Json) (w : Window)
  : Window :=
  match createRegExp possiblePatternString w with
  | (None, w) => w
  | (Some pattern, w) =>
      match activeTextEditor w with
      | None => showErrorMessage NoEditor w
      | Some editor =>
          match selectRanges (document editor) (selections editor) with
          | Threw => w
          | Fail m => showErrorMessage m w
          | Done ranges =>
              match findPositions pattern (document editor) ranges with
              | None => w
              | Some sc =>
                  if length (positions sc) =? 0 then
                    showErrorMessage (NoMatchesFound (source pattern)) w
                  else if length (positions sc) =? 1 then
                    showErrorMessage (SingleMatchFound (source pattern)) w
                  else
                    editDocument
                      (planEdits (positions sc) (rightmostChar sc)) w
              end
          end
      end
  end.

Definition alignAssignmentOperators (w : Window) : Window :=
  alignCustomPattern (JString " = ") w.

(** The pattern [alignComments] passes on for a language. *)
Definition commentPattern (lang : string) : string :=
  default "/[/*]" (COMMENT_PATTERNS !! lang).

Definition alignComments (w : Window) : Window :=
  match activeTextEditor w with
  | None => showErrorMessage NoEditor w
  | Some editor =>
      alignCustomPattern
        (JString (commentPattern (languageId (document editor)))) w
  end.

End Extension.

(** The plan [alignCustomPattern] reaches, when it reaches one: the
    insertions it is about to make ([None] when it stops before). *)
Definition plannedEdits (compile : string → Compiled)
    (possiblePatternString : Json) (w : Window) : option (list Insertion) :=
  match createRegExp compile possiblePatternString w with
  | (None, _) => None
  | (Some pattern, w) =>
      editor ← activeTextEditor w;
      match selectRanges (document editor) (selections editor) with
      | Done ranges =>
          sc ← findPositions pattern (document editor) ranges;
          if length (positions sc) <? 2 then None
          else Some (planEdits (positions sc) (rightmostChar sc))
      | _ => None
      end
  end.

(** The lines of the document in the window ([[]] without an editor). *)
Definition windowLines (w : Window) : list text :=
  from_option (λ e, lines (document e)) [] (activeTextEditor w).

(** ** Notions the properties are stated with *)

(** A pattern object without the global and the sticky flag. *)
Definition stateless (r : RegExp) : Prop :=
  global r = false ∧ sticky r = false.

(** A range whose start is not after its end. *)
Definition ordered (r : Range) : Prop := isBefore (end_ r) (start r) = false.

(** The pairs of a range and a line that the two nested loops visit, in
    the order of the visit. *)
Definition scanned (ranges : list Range) : list (Range * nat) :=
  range ← ranges;
  (λ l, (range, l)) <$> linesFromTo (line (start range)) (line (end_ range)).

Definition scannedLines (ranges : list Range) : list nat :=
  (scanned ranges).*2.

(** The body of the inner loop, for a visited pair. *)
Definition scanStep (d : TextDocument) (acc : option Scan) (rl : Range * nat)
  : option Scan :=
  scanLine d rl.1 acc rl.2.

(** The match on one visited line, found without any state: the leftmost
    match in the selected part, moved to the column of the full line. *)
Definition locate (m : Matcher) (d : TextDocument) (rl : Range * nat)
  : option Position :=
  fullText ← lineAt d rl.2;
  let part := selectedPart rl.1 rl.2 fullText in
  (λ index, mkPosition rl.2 (index + part.2)) <$> leftmost m part.1.

Definition hits (m : Matcher) (d : TextDocument) (ranges : list Range)
  : list Position :=
  omap (locate m d) (scanned ranges).

(** The largest column among positions, [-1] when there is none. *)
Definition rightmostOf (ps : list Position) : Z :=
  foldl (λ acc p, Z.max acc (Z.of_nat (character p))) (-1)%Z ps.

(** The visit stays inside the document. *)
Definition inDocument (d : TextDocument) (ranges : list Range) : Prop :=
  Forall (λ l, l < lineCount d) (scannedLines ranges).

(** The line indices the selections claim, in the order of the claims. *)
Definition claims (sels : list Selection) : list nat :=
  s ← sels; linesFromTo (line (sel_start s)) (line (sel_end s)).

(** The first element of a list that occurs earlier in it. *)
Fixpoint firstDuplicate (seen : list nat) (ls : list nat) : option nat :=
  match ls with
  | [] => None
  | l :: rest =>
      if bool_decide (l ∈ seen) then Some l
      else firstDuplicate (l :: seen) rest
  end.

(** Every cursor sits on a line of the document. *)
Definition cursorsInDocument (d : TextDocument) (sels : list Selection) : Prop :=
  Forall (λ s, isEmpty s = true → line (sel_start s) < lineCount d) sels.

(** The LineRange of the specification: the part of one line that may be
    matched, from a start column to an end column or to the end of the
    line. *)
Record LineRange := mkLineRange {
  lineIndex : nat;
  startColumn : nat;
  endColumn : option nat
}.

(** The LineRange of a line of a range, in the words of the specification:
    the exact slice for a range on one line, the suffix from the start
    column on the first line, the prefix up to the end column on the last
    line, the full line otherwise. *)
Definition lineRangeOf (range : Range) (l : nat) : LineRange :=
  if decide (line (start range) = line (end_ range)) then
    mkLineRange l (character (start range)) (Some (character (end_ range)))
  else if decide (l = line (start range)) then
    mkLineRange l (character (start range)) None
  else if decide (l = line (end_ range)) then
    mkLineRange l 0 (Some (character (end_ range)))
  else mkLineRange l 0 None.

(** The characters of a line at the columns of a LineRange. *)
Definition permitted (lr : LineRange) (t : text) : text :=
  match endColumn lr with
  | Some e => take (e - startColumn lr) (drop (startColumn lr) t)
  | None => drop (startColumn lr) t
  end.

(** The match the specification records for a visited line. *)
Definition matchPosition (m : Matcher) (d : TextDocument) (rl : Range * nat)
  : option Position :=
  t ← lineAt d rl.2;
  let lr := lineRangeOf rl.1 rl.2 in
  offset ← leftmost m (permitted lr t);
  Some (mkPosition (lineIndex lr) (offset + startColumn lr)).

(** The first column of a line with a slash or a star. *)
Fixpoint firstSlashOrStar (s : text) : option nat :=
  match s with
  | [] => None
  | c :: rest =>
      if Ascii.eqb c "/" || Ascii.eqb c "*" then Some 0
      else S <$> firstSlashOrStar rest
  end.

(** The first column of a line at which a slash is followed by a slash or
    a star: the start of a line comment or of a block comment. *)
Fixpoint firstCommentStart (s : text) : option nat :=
  match s with
  | [] => None
  | c :: rest =>
      if Ascii.eqb c "/" &&
         match rest with
         | c' :: _ => Ascii.eqb c' "/" || Ascii.eqb c' "*"
         | [] => false
         end
      then Some 0
      else S <$> firstCommentStart rest
  end.

(** A pattern whose leftmost match moves with the spaces put in front of
    it, whatever the line. *)
Definition shiftStable (m : Matcher) : Prop :=
  ∀ s i n, leftmost m s = Some i →
    leftmost m (insertInLine i (spaces n) s) = Some (i + n).

(** The matches of full lines: what a visit of the lines [ls] of a
    document finds when each line is given to the matcher as a whole. *)
Definition fullLineHits (m : Matcher) (ls : list text) (visit : list nat)
  : list Position :=
  omap (λ l, t ← ls !! l; mkPosition l <$> leftmost m t) visit.

(** Every visited line is given to the matcher as a whole. *)
Definition fullLines (d : TextDocument) (ranges : list Range) : Prop :=
  ∀ rl t, rl ∈ scanned ranges → lineAt d rl.2 = Some t →
    selectedPart rl.1 rl.2 t = (t, 0).

(** The range that the script makes for a cursor on line [l]. *)
Definition wholeLine (d : TextDocument) (l : nat) : Range :=
  mkRange (mkPosition l 0)
          (mkPosition l (length (default ([] : text) (lineAt d l)))).

(** ** Windows for examples *)

(** A window with an editor on the given lines and selections, no answer
    from the prompt and no message shown yet. *)
Definition exampleWindow (lang : string) (ls : list string)
    (sels : list Selection) : Window :=
  mkWindow (Some (mkEditor (mkDocument lang (txt <$> ls)) sels)) None [].

(** A selection from one position to another. *)
Definition span (l1 c1 l2 c2 : nat) : Selection :=
  mkSelection (mkPosition l1 c1) (mkPosition l2 c2).

(** ** Notions for the further properties *)

(** The characters of a line other than the space. *)
Definition nonSpaces (t : list ascii) : list ascii :=
  filter (λ c, c ≠ " "%char) t.

(** What a selection keeps through an edit of its lines: the lines of its
    two ends, and whether it is empty. *)
Definition selectionLines (s : Selection) : nat * nat * bool :=
  (line (anchor s), line (active s), isEmpty s).

(** The condition under which the script takes the whole document: one
    selection, and that one empty. *)
Definition wholeDocumentMode (sels : list Selection) : bool :=
  (length sels =? 1) && from_option isEmpty false (sels !! 0).

(** The range that the loop over the selections makes for one selection. *)
Definition selectionRange (d : TextDocument) (s : Selection) : Range :=
  if isEmpty s then wholeLine d (line (sel_start s))
  else mkRange (sel_start s) (sel_end s).

(** Every range starts inside the text of its first line. *)
Definition startsInLines (d : TextDocument) (ranges : list Range) : Prop :=
  Forall (λ r, ∀ t, lineAt d (line (start r)) = Some t →
                    character (start r) ≤ length t) ranges.

(** The rightmost column among positions, as a column. *)
Definition rightColumn (ps : list Position) : nat := Z.to_nat (rightmostOf ps).

(** The document after the insertions of a pass over [ranges]. *)
Definition padded (m : Matcher) (d : TextDocument) (ranges : list Range)
  : TextDocument :=
  mkDocument (languageId d)
    (applyEdits (planEdits (hits m d ranges) (rightmostOf (hits m d ranges)))
                (lines d)).

(** A position moved to column [M] of its line. *)
Definition atColumn (M : nat) (pos : Position) : Position :=
  mkPosition (line pos) M.

(** A range [r'] of the document after the insertions that pad the
    matches [found] of the document [d] up to column [M], for the range
    [r] of [d]: on the same lines; with the start at column [M] when the
    start was the match of its line, or where it was (which, for a start
    that was the match of its line, it can be only if no space was put
    there or the start is inside the text of the line); with the end moved
    by the spaces inserted into its line. *)
Definition rangeFollows (d : TextDocument) (found : list Position) (M : nat)
    (r r' : Range) : Prop :=
  line (start r') = line (start r) ∧ line (end_ r') = line (end_ r) ∧
  ((character (start r') = character (start r) ∧
    (start r ∈ found →
       character (start r) = M ∨
       character (start r)
       ≤ length (default ([] : text) (lineAt d (line (start r)))))) ∨
   (start r ∈ found ∧ character (start r') = M)) ∧
  (∀ pos, pos ∈ found → line pos = line (end_ r) →
     character (end_ r') = character (end_ r) + (M - character pos)) ∧
  ((∀ pos, pos ∈ found → line pos ≠ line (end_ r)) →
     character (end_ r') = character (end_ r)).

(** The strings a pattern of the fragment matches as a whole. *)
Fixpoint accepts (r : Fragment.regex) (u : text) : Prop :=
  match r with
  | Fragment.Eps => u = []
  | Fragment.Chr c => u = [c]
  | Fragment.Any => ∃ c, u = [c] ∧ Fragment.lineTerminator c = false
  | Fragment.Cls neg ms =>
      ∃ c, u = [c] ∧ xorb neg (existsb (Ascii.eqb c) ms) = true
  | Fragment.Seq r1 r2 => ∃ u1 u2, u = u1 ++ u2 ∧ accepts r1 u1 ∧ accepts r2 u2
  | Fragment.Alt r1 r2 => accepts r1 u ∨ accepts r2 u
  end.

(** A pattern none of whose atoms can match a space. *)
Fixpoint spaceFree (r : Fragment.regex) : bool :=
  match r with
  | Fragment.Eps => true
  | Fragment.Chr c => negb (Ascii.eqb c " ")
  | Fragment.Any => false
  | Fragment.Cls neg ms => negb neg && negb (existsb (Ascii.eqb " "%char) ms)
  | Fragment.Seq r1 r2 => spaceFree r1 && spaceFree r2
  | Fragment.Alt r1 r2 => spaceFree r1 && spaceFree r2
  end.

(** A pattern that cannot match the empty string. *)
Fixpoint nonNullable (r : Fragment.regex) : bool :=
  match r with
  | Fragment.Eps => false
  | Fragment.Chr _ | Fragment.Any | Fragment.Cls _ _ => true
  | Fragment.Seq r1 r2 => nonNullable r1 || nonNullable r2
  | Fragment.Alt r1 r2 => nonNullable r1 && nonNullable r2
  end.

(** All selections of a window are bare cursors. *)
Definition cursorsOnly (w : Window) : Prop :=
  ∀ editor, activeTextEditor w = Some editor →
    Forall (λ s, isEmpty s = true) (selections editor).

(** The pattern of [alignAssignmentOperators], as the fragment reads it. *)
Definition assignmentRegex : Fragment.regex :=
  Fragment.Seq
    (Fragment.Seq (Fragment.Seq Fragment.Eps (Fragment.Chr " "))
                  (Fragment.Chr "="))
    (Fragment.Chr " ").

(** No line of the document contains a line break, as the host has it. *)
Definition noLineBreaks (d : TextDocument) : Prop :=
  Forall (Forall (λ c, Fragment.lineTerminator c = false)) (lines d).


(** * Properties *)

(** ** The search of [exec] *)

Lemma search_Some m s i fuel j e :
  search m s i fuel = Some (j, e) →
  i ≤ j < i + fuel ∧ m s j = Some e ∧ ∀ k, i ≤ k < j → m s k = None.
Proof.
  revert i. induction fuel as [|fuel IH]; intros i; simpl; [done|].
  destruct (m s i) as [e'|] eqn:Hi.
  - intros [= <- <-]. repeat split; [lia..|done|]. intros k ?; lia.
  - intros H. destruct (IH _ H) as ([??] & ? & Hk).
    repeat split; [lia..|done|]. intros k ?.
    destruct (decide (k = i)) as [->|]; [done|]. apply Hk. lia.
Qed.

Lemma search_None m s i fuel :
  search m s i fuel = None → ∀ k, i ≤ k < i + fuel → m s k = None.
Proof.
  revert i. induction fuel as [|fuel IH]; intros i; simpl; [intros _ k ?; lia|].
  destruct (m s i) eqn:Hi; [done|]. intros H k ?.
  destruct (decide (k = i)) as [->|]; [done|]. apply (IH _ H). lia.
Qed.

Lemma leftmost_Some m s i :
  leftmost m s = Some i ↔
  i ≤ length s ∧ is_Some (m s i) ∧ ∀ k, k < i → m s k = None.
Proof.
  unfold leftmost. split.
  - destruct (search m s 0 (length s + 1)) as [[j e]|] eqn:H; [|done].
    intros [= <-]. apply search_Some in H as (? & ? & Hk).
    repeat split; [lia|by eexists|]. intros k ?. apply Hk. lia.
  - intros (Hi & [e He] & Hk).
    destruct (search m s 0 (length s + 1)) as [[j e']|] eqn:H; simpl.
    + apply search_Some in H as (? & Hj & Hk'). f_equal.
      destruct (decide (j < i)); [rewrite Hk in Hj by lia; done|].
      destruct (decide (i < j)); [rewrite Hk' in He by lia; done|]. lia.
    + rewrite (search_None _ _ _ _ H) in He by lia. done.
Qed.

Lemma leftmost_None m s :
  leftmost m s = None ↔ ∀ k, k ≤ length s → m s k = None.
Proof.
  unfold leftmost. split.
  - destruct (search m s 0 (length s + 1)) as [[j e]|] eqn:H; [done|].
    intros _ k ?. apply (search_None _ _ _ _ H). lia.
  - intros Hk.
    destruct (search m s 0 (length s + 1)) as [[j e]|] eqn:H; [|done].
    apply search_Some in H as (? & Hj & _). rewrite Hk in Hj by lia. done.
Qed.

Lemma leftmost_le m s i : leftmost m s = Some i → i ≤ length s.
Proof. intros H. by apply leftmost_Some in H as [? _]. Qed.

(** Without the two flags [exec] neither reads nor writes [lastIndex]. *)
Lemma exec_stateless r s :
  stateless r → exec r s = (leftmost (matcher r) s, r).
Proof.
  intros [Hg Hs]. unfold exec, leftmost. rewrite Hg, Hs. simpl.
  replace (length s + 1 - 0) with (length s + 1) by lia.
  by destruct (search (matcher r) s 0 (length s + 1)) as [[i e]|].
Qed.

(** ** The two loops of the scan as one loop *)

Lemma findPositions_scanned p d ranges :
  findPositions p d ranges
  = foldl (scanStep d) (Some (mkScan [] (-1) p)) (scanned ranges).
Proof.
  unfold findPositions. generalize (Some (mkScan [] (-1) p)).
  induction ranges as [|r ranges IH]; intros acc; [done|].
  unfold scanned. simpl. rewrite foldl_app, <- IH. f_equal.
  unfold scanRange. generalize (linesFromTo (line (start r)) (line (end_ r))).
  intros ls. revert acc. induction ls; intros acc; simpl; [done|]. by rewrite IHls.
Qed.

Lemma foldl_scanStep_None d items : foldl (scanStep d) None items = None.
Proof. induction items; simpl; [done|]. by rewrite <- IHitems at 2. Qed.

(** The scan ends without an exception exactly when it stays inside the
    document. *)
Lemma foldl_scanStep_Some d items acc sc :
  foldl (scanStep d) acc items = Some sc →
  Forall (λ rl, rl.2 < lineCount d) items.
Proof.
  revert acc. induction items as [|[r l] items IH]; intros acc H; [constructor|].
  simpl in H. constructor; [|by eapply IH].
  simpl. destruct (scanStep d acc (r, l)) as [sc'|] eqn:Hstep.
  - unfold scanStep, scanLine in Hstep. simpl in Hstep.
    destruct acc as [sc0|]; simpl in Hstep; [|done].
    destruct (lineAt d l) eqn:Hl; simpl in Hstep; [|done].
    by apply lookup_lt_Some in Hl.
  - by rewrite foldl_scanStep_None in H.
Qed.

Lemma foldl_scanStep_stateless d items sc :
  stateless (pattern sc) →
  Forall (λ rl, rl.2 < lineCount d) items →
  foldl (scanStep d) (Some sc) items
  = Some (mkScan
            (positions sc ++ omap (locate (matcher (pattern sc)) d) items)
            (foldl (λ acc p, Z.max acc (Z.of_nat (character p)))
                   (rightmostChar sc)
                   (omap (locate (matcher (pattern sc)) d) items))
            (pattern sc)).
Proof.
  intros Hst Hin. revert sc Hst.
  induction Hin as [|[r l] items Hl _ IH]; intros sc Hst; simpl.
  { rewrite app_nil_r. by destruct sc. }
  apply lookup_lt_is_Some_2 in Hl as [t Ht]. simpl in Ht.
  unfold scanStep at 1, scanLine, locate. simpl.
  unfold lineAt in *. rewrite Ht. simpl.
  destruct (selectedPart r l t) as [selectedText selectionStartChar] eqn:Hpart.
  rewrite exec_stateless by done. simpl.
  destruct (leftmost (matcher (pattern sc)) selectedText) as [index|]; simpl.
  - rewrite IH by done. simpl. rewrite <- app_assoc. simpl. do 2 f_equal.
    f_equal. destruct (Z.ltb_spec (rightmostChar sc)
                         (Z.of_nat (index + selectionStartChar))); lia.
  - rewrite IH by done. simpl. by destruct sc.
Qed.


Lemma inDocument_scanned d ranges :
  inDocument d ranges ↔ Forall (λ rl, rl.2 < lineCount d) (scanned ranges).
Proof. unfold inDocument, scannedLines. by rewrite Forall_fmap. Qed.

(** With a pattern object without flags the scan is the stateless one. *)
Lemma findPositions_stateless p d ranges :
  stateless p → inDocument d ranges →
  findPositions p d ranges
  = Some (mkScan (hits (matcher p) d ranges)
                 (rightmostOf (hits (matcher p) d ranges)) p).
Proof.
  intros Hst Hin. rewrite findPositions_scanned.
  rewrite foldl_scanStep_stateless; [done..|]. by apply inDocument_scanned.
Qed.

Lemma findPositions_inDocument p d ranges sc :
  findPositions p d ranges = Some sc → inDocument d ranges.
Proof.
  rewrite findPositions_scanned. intros H.
  apply inDocument_scanned. by eapply foldl_scanStep_Some.
Qed.

Lemma findPositions_Some p d ranges sc :
  stateless p → findPositions p d ranges = Some sc →
  sc = mkScan (hits (matcher p) d ranges)
              (rightmostOf (hits (matcher p) d ranges)) p.
Proof.
  intros Hst H. pose proof (findPositions_inDocument _ _ _ _ H) as Hin.
  rewrite findPositions_stateless in H by done. congruence.
Qed.

(** ** The rightmost column *)

Lemma foldl_max_spec (ps : list Position) (init : Z) :
  let M := foldl (λ acc p, Z.max acc (Z.of_nat (character p))) init ps in
  (init ≤ M)%Z ∧ (∀ p, p ∈ ps → (Z.of_nat (character p) ≤ M)%Z) ∧
  (M = init ∨ ∃ p, p ∈ ps ∧ Z.of_nat (character p) = M).
Proof.
  revert init. induction ps as [|p ps IH]; intros init; simpl.
  { split; [lia|]. split; [|by left]. intros p Hp. by apply elem_of_nil in Hp. }
  destruct (IH (Z.max init (Z.of_nat (character p)))) as (H1 & H2 & H3).
  split; [lia|]. split.
  - intros q [->|Hq]%elem_of_cons; [lia|by apply H2].
  - destruct H3 as [H3|(q & Hq & H3)].
    + destruct (Z.max_spec init (Z.of_nat (character p))) as [[? Hm]|[? Hm]].
      * right. exists p. split; [left|lia].
      * left. lia.
    + right. exists q. split; [by right|done].
Qed.

Lemma rightmostOf_ge ps p :
  p ∈ ps → (Z.of_nat (character p) ≤ rightmostOf ps)%Z.
Proof. intros Hp. by apply (foldl_max_spec ps (-1)). Qed.

Lemma rightmostOf_attained ps :
  ps ≠ [] → ∃ p, p ∈ ps ∧ Z.of_nat (character p) = rightmostOf ps.
Proof.
  intros Hne. destruct (foldl_max_spec ps (-1)) as (_ & Hge & [Heq|Hex]); [|done].
  destruct ps as [|p ps]; [done|].
  specialize (Hge p ltac:(left)). fold (rightmostOf (p :: ps)) in *. lia.
Qed.

(** ** The plan *)

Lemma elem_of_planEdits e ps M :
  e ∈ planEdits ps M ↔
  target e ∈ ps ∧ (Z.of_nat (character (target e)) < M)%Z ∧
  Z.of_nat (spaceCount e) = (M - Z.of_nat (character (target e)))%Z.
Proof.
  unfold planEdits. rewrite list_elem_of_omap. split.
  - intros (pos & Hpos & Hsome).
    destruct (Z.ltb_spec (M - Z.of_nat (character pos)) 1); [done|].
    injection Hsome as <-. simpl. split; [done|]. lia.
  - intros (Hin & Hlt & Hcount). exists (target e). split; [done|].
    destruct (Z.ltb_spec (M - Z.of_nat (character (target e))) 1); [lia|].
    f_equal. destruct e as [pos n]. simpl in *. f_equal. lia.
Qed.

Lemma planEdits_lines ps M :
  (line ∘ target) <$> planEdits ps M `sublist_of` line <$> ps.
Proof.
  unfold planEdits. induction ps as [|p ps IH]; simpl; [done|].
  destruct (M - Z.of_nat (character p) <? 1)%Z; simpl.
  - by apply sublist_cons.
  - by apply sublist_skip.
Qed.

Lemma planEdits_all_rightmost ps M :
  Forall (λ p, Z.of_nat (character p) = M) ps → planEdits ps M = [].
Proof.
  unfold planEdits. induction 1 as [|p ps Hp _ IH]; simpl; [done|].
  rewrite Hp, Z.sub_diag. simpl. done.
Qed.

(** ** Insertions on different lines *)

Lemma length_applyEdits es ls : length (applyEdits es ls) = length ls.
Proof.
  revert ls. induction es as [|e es IH]; intros ls; simpl; [done|].
  unfold applyEdits in *. simpl. rewrite IH. unfold insertSpaces.
  by rewrite length_alter.
Qed.

Lemma applyEdits_lookup_other es ls l :
  l ∉ (line ∘ target) <$> es → applyEdits es ls !! l = ls !! l.
Proof.
  revert ls. induction es as [|e es IH]; intros ls Hl; [done|].
  rewrite fmap_cons, not_elem_of_cons in Hl. destruct Hl as [Hne Hl].
  unfold applyEdits in *. simpl. rewrite IH by done.
  unfold insertSpaces. by rewrite list_lookup_alter_ne.
Qed.

Lemma applyEdits_lookup_target es ls e :
  NoDup ((line ∘ target) <$> es) → e ∈ es →
  applyEdits es ls !! line (target e)
  = insertInLine (character (target e)) (spaces (spaceCount e))
      <$> ls !! line (target e).
Proof.
  revert ls. induction es as [|e0 es IH]; intros ls Hnd He.
  { by apply elem_of_nil in He. }
  rewrite fmap_cons in Hnd. apply NoDup_cons in Hnd as [Hfresh Hnd].
  unfold applyEdits in *. simpl. apply elem_of_cons in He as [->|He].
  - fold (applyEdits es (insertSpaces e0 ls)).
    rewrite applyEdits_lookup_other by done.
    unfold insertSpaces. by rewrite list_lookup_alter_eq.
  - rewrite IH by done. unfold insertSpaces.
    rewrite list_lookup_alter_ne; [done|].
    intros Heq. apply Hfresh.
    apply (list_elem_of_fmap_2 (line ∘ target)) in He.
    simpl in *. by rewrite Heq.
Qed.

Lemma applyEdits_Permutation es es' ls :
  NoDup ((line ∘ target) <$> es) → es' ≡ₚ es →
  applyEdits es' ls = applyEdits es ls.
Proof.
  intros Hnd Hperm. apply list_eq. intros l.
  assert (NoDup ((line ∘ target) <$> es')) as Hnd' by by rewrite Hperm.
  destruct (decide (l ∈ (line ∘ target) <$> es)) as [Hl|Hl].
  - apply list_elem_of_fmap in Hl as (e & -> & He). simpl.
    rewrite (applyEdits_lookup_target es) by done.
    rewrite (applyEdits_lookup_target es'); [done..|]. by rewrite Hperm.
  - rewrite (applyEdits_lookup_other es) by done.
    rewrite applyEdits_lookup_other; [done|]. by rewrite Hperm.
Qed.

(** ** Ranges and selections are ordered *)

Ltac bool_to_prop :=
  repeat match goal with
  | H : _ && _ = true |- _ => apply andb_true_iff in H as [? ?]
  | H : _ || _ = false |- _ => apply orb_false_iff in H as [? ?]
  | H : _ || _ = true |- _ => apply orb_true_iff in H as [?|?]
  | H : _ && _ = false |- _ => apply andb_false_iff in H as [?|?]
  | H : (_ <? _) = true |- _ => apply Nat.ltb_lt in H
  | H : (_ <? _) = false |- _ => apply Nat.ltb_ge in H
  | H : (_ =? _) = true |- _ => apply Nat.eqb_eq in H
  | H : (_ =? _) = false |- _ => apply Nat.eqb_neq in H
  end.

Lemma isBefore_false p q :
  isBefore q p = false ↔
  line p < line q ∨ (line p = line q ∧ character p ≤ character q).
Proof.
  unfold isBefore. split.
  - intros H. bool_to_prop; lia.
  - intros H. destruct (_ || _) eqn:E; [|done]. bool_to_prop; lia.
Qed.

Lemma isBefore_asym p q : isBefore p q = true → isBefore q p = false.
Proof.
  intros H. apply isBefore_false. unfold isBefore in H. bool_to_prop; lia.
Qed.

Lemma newRange_ordered p q : ordered (newRange p q).
Proof.
  unfold ordered, newRange. destruct (isBefore q p) eqn:E; simpl; [|done].
  by apply isBefore_asym.
Qed.

Lemma sel_ordered s : isBefore (sel_end s) (sel_start s) = false.
Proof.
  unfold sel_start, sel_end. destruct (isBefore (active s) (anchor s)) eqn:E.
  - by apply isBefore_asym.
  - done.
Qed.

Lemma newRange_selection s :
  newRange (sel_start s) (sel_end s) = mkRange (sel_start s) (sel_end s).
Proof. unfold newRange. by rewrite sel_ordered. Qed.

Lemma newRange4_line l n : newRange4 l 0 l n = mkRange (mkPosition l 0) (mkPosition l n).
Proof.
  unfold newRange4, newRange, isBefore. simpl.
  rewrite Nat.ltb_irrefl. simpl. by rewrite andb_false_r.
Qed.

Lemma newRange4_document n c :
  newRange4 0 0 n c = mkRange (mkPosition 0 0) (mkPosition n c).
Proof.
  unfold newRange4, newRange, isBefore. simpl. by rewrite andb_false_r.
Qed.

Lemma ordered_lines r : ordered r → line (start r) ≤ line (end_ r).
Proof. intros H. apply isBefore_false in H. lia. Qed.

Lemma isEmpty_line s : isEmpty s = true → line (sel_end s) = line (sel_start s).
Proof. unfold isEmpty, Position_eqb. intros H. by bool_to_prop. Qed.

Lemma linesFromTo_single l : linesFromTo l l = [l].
Proof. unfold linesFromTo. by replace (l + 1 - l) with 1 by lia. Qed.

Lemma elem_of_linesFromTo a b l : l ∈ linesFromTo a b ↔ a ≤ l ≤ b.
Proof. unfold linesFromTo. rewrite elem_of_seq. lia. Qed.

Lemma claims_cons s sels :
  claims (s :: sels)
  = linesFromTo (line (sel_start s)) (line (sel_end s)) ++ claims sels.
Proof. done. Qed.

Lemma claims_cursor s sels :
  isEmpty s = true → claims (s :: sels) = line (sel_start s) :: claims sels.
Proof.
  intros H. rewrite claims_cons, (isEmpty_line _ H), linesFromTo_single. done.
Qed.

Lemma scannedLines_snoc ranges r :
  scannedLines (ranges ++ [r])
  = scannedLines ranges ++ linesFromTo (line (start r)) (line (end_ r)).
Proof.
  unfold scannedLines, scanned. rewrite bind_app, fmap_app. f_equal.
  simpl. rewrite app_nil_r, <- list_fmap_compose. simpl. apply list_fmap_id.
Qed.

(** ** The set of claimed lines *)

Lemma claimLines_inr ls claimed claimed' :
  claimLines ls claimed = inr claimed' →
  NoDup ls ∧ (∀ l, l ∈ ls → l ∉ claimed) ∧
  ∀ l, l ∈ claimed' ↔ l ∈ claimed ∨ l ∈ ls.
Proof.
  revert claimed. induction ls as [|l0 ls IH]; intros claimed; simpl.
  - intros [= <-]. split; [constructor|]. split; [by intros ? ?%elem_of_nil|].
    intros l. rewrite elem_of_nil. tauto.
  - destruct (decide (l0 ∈ claimed)) as [|Hfresh]; [done|]. intros H.
    destruct (IH _ H) as (Hnd & Hdisj & Hiff). split; [|split].
    + constructor; [|done]. intros Hin. apply (Hdisj _ Hin). set_solver.
    + intros l [->|Hin]%elem_of_cons; [done|].
      intros Hc. apply (Hdisj _ Hin). set_solver.
    + intros l. rewrite Hiff, elem_of_cons. set_solver.
Qed.

Lemma firstDuplicate_app seen ls rest :
  firstDuplicate seen (ls ++ rest)
  = match firstDuplicate seen ls with
    | Some l => Some l
    | None => firstDuplicate (reverse ls ++ seen) rest
    end.
Proof.
  revert seen. induction ls as [|l ls IH]; intros seen; simpl; [done|].
  destruct (bool_decide (l ∈ seen)); [done|].
  rewrite IH, reverse_cons, <- app_assoc. done.
Qed.

Lemma firstDuplicate_ext seen seen' ls :
  (∀ l, l ∈ seen ↔ l ∈ seen') → firstDuplicate seen ls = firstDuplicate seen' ls.
Proof.
  revert seen seen'. induction ls as [|l ls IH]; intros seen seen' H; simpl; [done|].
  rewrite (bool_decide_ext _ _ (H l)). destruct (bool_decide (l ∈ seen')); [done|].
  apply IH. intros x. rewrite !elem_of_cons, H. done.
Qed.

(** The inner loop stops at the first duplicate, if there is one. *)
Lemma claimLines_firstDuplicate ls claimed seen :
  (∀ l, l ∈ claimed ↔ l ∈ seen) →
  match claimLines ls claimed with
  | inl l => firstDuplicate seen ls = Some l
  | inr claimed' =>
      firstDuplicate seen ls = None ∧
      ∀ l, l ∈ claimed' ↔ l ∈ reverse ls ++ seen
  end.
Proof.
  revert claimed seen. induction ls as [|l0 ls IH]; intros claimed seen H; simpl.
  { done. }
  rewrite (bool_decide_ext _ _ (symmetry (H l0))).
  destruct (decide (l0 ∈ claimed)) as [Hin|Hfresh].
  - by rewrite bool_decide_eq_true_2.
  - rewrite bool_decide_eq_false_2 by done.
    specialize (IH (claimed ∪ {[l0]}) (l0 :: seen)).
    destruct (claimLines ls (claimed ∪ {[l0]})) as [l|claimed'].
    + apply IH. intros l'. rewrite elem_of_cons, <- H. set_solver.
    + destruct IH as [IH1 IH2].
      { intros l'. rewrite elem_of_cons, <- H. set_solver. }
      split; [done|]. intros l. rewrite IH2, reverse_cons, <- app_assoc. done.
Qed.

Lemma firstDuplicate_Some seen ls l :
  firstDuplicate seen ls = Some l →
  ∃ before after, ls = before ++ l :: after ∧ l ∈ before ++ seen ∧
    NoDup before ∧ ∀ x, x ∈ before → x ∉ seen.
Proof.
  revert seen. induction ls as [|l0 ls IH]; intros seen; simpl; [done|].
  destruct (bool_decide (l0 ∈ seen)) eqn:E.
  - intros [= <-]. apply bool_decide_eq_true in E.
    exists [], ls. split; [done|]. split; [done|]. split; [constructor|].
    by intros ? ?%elem_of_nil.
  - apply bool_decide_eq_false in E. intros H.
    destruct (IH _ H) as (before & after & -> & Hin & Hnd & Hdisj).
    exists (l0 :: before), after. split; [done|]. split; [|split].
    + apply elem_of_app in Hin as [Hin|[->|Hin]%elem_of_cons]; set_solver.
    + constructor; [|done]. intros Hb. apply (Hdisj _ Hb). by left.
    + intros x [->|Hx]%elem_of_cons; [done|].
      intros Hs. apply (Hdisj _ Hx). by right.
Qed.

Lemma firstDuplicate_None seen ls :
  firstDuplicate seen ls = None → NoDup ls.
Proof.
  revert seen. induction ls as [|l0 ls IH]; intros seen; simpl; [constructor|].
  destruct (bool_decide (l0 ∈ seen)) eqn:E; [done|]. intros H.
  constructor; [|by eapply IH]. intros Hin.
  clear E IH. revert seen H. induction ls as [|x ls IH]; intros seen H.
  { by apply elem_of_nil in Hin. }
  simpl in H. destruct (bool_decide (x ∈ l0 :: seen)) eqn:E; [done|].
  apply bool_decide_eq_false in E.
  apply elem_of_cons in Hin as [->|Hin]; [apply E; by left|].
  apply (IH Hin (x :: seen)).
  erewrite firstDuplicate_ext; [exact H|]. intros y. set_solver.
Qed.

(** ** The loop over the selections *)

Lemma selectEach_duplicate d sels claimed seen ranges l :
  cursorsInDocument d sels →
  (∀ x, x ∈ claimed ↔ x ∈ seen) →
  firstDuplicate seen (claims sels) = Some l →
  selectEach d sels claimed ranges = Fail (DuplicateLineSelection (l + 1)).
Proof.
  intros Hcur. revert claimed seen ranges.
  induction Hcur as [|s sels Hs _ IH]; intros claimed seen ranges Hseen Hdup.
  { done. }
  simpl. destruct (isEmpty s) eqn:Hempty.
  - rewrite claims_cursor in Hdup by done. simpl in Hdup.
    apply lookup_lt_is_Some_2 in Hs as [t Ht]; [|done].
    unfold lineAt. rewrite Ht.
    rewrite (bool_decide_ext _ _ (symmetry (Hseen _))) in Hdup.
    destruct (decide (line (sel_start s) ∈ claimed)) as [Hin|Hfresh].
    + rewrite bool_decide_eq_true_2 in Hdup by done. congruence.
    + rewrite bool_decide_eq_false_2 in Hdup by done.
      eapply IH; [|exact Hdup]. intros x. rewrite elem_of_cons, <- Hseen.
      set_solver.
  - rewrite claims_cons, firstDuplicate_app in Hdup.
    pose proof (claimLines_firstDuplicate
                  (linesFromTo (line (sel_start s)) (line (sel_end s)))
                  claimed seen Hseen) as Hclaim.
    destruct (claimLines _ claimed) as [l'|claimed'].
    + rewrite Hclaim in Hdup. congruence.
    + destruct Hclaim as [Hnone Hiff]. rewrite Hnone in Hdup.
      eapply IH; [exact Hiff|exact Hdup].
Qed.

Lemma selectRanges_duplicate d sels l :
  cursorsInDocument d sels →
  firstDuplicate [] (claims sels) = Some l →
  selectRanges d sels = Fail (DuplicateLineSelection (l + 1)).
Proof.
  intros Hcur Hdup. unfold selectRanges.
  destruct ((length sels =? 1) && from_option isEmpty false (sels !! 0)) eqn:E.
  - destruct sels as [|s [|??]]; simpl in E; try done.
    rewrite claims_cursor in Hdup by done. done.
  - eapply selectEach_duplicate; [done| |exact Hdup]. set_solver.
Qed.

Lemma selectEach_Done d sels claimed ranges out :
  selectEach d sels claimed ranges = Done out →
  Forall ordered ranges → NoDup (scannedLines ranges) →
  (∀ l, l ∈ claimed ↔ l ∈ scannedLines ranges) →
  Forall ordered out ∧ NoDup (scannedLines out) ∧
  scannedLines out = scannedLines ranges ++ claims sels.
Proof.
  revert claimed ranges.
  induction sels as [|s sels IH]; intros claimed ranges H Hord Hnd Hiff.
  { simpl in H. destruct (size claimed <? 2); [done|]. injection H as <-.
    by rewrite app_nil_r. }
  simpl in H. destruct (isEmpty s) eqn:Hempty.
  - destruct (lineAt d (line (sel_start s))) as [t|]; [|done].
    destruct (decide (line (sel_start s) ∈ claimed)) as [|Hfresh]; [done|].
    apply IH in H as (? & ? & Hout).
    + split; [done|]. split; [done|].
      rewrite Hout, scannedLines_snoc, newRange4_line. cbn [start end_ line].
      rewrite linesFromTo_single, claims_cursor, <- app_assoc; done.
    + apply Forall_app. split; [done|]. constructor; [|done].
      apply newRange_ordered.
    + rewrite scannedLines_snoc, newRange4_line. cbn [start end_ line].
      rewrite linesFromTo_single. apply NoDup_app. split; [done|].
      split; [|apply NoDup_singleton].
      intros l Hl ->%list_elem_of_singleton. by apply Hfresh, Hiff.
    + intros l. rewrite scannedLines_snoc, newRange4_line. cbn [start end_ line].
      rewrite linesFromTo_single, elem_of_app, <- Hiff. set_solver.
  - destruct (claimLines _ claimed) as [|claimed'] eqn:Hclaim; [done|].
    apply claimLines_inr in Hclaim as (Hnd' & Hdisj & Hiff').
    apply IH in H as (? & ? & Hout).
    + split; [done|]. split; [done|].
      rewrite Hout, scannedLines_snoc, newRange_selection, claims_cons. cbn [start end_ line].
      by rewrite <- app_assoc.
    + apply Forall_app. split; [done|]. constructor; [|done].
      apply newRange_ordered.
    + rewrite scannedLines_snoc, newRange_selection. cbn [start end_ line].
      apply NoDup_app. split; [done|]. split; [|done].
      intros l Hl Hl'. apply (Hdisj _ Hl'). by apply Hiff.
    + intros l. rewrite scannedLines_snoc, newRange_selection. cbn [start end_ line].
      rewrite Hiff', elem_of_app, Hiff. done.
Qed.

(** The ranges of a whole document. *)
Lemma selectRanges_document d s :
  isEmpty s = true → 2 ≤ lineCount d →
  ∃ t, lineAt d (lineCount d - 1) = Some t ∧
       selectRanges d [s]
       = Done [mkRange (mkPosition 0 0)
                       (mkPosition (lineCount d - 1) (length t))].
Proof.
  intros Hempty Hcount. unfold selectRanges. simpl. rewrite Hempty. simpl.
  destruct (Nat.ltb_spec (lineCount d) 2); [lia|].
  destruct (lookup_lt_is_Some_2 (lines d) (lineCount d - 1)) as [t Ht].
  { unfold lineCount in *. lia. }
  exists t. unfold lineAt. rewrite Ht. by rewrite newRange4_document.
Qed.

Lemma scannedLines_document n c :
  scannedLines [mkRange (mkPosition 0 0) (mkPosition n c)] = seq 0 (n + 1).
Proof.
  unfold scannedLines, scanned, linesFromTo. simpl.
  rewrite app_nil_r, <- list_fmap_compose, Nat.sub_0_r. apply list_fmap_id.
Qed.

(** The ranges of a successful resolution are ordered and no line is in
    two of them. *)
Lemma selectRanges_Done d sels ranges :
  selectRanges d sels = Done ranges →
  Forall ordered ranges ∧ NoDup (scannedLines ranges).
Proof.
  unfold selectRanges.
  destruct ((length sels =? 1) && from_option isEmpty false (sels !! 0)) eqn:E.
  - destruct (lineCount d <? 2); [done|].
    destruct (lineAt d (lineCount d - 1)) as [t|]; [|done].
    intros [= <-]. split.
    + constructor; [|done]. apply newRange_ordered.
    + rewrite newRange4_document, scannedLines_document. apply NoDup_seq.
  - intros H. apply selectEach_Done in H as (? & ? & _); [done|done|..].
    + constructor.
    + set_solver.
Qed.

(** ** The lines of the matches *)

Lemma locate_line m d rl p : locate m d rl = Some p → line p = rl.2.
Proof.
  unfold locate. destruct (lineAt d rl.2) as [t|]; simpl; [|done].
  destruct (leftmost m _); simpl; [|done]. by intros [= <-].
Qed.

Lemma hits_lines m d ranges :
  line <$> hits m d ranges `sublist_of` scannedLines ranges.
Proof.
  unfold hits, scannedLines. induction (scanned ranges) as [|rl items IH]; simpl.
  { done. }
  destruct (locate m d rl) as [p|] eqn:Hp; simpl.
  - rewrite (locate_line _ _ _ _ Hp). by apply sublist_skip.
  - by apply sublist_cons.
Qed.

(** ** The selected part of a line *)

Lemma substring1_drop t a : substring1 t a = drop a t.
Proof.
  unfold substring1. destruct (Nat.le_gt_cases (length t) a).
  - rewrite Nat.min_r by done. by rewrite !drop_ge.
  - by rewrite Nat.min_l by lia.
Qed.

Lemma substring2_slice t a b :
  a ≤ b → substring2 t a b = take (b - a) (drop a t).
Proof.
  intros Hab. unfold substring2. cbv zeta.
  rewrite (Nat.min_l (a `min` length t) (b `min` length t)) by lia.
  rewrite (Nat.max_r (a `min` length t) (b `min` length t)) by lia.
  destruct (Nat.le_gt_cases (length t) a).
  - rewrite (drop_ge t a) by done. rewrite drop_ge by lia. by rewrite !take_nil.
  - rewrite (Nat.min_l a) by lia.
    destruct (Nat.le_gt_cases b (length t)).
    + by rewrite Nat.min_l by done.
    + rewrite Nat.min_r by lia.
      rewrite !take_ge; [done|rewrite length_drop; lia..].
Qed.

Lemma substring2_all t : substring2 t 0 (length t) = t.
Proof.
  rewrite substring2_slice by lia. rewrite drop_0, Nat.sub_0_r.
  by apply take_ge.
Qed.

(** The selected part is the slice the LineRange of the line describes. *)
Lemma selectedPart_lineRange r l t :
  ordered r →
  selectedPart r l t
  = (permitted (lineRangeOf r l) t, startColumn (lineRangeOf r l)).
Proof.
  intros Hord. apply isBefore_false in Hord.
  unfold selectedPart, lineRangeOf, permitted.
  destruct (Nat.eqb_spec (line (start r)) (line (end_ r))) as [Heq|Hne].
  { rewrite decide_True by done. simpl. rewrite substring2_slice by lia. done. }
  rewrite decide_False by done.
  destruct (Nat.eqb_spec l (line (start r))) as [Heq|Hne1].
  { rewrite decide_True by done. simpl. by rewrite substring1_drop. }
  rewrite decide_False by done.
  destruct (Nat.eqb_spec l (line (end_ r))) as [Heq|Hne2].
  { rewrite decide_True by done. simpl. rewrite substring2_slice by lia. done. }
  rewrite decide_False by done. done.
Qed.

Lemma locate_matchPosition m d rl :
  ordered rl.1 → locate m d rl = matchPosition m d rl.
Proof.
  intros Hord. unfold locate, matchPosition.
  destruct (lineAt d rl.2) as [t|]; simpl; [|done].
  rewrite selectedPart_lineRange by done. simpl.
  destruct (leftmost m _); simpl; [|done].
  unfold lineRangeOf. by repeat case_decide.
Qed.

Lemma elem_of_scanned rl ranges :
  rl ∈ scanned ranges ↔
  rl.1 ∈ ranges ∧ line (start rl.1) ≤ rl.2 ≤ line (end_ rl.1).
Proof.
  unfold scanned. rewrite list_elem_of_bind. split.
  - intros (r & (l & -> & Hl)%list_elem_of_fmap & Hr). simpl.
    by apply elem_of_linesFromTo in Hl.
  - intros [Hr Hl]. exists rl.1. split; [|done].
    apply list_elem_of_fmap. exists rl.2. split; [by destruct rl|].
    by apply elem_of_linesFromTo.
Qed.

Lemma hits_fullLines m d ranges :
  fullLines d ranges →
  hits m d ranges = fullLineHits m (lines d) (scannedLines ranges).
Proof.
  unfold fullLines, hits, fullLineHits, scannedLines.
  induction (scanned ranges) as [|rl items IH]; intros Hfull; simpl; [done|].
  assert (omap (locate m d) items
          = omap (λ l, t ← lines d !! l; mkPosition l <$> leftmost m t) items.*2)
    as IH' by (apply IH; intros ????; apply Hfull; [by right|done]).
  unfold locate at 1. unfold lineAt in *.
  destruct (lines d !! rl.2) as [t|] eqn:Ht; simpl; [|exact IH'].
  rewrite (Hfull rl t); [|by left|done]. simpl.
  destruct (leftmost m t); simpl; [|exact IH'].
  rewrite Nat.add_0_r. f_equal. exact IH'.
Qed.

(** The range of a whole document gives every line as a whole. *)
Lemma fullLines_document d t :
  2 ≤ lineCount d → lineAt d (lineCount d - 1) = Some t →
  fullLines d [mkRange (mkPosition 0 0)
                       (mkPosition (lineCount d - 1) (length t))].
Proof.
  intros Hcount Hlast [r l] t' Hin Ht'.
  apply elem_of_scanned in Hin as [->%list_elem_of_singleton Hl].
  simpl in *. unfold selectedPart. cbn [start end_ line character].
  destruct (Nat.eqb_spec 0 (lineCount d - 1)); [lia|].
  destruct (Nat.eqb_spec l 0) as [->|].
  { by rewrite substring1_drop, drop_0. }
  destruct (Nat.eqb_spec l (lineCount d - 1)) as [->|]; [|done].
  rewrite Hlast in Ht'. injection Ht' as <-. by rewrite substring2_all.
Qed.

(** ** Resolving the pattern *)

Section Commands.

Variable compile : string → Compiled.

Lemma newRegExp_stateless src p :
  newRegExp compile src = inr p → stateless p ∧ source p = src.
Proof.
  unfold newRegExp. destruct (compile src); [done|]. by intros [= <-].
Qed.

Lemma createRegExp_resolved json w p :
  (createRegExp compile json w).1 = Some p →
  createRegExp compile json w = (Some p, w) ∧ stateless p.
Proof.
  unfold createRegExp. destruct json as [s| |j|]; simpl.
  - destruct (newRegExp compile s) as [e|r] eqn:E; simpl; [done|].
    intros [= <-]. split; [done|]. by apply newRegExp_stateless in E as [? _].
  - destruct (inputBox w) as [s|]; simpl; [|done].
    destruct (newRegExp compile s) as [e|r] eqn:E; simpl; [done|].
    intros [= <-]. split; [done|]. by apply newRegExp_stateless in E as [? _].
  - done.
  - done.
Qed.

(** The pattern is resolved from the argument and the answer of the
    prompt alone. *)
Lemma createRegExp_window json w w' :
  inputBox w' = inputBox w →
  (createRegExp compile json w').1 = (createRegExp compile json w).1.
Proof.
  intros Hbox. unfold createRegExp. destruct json as [s| |j|]; simpl.
  - by destruct (newRegExp compile s).
  - rewrite Hbox. destruct (inputBox w) as [s|]; [|done].
    by destruct (newRegExp compile s).
  - done.
  - done.
Qed.

(** The command, once the pattern, the editor and the ranges are there. *)
Lemma alignCustomPattern_ranges json w p editor ranges :
  (createRegExp compile json w).1 = Some p →
  activeTextEditor w = Some editor →
  selectRanges (document editor) (selections editor) = Done ranges →
  inDocument (document editor) ranges →
  let found := hits (matcher p) (document editor) ranges in
  alignCustomPattern compile json w
  = (if length found =? 0 then showErrorMessage (NoMatchesFound (source p)) w
     else if length found =? 1
          then showErrorMessage (SingleMatchFound (source p)) w
          else editDocument (planEdits found (rightmostOf found)) w) ∧
  plannedEdits compile json w
  = (if length found <? 2 then None
     else Some (planEdits found (rightmostOf found))).
Proof.
  intros Hp Hed Hsel Hin. apply createRegExp_resolved in Hp as [Hp Hst].
  unfold alignCustomPattern, plannedEdits. rewrite Hp, Hed. simpl.
  rewrite Hsel, findPositions_stateless by done. simpl. done.
Qed.

Lemma alignCustomPattern_fail json w p editor m :
  (createRegExp compile json w).1 = Some p →
  activeTextEditor w = Some editor →
  selectRanges (document editor) (selections editor) = Fail m →
  alignCustomPattern compile json w = showErrorMessage m w ∧
  plannedEdits compile json w = None.
Proof.
  intros Hp Hed Hsel. apply createRegExp_resolved in Hp as [Hp Hst].
  unfold alignCustomPattern, plannedEdits. rewrite Hp, Hed. simpl.
  by rewrite Hsel.
Qed.

End Commands.

(** * The properties of the specification *)

(** ** Cancelling the prompt *)

(** C8. When the command is run without a pattern and the prompt is
    dismissed, [createRegExp] gives [null] without showing a message and
    the command ends there: the window is as it was, with no message added
    and no edit made, and no plan was reached. *)
Theorem cancelled_prompt_is_silent compile editor messages :
  let w := mkWindow editor None messages in
  createRegExp compile JUndefined w = (None, w) ∧
  alignCustomPattern compile JUndefined w = w ∧
  shown (alignCustomPattern compile JUndefined w) = messages ∧
  plannedEdits compile JUndefined w = None.
Proof. done. Qed.

(** ** No state between the lines *)

(** C10. The pattern object that [createRegExp] makes has neither the
    global nor the sticky flag.  So [exec] gives the leftmost match of its
    subject and leaves the object as it was, whatever subjects were
    searched before, and the scan records for every visited line the
    column of the leftmost match in the selected part of that line, found
    by a function of that line alone. *)
Theorem scan_carries_no_state compile json w p :
  (createRegExp compile json w).1 = Some p →
  global p = false ∧ sticky p = false ∧
  (∀ earlier s,
     exec (foldl (λ r t, (exec r t).2) p earlier) s
     = (leftmost (matcher p) s, p)) ∧
  ∀ d ranges, inDocument d ranges →
    ∃ sc, findPositions p d ranges = Some sc ∧
          positions sc = omap (locate (matcher p) d) (scanned ranges).
Proof.
  intros Hp. apply createRegExp_resolved in Hp as [_ Hst].
  split; [apply Hst|]. split; [apply Hst|]. split.
  - intros earlier s.
    assert (foldl (λ r t, (exec r t).2) p earlier = p) as ->.
    { induction earlier as [|t earlier IH]; simpl; [done|].
      by rewrite exec_stateless. }
    by apply exec_stateless.
  - intros d ranges Hin. eexists. split; [by apply findPositions_stateless|done].
Qed.

Lemma scan_carries_no_state_witness :
  let p := mkRegExp "=" (Fragment.matchAt (Fragment.Seq Fragment.Eps (Fragment.Chr "="))) false false 0 in
  exec (foldl (λ r t, (exec r t).2) p [txt "a=b=c"; txt "none"]) (txt "a=b=c")
  = (Some 1, p).
Proof.
  intros p.
  destruct (scan_carries_no_state Fragment_engine.compile (JString "=")
              (exampleWindow "c" [] []) p eq_refl) as (_ & _ & Hexec & _).
  exact (Hexec [txt "a=b=c"; txt "none"] (txt "a=b=c")).
Defined.

(** For contrast: under the global flag [exec] resumes at [lastIndex], and
    a second search misses a match that lies before the end of the first. *)
Example global_flag_would_carry_state :
  let g := mkRegExp "=" (Fragment.matchAt (Fragment.Chr "=")) true false 0 in
  (exec g (txt "a=b")).1 = Some 1 ∧
  lastIndex (exec g (txt "a=b")).2 = 2 ∧
  (exec (exec g (txt "a=b")).2 (txt "=ab")).1 = None ∧
  leftmost (matcher g) (txt "=ab") = Some 0.
Proof. done. Qed.

(** ** The permitted substring *)

(** C4. For every visited line of an ordered range the matcher is given
    the slice that the LineRange of the line permits: the exact slice when
    the range is on one line, the suffix from the start column on its first
    line, the prefix up to the end column on its last line, the full line
    otherwise.  The positions recorded are, in the order of the visit, those
    of the lines with a match, at the offset of the leftmost match in the
    slice plus the start column of the LineRange; the lines without a match
    are left out and the scan goes on. *)
Theorem scan_matches_permitted_slice p d ranges :
  stateless p → Forall ordered ranges → inDocument d ranges →
  (∀ r l t, r ∈ ranges →
     selectedPart r l t
     = (permitted (lineRangeOf r l) t, startColumn (lineRangeOf r l))) ∧
  ∃ sc, findPositions p d ranges = Some sc ∧
        positions sc = omap (matchPosition (matcher p) d) (scanned ranges).
Proof.
  intros Hst Hord Hin. split.
  - intros r l t Hr. apply selectedPart_lineRange.
    by eapply Forall_forall in Hord.
  - eexists. split; [by apply findPositions_stateless|]. simpl.
    unfold hits. apply list_omap_ext, Forall2_same_length_lookup_2; [done|].
    intros i rl rl' H1 H2. assert (rl' = rl) as -> by congruence.
    apply locate_matchPosition.
    apply list_elem_of_lookup_2, elem_of_scanned in H1 as [Hr _].
    by eapply Forall_forall in Hord.
Qed.

Lemma scan_matches_permitted_slice_witness :
  let p := mkRegExp "=" (Fragment.matchAt (Fragment.Chr "=")) false false 0 in
  let d := mkDocument "c" [txt "a=1"; txt "bb=2"; txt "ccc=3"] in
  let r := mkRange (mkPosition 0 1) (mkPosition 2 3) in
  selectedPart r 0 (txt "a=1") = (txt "=1", 1) ∧
  selectedPart r 2 (txt "ccc=3") = (txt "ccc", 0) ∧
  ∃ sc, findPositions p d [r] = Some sc ∧
        positions sc = [mkPosition 0 1; mkPosition 1 2].
Proof.
  intros p d r.
  assert (stateless p) as Hst by done.
  assert (Forall ordered [r]) as Hord by (by repeat constructor).
  assert (inDocument d [r]) as Hin by (repeat constructor).
  destruct (scan_matches_permitted_slice p d [r] Hst Hord Hin)
    as (Hpart & sc & Hsc & Hpos).
  split; [by rewrite Hpart by left|]. split; [by rewrite Hpart by left|].
  exists sc. split; [done|]. by rewrite Hpos.
Defined.

(** ** Too few matches *)

(** C5. When the pattern matches on no visited line the command shows the
    message of no match and stops, and when it matches on exactly one
    visited line it shows the message of a single match and stops; in both
    cases no plan is reached and the lines of the document stay as they
    were. *)
Theorem too_few_matches_fail compile json w p editor ranges :
  (createRegExp compile json w).1 = Some p →
  activeTextEditor w = Some editor →
  selectRanges (document editor) (selections editor) = Done ranges →
  inDocument (document editor) ranges →
  let found := hits (matcher p) (document editor) ranges in
  (length found = 0 →
     alignCustomPattern compile json w
     = showErrorMessage (NoMatchesFound (source p)) w) ∧
  (length found = 1 →
     alignCustomPattern compile json w
     = showErrorMessage (SingleMatchFound (source p)) w) ∧
  (length found < 2 →
     plannedEdits compile json w = None ∧
     windowLines (alignCustomPattern compile json w) = windowLines w).
Proof.
  intros Hp Hed Hsel Hin found.
  destruct (alignCustomPattern_ranges compile json w p editor ranges)
    as [Hrun Hplan]; [done..|].
  fold found in Hrun, Hplan. split; [|split].
  - intros H0. by rewrite Hrun, H0.
  - intros H1. by rewrite Hrun, H1.
  - intros Hlt. rewrite Hplan, Hrun.
    destruct (Nat.ltb_spec (length found) 2); [|lia]. split; [done|].
    destruct (length found) as [|[|n]]; simpl; [done|done|lia].
Qed.

Lemma too_few_matches_fail_witness :
  let none := exampleWindow "plaintext" ["a"; "b"; "c"] [cursor 0 0] in
  let one := exampleWindow "c" ["x"; "foo(1)"; "y"] [span 0 0 2 1] in
  alignCustomPattern Fragment_engine.compile (JString " = ") none
  = showErrorMessage (NoMatchesFound " = ") none ∧
  alignCustomPattern Fragment_engine.compile (JString "foo\(") one
  = showErrorMessage (SingleMatchFound "foo\(") one.
Proof.
  intros none one. split.
  - edestruct (too_few_matches_fail Fragment_engine.compile (JString " = ") none)
      as (Hnone & _ & _);
      [reflexivity|reflexivity|reflexivity|repeat constructor|].
    apply Hnone. reflexivity.
  - edestruct (too_few_matches_fail Fragment_engine.compile (JString "foo\(") one)
      as (_ & Hone & _);
      [reflexivity|reflexivity|reflexivity|repeat constructor|].
    apply Hone. reflexivity.
Defined.

(** ** The whole document *)

(** C6. With a single bare cursor as the only selection: a document of
    fewer than two lines makes the command show the message of too few
    lines and stop without an edit; a document of two lines or more becomes
    one range from its start to the end of its last line, the lines
    visited are exactly 0 to the last one, each once and in order, and each
    is given to the matcher as a whole. *)
Theorem bare_cursor_scans_whole_document compile json w p editor s :
  (createRegExp compile json w).1 = Some p →
  activeTextEditor w = Some editor →
  selections editor = [s] → isEmpty s = true →
  let d := document editor in
  (lineCount d < 2 →
     selectRanges d [s] = Fail InsufficientLines ∧
     alignCustomPattern compile json w = showErrorMessage InsufficientLines w ∧
     plannedEdits compile json w = None ∧
     windowLines (alignCustomPattern compile json w) = windowLines w) ∧
  (2 ≤ lineCount d →
     ∃ lastChar sc,
       (length <$> lineAt d (lineCount d - 1)) = Some lastChar ∧
       selectRanges d [s]
       = Done [mkRange (mkPosition 0 0)
                       (mkPosition (lineCount d - 1) lastChar)] ∧
       scannedLines [mkRange (mkPosition 0 0)
                             (mkPosition (lineCount d - 1) lastChar)]
       = seq 0 (lineCount d) ∧
       findPositions p d [mkRange (mkPosition 0 0)
                                  (mkPosition (lineCount d - 1) lastChar)]
       = Some sc ∧
       positions sc = fullLineHits (matcher p) (lines d) (seq 0 (lineCount d))).
Proof.
  intros Hp Hed Hsels Hempty d. split.
  - intros Hlt.
    assert (selectRanges d [s] = Fail InsufficientLines) as Hsel.
    { unfold selectRanges. simpl. rewrite Hempty. simpl.
      by destruct (Nat.ltb_spec (lineCount d) 2); [|lia]. }
    split; [done|].
    destruct (alignCustomPattern_fail compile json w p editor InsufficientLines)
      as [Hrun Hplan]; [done|done|by rewrite Hsels|].
    by rewrite Hrun, Hplan.
  - intros Hge.
    destruct (selectRanges_document d s Hempty Hge) as (t & Ht & Hsel).
    assert (scannedLines [mkRange (mkPosition 0 0)
                            (mkPosition (lineCount d - 1) (length t))]
            = seq 0 (lineCount d)) as Hlines.
    { rewrite scannedLines_document. f_equal. lia. }
    apply createRegExp_resolved in Hp as [_ Hst].
    exists (length t). eexists. rewrite Ht.
    split; [done|]. split; [done|]. split; [done|].
    split.
    + apply findPositions_stateless; [done|].
      unfold inDocument. rewrite Hlines. apply Forall_forall.
      intros l Hl. apply elem_of_seq in Hl. lia.
    + simpl. rewrite hits_fullLines by by apply fullLines_document.
      by rewrite Hlines.
Qed.

Lemma bare_cursor_scans_whole_document_witness :
  let short := exampleWindow "c" ["x = 1"] [cursor 0 0] in
  selectRanges (mkDocument "c" [txt "x = 1"; txt "yy = 2"]) [cursor 1 3]
  = Done [mkRange (mkPosition 0 0) (mkPosition 1 6)] ∧
  alignCustomPattern Fragment_engine.compile (JString " = ") short
  = showErrorMessage InsufficientLines short.
Proof.
  intros short.
  set (w := exampleWindow "c" ["x = 1"; "yy = 2"] [cursor 1 3]). split.
  - edestruct (bare_cursor_scans_whole_document Fragment_engine.compile
                 (JString " = ") w) as [_ Hmany];
      [reflexivity|reflexivity|reflexivity|reflexivity|].
    destruct Hmany as (lastChar & sc & Hlast & Hsel & _).
    { simpl. unfold lineCount. simpl. lia. }
    injection Hlast as <-. exact Hsel.
  - edestruct (bare_cursor_scans_whole_document Fragment_engine.compile
                 (JString " = ") short) as [Hfew _];
      [reflexivity|reflexivity|reflexivity|reflexivity|].
    apply Hfew. simpl. unfold lineCount. simpl. lia.
Defined.

(** ** Two selections on one line *)

(** C7. When the selections claim a line twice, be it by two cursors, by
    a cursor and a span or by two spans, the resolution stops at the first
    claim of a line that was claimed before and the command shows the
    message of one selection per line with that line's number counted from
    one (the line index plus one); no plan is reached and the lines of the
    document stay as they were. *)
Theorem duplicate_line_is_reported compile json w p editor :
  (createRegExp compile json w).1 = Some p →
  activeTextEditor w = Some editor →
  cursorsInDocument (document editor) (selections editor) →
  ¬ NoDup (claims (selections editor)) →
  ∃ l before after,
    claims (selections editor) = before ++ l :: after ∧
    l ∈ before ∧ NoDup before ∧
    selectRanges (document editor) (selections editor)
    = Fail (DuplicateLineSelection (l + 1)) ∧
    alignCustomPattern compile json w
    = showErrorMessage (DuplicateLineSelection (l + 1)) w ∧
    plannedEdits compile json w = None ∧
    windowLines (alignCustomPattern compile json w) = windowLines w.
Proof.
  intros Hp Hed Hcur Hdup.
  destruct (firstDuplicate [] (claims (selections editor))) as [l|] eqn:Hfirst.
  2: { by apply firstDuplicate_None in Hfirst. }
  pose proof (selectRanges_duplicate _ _ _ Hcur Hfirst) as Hsel.
  apply firstDuplicate_Some in Hfirst
    as (before & after & Hclaims & Hin & Hnd & _).
  rewrite app_nil_r in Hin.
  destruct (alignCustomPattern_fail compile json w p editor _ Hp Hed Hsel)
    as [Hrun Hplan].
  exists l, before, after. rewrite Hrun, Hplan. done.
Qed.

Lemma duplicate_line_is_reported_witness :
  let w := exampleWindow "c" ["a"; "b"; "c"; "d"; "e"; "f"; "g"]
             [cursor 5 0; cursor 5 1] in
  alignCustomPattern Fragment_engine.compile (JString " = ") w
  = showErrorMessage (DuplicateLineSelection 6) w.
Proof.
  intros w.
  edestruct (duplicate_line_is_reported Fragment_engine.compile
               (JString " = ") w)
    as (l & before & after & Hclaims & Hin & _ & _ & Hrun & _);
    [reflexivity|reflexivity| | |].
  - repeat constructor.
  - intros Hnd. apply NoDup_cons in Hnd as [Hnd _]. apply Hnd. by left.
  - destruct before as [|b0 [|b1 before]]; simpl in Hclaims.
    + by apply elem_of_nil in Hin.
    + injection Hclaims as <- <- _. exact Hrun.
    + injection Hclaims as _ _ Habs. by destruct before.
Defined.

(** ** One match per line *)

Lemma NoDup_fmap_eq {A B} (f : A → B) (l : list A) x y :
  NoDup (f <$> l) → x ∈ l → y ∈ l → f x = f y → x = y.
Proof.
  induction l as [|a l IH]; intros Hnd Hx Hy Heq.
  { by apply elem_of_nil in Hx. }
  rewrite fmap_cons in Hnd. apply NoDup_cons in Hnd as [Hfresh Hnd].
  apply elem_of_cons in Hx as [->|Hx]; apply elem_of_cons in Hy as [->|Hy].
  - done.
  - exfalso. apply Hfresh. rewrite Heq. by apply list_elem_of_fmap_2.
  - exfalso. apply Hfresh. rewrite <- Heq. by apply list_elem_of_fmap_2.
  - by apply IH.
Qed.

Lemma hits_NoDup m d sels ranges :
  selectRanges d sels = Done ranges → NoDup (line <$> hits m d ranges).
Proof.
  intros [_ Hnd]%selectRanges_Done.
  eapply sublist_NoDup; [done|apply hits_lines].
Qed.

Lemma planEdits_NoDup ps M :
  NoDup (line <$> ps) → NoDup ((line ∘ target) <$> planEdits ps M).
Proof. intros Hnd. eapply sublist_NoDup; [done|apply planEdits_lines]. Qed.

Lemma hits_inDocument m d ranges pos :
  inDocument d ranges → pos ∈ hits m d ranges → line pos < lineCount d.
Proof.
  intros Hin Hpos. unfold inDocument in Hin.
  eapply Forall_forall in Hin; [exact Hin|].
  eapply sublist_subseteq; [apply (hits_lines m d)|].
  by apply list_elem_of_fmap_2.
Qed.

(** ** The plan of the insertions *)

(** C3. With [M] the rightmost column recorded: [M] is the column of some
    recorded position and no recorded column is beyond it.  A position
    recorded at a column [C] below [M] gets one insertion, of [M - C]
    spaces, which is at least one, at that very position, so that its line
    becomes the text before column [C], the spaces, and the text from
    column [C] on.  A position recorded at column [M] gets no insertion and
    its line stays as it is. *)
Theorem plan_pads_to_rightmost p d sels ranges sc :
  stateless p →
  selectRanges d sels = Done ranges →
  findPositions p d ranges = Some sc →
  let M := rightmostChar sc in
  let plan := planEdits (positions sc) M in
  (positions sc ≠ [] →
     ∃ pos, pos ∈ positions sc ∧ Z.of_nat (character pos) = M) ∧
  ∀ pos, pos ∈ positions sc →
    (Z.of_nat (character pos) ≤ M)%Z ∧
    (Z.of_nat (character pos) = M →
       (∀ e, e ∈ plan → line (target e) ≠ line pos) ∧
       applyEdits plan (lines d) !! line pos = lines d !! line pos) ∧
    ((Z.of_nat (character pos) < M)%Z →
       ∃ n t,
         Z.of_nat n = (M - Z.of_nat (character pos))%Z ∧ 1 ≤ n ∧
         mkInsertion pos n ∈ plan ∧
         (∀ e, e ∈ plan → line (target e) = line pos → e = mkInsertion pos n) ∧
         lines d !! line pos = Some t ∧
         applyEdits plan (lines d) !! line pos
         = Some (take (character pos) t ++ spaces n ++ drop (character pos) t)).
Proof.
  intros Hst Hsel Hfind.
  pose proof (findPositions_inDocument _ _ _ _ Hfind) as Hin.
  apply findPositions_Some in Hfind as ->; [|done]. simpl.
  set (ps := hits (matcher p) d ranges).
  assert (NoDup (line <$> ps)) as Hnd by by eapply hits_NoDup.
  pose proof (planEdits_NoDup ps (rightmostOf ps) Hnd) as Hnd'.
  split; [apply rightmostOf_attained|].
  intros pos Hpos. split; [by apply rightmostOf_ge|].
  assert (∀ e, e ∈ planEdits ps (rightmostOf ps) →
               line (target e) = line pos → target e = pos) as Hsame.
  { intros e (He & _ & _)%elem_of_planEdits Hline.
    by apply (NoDup_fmap_eq line ps). }
  split.
  - intros HM.
    assert (∀ e, e ∈ planEdits ps (rightmostOf ps) →
                 line (target e) ≠ line pos) as Hnone.
    { intros e He Hline. pose proof (Hsame e He Hline) as Heq.
      apply elem_of_planEdits in He as (_ & Hlt & _). rewrite Heq in Hlt. lia. }
    split; [done|]. apply applyEdits_lookup_other.
    intros (e & Hline & He)%list_elem_of_fmap. by apply (Hnone e).
  - intros Hlt.
    destruct (lookup_lt_is_Some_2 (lines d) (line pos)) as [t Ht].
    { by eapply hits_inDocument. }
    exists (Z.to_nat (rightmostOf ps - Z.of_nat (character pos))), t.
    split; [lia|]. split; [lia|].
    assert (mkInsertion pos
              (Z.to_nat (rightmostOf ps - Z.of_nat (character pos)))
            ∈ planEdits ps (rightmostOf ps)) as Hins.
    { apply elem_of_planEdits. simpl. split; [done|]. lia. }
    split; [done|]. split.
    + intros e He Hline. pose proof (Hsame e He Hline) as Heq.
      apply elem_of_planEdits in He as (_ & _ & Hcount).
      destruct e as [q n]. simpl in *. subst q. f_equal. lia.
    + split; [done|].
      rewrite (applyEdits_lookup_target _ _ _ Hnd' Hins). simpl.
      by rewrite Ht.
Qed.

Lemma plan_pads_to_rightmost_witness :
  let p := mkRegExp " = " (Fragment.matchAt
             (Fragment.Seq (Fragment.Seq (Fragment.Seq Fragment.Eps
                (Fragment.Chr " ")) (Fragment.Chr "=")) (Fragment.Chr " ")))
             false false 0 in
  let d := mkDocument "c" [txt "x = 1"; txt "yy = 2"] in
  let sc := mkScan [mkPosition 0 1; mkPosition 1 2] 2 p in
  findPositions p d [mkRange (mkPosition 0 0) (mkPosition 1 6)] = Some sc ∧
  planEdits (positions sc) (rightmostChar sc)
  = [mkInsertion (mkPosition 0 1) 1] ∧
  applyEdits (planEdits (positions sc) (rightmostChar sc)) (lines d) !! 0
  = Some (txt "x  = 1").
Proof.
  intros p d sc.
  assert (findPositions p d [mkRange (mkPosition 0 0) (mkPosition 1 6)]
          = Some sc) as Hfind by reflexivity.
  split; [exact Hfind|]. split; [reflexivity|].
  destruct (plan_pads_to_rightmost p d [cursor 0 0]
              [mkRange (mkPosition 0 0) (mkPosition 1 6)] sc) as [_ Hall];
    [done|reflexivity|exact Hfind|].
  destruct (Hall (mkPosition 0 1)) as (_ & _ & Hlt); [by left|].
  destruct Hlt as (n & t & Hn & _ & _ & _ & Ht & Hline); [reflexivity|].
  cbn in Hn, Ht. injection Ht as <-.
  assert (n = 1) as -> by lia. exact Hline.
Defined.

(** ** Insertions in any order *)

(** C9. After a successful resolution of the selections, no line index
    occurs twice among the recorded positions and each of them is a line
    that the ranges enumerate; so the insertions of the plan are on lines
    that differ from each other, and making them in any order gives the
    same lines. *)
Theorem insertions_commute p d sels ranges sc :
  stateless p →
  selectRanges d sels = Done ranges →
  findPositions p d ranges = Some sc →
  let plan := planEdits (positions sc) (rightmostChar sc) in
  NoDup (line <$> positions sc) ∧
  line <$> positions sc ⊆ scannedLines ranges ∧
  NoDup ((line ∘ target) <$> plan) ∧
  ∀ plan' ls, plan' ≡ₚ plan → applyEdits plan' ls = applyEdits plan ls.
Proof.
  intros Hst Hsel Hfind.
  apply findPositions_Some in Hfind as ->; [|done]. simpl.
  assert (NoDup (line <$> hits (matcher p) d ranges)) as Hnd
    by by eapply hits_NoDup.
  split; [done|]. split; [apply sublist_subseteq, hits_lines|].
  split; [by apply planEdits_NoDup|].
  intros plan' ls Hperm. apply applyEdits_Permutation; [|done].
  by apply planEdits_NoDup.
Qed.

Lemma insertions_commute_witness :
  let p := mkRegExp "=" (Fragment.matchAt (Fragment.Chr "=")) false false 0 in
  let ls := [txt "a=1"; txt "bb=2"; txt "cccc=3"] in
  applyEdits [mkInsertion (mkPosition 1 2) 2; mkInsertion (mkPosition 0 1) 3] ls
  = applyEdits [mkInsertion (mkPosition 0 1) 3; mkInsertion (mkPosition 1 2) 2] ls.
Proof.
  intros p ls.
  destruct (insertions_commute p (mkDocument "c" ls) [cursor 0 0]
              [mkRange (mkPosition 0 0) (mkPosition 2 6)]
              (mkScan [mkPosition 0 1; mkPosition 1 2; mkPosition 2 4] 4 p))
    as (_ & _ & _ & Hperm); [done|reflexivity|reflexivity|].
  apply (Hperm [mkInsertion (mkPosition 1 2) 2; mkInsertion (mkPosition 0 1) 3]).
  apply Permutation_swap.
Defined.

(** ** The fallback pattern of [alignComments] *)

Lemma run_ext r s i k k' :
  (∀ j, k j = k' j) → Fragment.run r s i k = Fragment.run r s i k'.
Proof.
  revert i k k'. induction r as [|c| |neg ms|r1 IH1 r2 IH2|r1 IH1 r2 IH2];
    intros i k k' Hk; simpl.
  - apply Hk.
  - destruct (s !! i) as [c'|]; [|done]. by rewrite Hk.
  - destruct (s !! i) as [c'|]; [|done]. by rewrite Hk.
  - destruct (s !! i) as [c'|]; [|done]. by rewrite Hk.
  - apply IH1. intros j. by apply IH2.
  - by rewrite (IH1 i k k' Hk), (IH2 i k k' Hk).
Qed.

(** A match does not depend on the text before its start. *)
Lemma run_cons r c s i k :
  Fragment.run r (c :: s) (S i) k = Fragment.run r s i (λ j, k (S j)).
Proof.
  revert i k. induction r as [|c0| |neg ms|r1 IH1 r2 IH2|r1 IH1 r2 IH2];
    intros i k; simpl; try done.
  - rewrite IH1. apply run_ext. intros j. apply IH2.
  - by rewrite IH1, IH2.
Qed.

Lemma run_fmap r s i (f : nat → nat) k :
  Fragment.run r s i (λ j, f <$> k j) = f <$> Fragment.run r s i k.
Proof.
  revert i k. induction r as [|c0| |neg ms|r1 IH1 r2 IH2|r1 IH1 r2 IH2];
    intros i k; simpl; try done.
  - destruct (s !! i) as [c'|]; [|done]. by destruct (Ascii.eqb c' c0).
  - destruct (s !! i) as [c'|]; [|done]. by destruct (Fragment.lineTerminator c').
  - destruct (s !! i) as [c'|]; [|done]. by destruct (xorb _ _).
  - rewrite <- IH1. apply run_ext. intros j. apply IH2.
  - rewrite IH1, IH2. by destruct (Fragment.run r1 s i k).
Qed.

Lemma matchAt_cons r c s i :
  Fragment.matchAt r (c :: s) (S i) = S <$> Fragment.matchAt r s i.
Proof. unfold Fragment.matchAt. by rewrite run_cons, <- run_fmap. Qed.

Lemma search_cons r c s i fuel :
  search (Fragment.matchAt r) (c :: s) (S i) fuel
  = prod_map S S <$> search (Fragment.matchAt r) s i fuel.
Proof.
  revert i. induction fuel as [|fuel IH]; intros i; simpl; [done|].
  rewrite matchAt_cons. destruct (Fragment.matchAt r s i); simpl; [done|].
  apply IH.
Qed.

(** The leftmost match of a line is at its first column or it is the
    leftmost match of the rest of the line. *)
Lemma leftmost_cons r c s :
  leftmost (Fragment.matchAt r) (c :: s)
  = match Fragment.matchAt r (c :: s) 0 with
    | Some _ => Some 0
    | None => S <$> leftmost (Fragment.matchAt r) s
    end.
Proof.
  unfold leftmost. simpl.
  destruct (Fragment.matchAt r (c :: s) 0); simpl; [done|].
  rewrite search_cons. by destruct (search _ s 0 _) as [[??]|].
Qed.

Lemma fallback_parse :
  Fragment.parse "/[/*]"
  = Some (Fragment.Seq (Fragment.Seq Fragment.Eps (Fragment.Chr "/"))
                       (Fragment.Cls false ["/"; "*"]%char)).
Proof. reflexivity. Qed.

Lemma fallback_leftmost s :
  leftmost (Fragment.matchAt
              (Fragment.Seq (Fragment.Seq Fragment.Eps (Fragment.Chr "/"))
                            (Fragment.Cls false ["/"; "*"]%char))) s
  = firstCommentStart s.
Proof.
  induction s as [|c s IH]; [done|].
  rewrite leftmost_cons, IH.
  unfold Fragment.matchAt. simpl.
  destruct (Ascii.eqb c "/"); simpl; [|done].
  destruct s as [|c' s]; simpl; [done|].
  rewrite orb_false_r. by destruct (Ascii.eqb c' "/" || Ascii.eqb c' "*").
Qed.

(** Every pattern of the table is in the fragment. *)
Lemma COMMENT_PATTERNS_parse lang src :
  COMMENT_PATTERNS !! lang = Some src → is_Some (Fragment.parse src).
Proof.
  revert lang src. change (map_Forall (λ _ src, is_Some (Fragment.parse src))
                             COMMENT_PATTERNS).
  unfold COMMENT_PATTERNS. apply map_Forall_to_list.
  rewrite map_to_list_to_map. 
  - repeat (constructor; [by eexists|]). constructor.
  - simpl. repeat (constructor; [set_solver|]). constructor.
Qed.

(** C1, as the script has it.  For every language identifier that is not
    in the table, the lookup of [alignComments] gives the fallback pattern
    [/[/*]], and the command goes on with it as with a custom pattern.  The
    pattern compiles, and its match on a line is at the first column where
    a slash is followed by a slash or by a star, that is, at the start of
    the first line comment or block comment; a slash or a star on its own
    is not a match.  The lookup gives a pattern that compiles for every
    identifier, in the table or not. *)
Theorem fallback_pattern_for_unmapped_language lang :
  COMMENT_PATTERNS !! lang = None →
  commentPattern lang = "/[/*]" ∧
  (∃ m, Fragment_engine.compile (commentPattern lang) = Pattern m ∧
        ∀ s, leftmost m s = firstCommentStart s) ∧
  (∀ compile w editor,
     activeTextEditor w = Some editor →
     languageId (document editor) = lang →
     alignComments compile w = alignCustomPattern compile (JString "/[/*]") w) ∧
  ∀ other, ∃ m, Fragment_engine.compile (commentPattern other) = Pattern m.
Proof.
  intros Hnone. unfold commentPattern at 1 2. rewrite Hnone. simpl.
  split; [done|]. split; [|split].
  - unfold Fragment_engine.compile. rewrite fallback_parse.
    eexists. split; [done|]. apply fallback_leftmost.
  - intros compile w editor Hed Hlang. unfold alignComments, commentPattern.
    by rewrite Hed, Hlang, Hnone.
  - intros other. unfold commentPattern, Fragment_engine.compile.
    destruct (COMMENT_PATTERNS !! other) as [src|] eqn:Hsrc; cbn [from_option id].
    + destruct (COMMENT_PATTERNS_parse _ _ Hsrc) as [r ->]. by eexists.
    + rewrite fallback_parse. by eexists.
Qed.

Lemma fallback_pattern_for_unmapped_language_witness :
  commentPattern "javascript" = "/[/*]" ∧
  ∃ m, Fragment_engine.compile (commentPattern "javascript") = Pattern m ∧
       leftmost m (txt "x = a / b; // half") = Some 11.
Proof.
  destruct (fallback_pattern_for_unmapped_language "javascript")
    as (Hpat & (m & Hm & Hleft) & _); [by vm_compute|].
  split; [exact Hpat|]. exists m. split; [exact Hm|]. by rewrite Hleft.
Defined.

(** C1, as the specification has it, fails: for the unmapped language
    [javascript] and the line [a * b / c], whose first slash or star is at
    column 2, the fallback pattern has no match at all. *)
Lemma fallback_pattern_misses_bare_slash_or_star :
  COMMENT_PATTERNS !! "javascript" = None ∧
  firstSlashOrStar (txt "a * b / c") = Some 2 ∧
  ∃ m, Fragment_engine.compile (commentPattern "javascript") = Pattern m ∧
       leftmost m (txt "a * b / c") = None.
Proof.
  split; [by vm_compute|]. split; [done|]. eexists. split; [reflexivity|done].
Qed.

(** ** Running the alignment twice *)

Lemma scanned_wholeLine d (ls : list nat) :
  scanned (wholeLine d <$> ls) = (λ l, (wholeLine d l, l)) <$> ls.
Proof.
  unfold scanned. induction ls as [|l ls IH]; [done|].
  rewrite !fmap_cons, bind_cons, IH. unfold wholeLine at 1 2.
  cbn [start end_ line]. by rewrite linesFromTo_single.
Qed.

Lemma fullLines_wholeLine d (ls : list nat) : fullLines d (wholeLine d <$> ls).
Proof.
  intros [r l] t Hin Ht. rewrite scanned_wholeLine in Hin.
  apply list_elem_of_fmap in Hin as (l' & [= -> ->] & _).
  cbn [fst snd] in *.
  unfold selectedPart, wholeLine. cbn [start end_ line character].
  rewrite Nat.eqb_refl, Ht. cbn [from_option id]. by rewrite substring2_all.
Qed.

Lemma newRange4_wholeLine d l t :
  lineAt d l = Some t → newRange4 l 0 l (length t) = wholeLine d l.
Proof.
  unfold wholeLine. intros ->. simpl. apply newRange4_line.
Qed.

(** With cursors alone the resolution looks at the number of lines of the
    document only, and each range is a whole line. *)
Lemma selectEach_cursors d sels claimed ranges out :
  Forall (λ s, isEmpty s = true) sels →
  selectEach d sels claimed ranges = Done out →
  out = ranges ++ (wholeLine d <$> (line ∘ sel_start <$> sels)) ∧
  Forall (λ s, line (sel_start s) < lineCount d) sels ∧
  ∀ d' ranges', lineCount d' = lineCount d →
    selectEach d' sels claimed ranges'
    = Done (ranges' ++ (wholeLine d' <$> (line ∘ sel_start <$> sels))).
Proof.
  intros Hempty. revert claimed ranges.
  induction Hempty as [|s sels Hs _ IH]; intros claimed ranges H; simpl in *.
  { destruct (size claimed <? 2); [done|]. injection H as <-.
    rewrite !app_nil_r. split; [done|]. split; [done|].
    intros. by rewrite app_nil_r. }
  rewrite Hs in *.
  destruct (lineAt d (line (sel_start s))) as [t|] eqn:Ht; [|done].
  destruct (decide (line (sel_start s) ∈ claimed)); [done|].
  apply IH in H as (-> & Hlines & Hsame).
  rewrite (newRange4_wholeLine _ _ _ Ht), <- app_assoc. split; [done|].
  pose proof Ht as Hlt. apply lookup_lt_Some in Hlt.
  split; [by constructor|].
  intros d' ranges' Hcount.
  destruct (lookup_lt_is_Some_2 (lines d') (line (sel_start s))) as [t' Ht'].
  { unfold lineCount in *. lia. }
  unfold lineAt at 1. rewrite Ht'.
  rewrite (Hsame d' _ Hcount), (newRange4_wholeLine _ _ _ Ht'), <- app_assoc.
  done.
Qed.

Lemma selectRanges_cursors d sels ranges :
  Forall (λ s, isEmpty s = true) sels →
  selectRanges d sels = Done ranges →
  inDocument d ranges ∧ fullLines d ranges ∧
  ∀ d', lineCount d' = lineCount d →
    ∃ ranges', selectRanges d' sels = Done ranges' ∧
               scannedLines ranges' = scannedLines ranges ∧
               fullLines d' ranges'.
Proof.
  intros Hempty. unfold selectRanges.
  destruct ((length sels =? 1) && from_option isEmpty false (sels !! 0)) eqn:E.
  - destruct sels as [|s [|??]]; simpl in E; try done.
    destruct (Nat.ltb_spec (lineCount d) 2) as [|Hcount]; [done|].
    destruct (lineAt d (lineCount d - 1)) as [t|] eqn:Ht; [|done].
    intros [= <-]. rewrite newRange4_document.
    split; [|split].
    + unfold inDocument. rewrite scannedLines_document. apply Forall_forall.
      intros l Hl%elem_of_seq. lia.
    + by apply fullLines_document.
    + intros d' Hd'.
      destruct (selectRanges_document d' s E) as (t' & Ht' & Hsel); [lia|].
      unfold selectRanges in Hsel. simpl in Hsel. rewrite E in Hsel.
      simpl in Hsel. eexists. split; [exact Hsel|].
      split; [by rewrite !scannedLines_document, Hd'|].
      apply fullLines_document; [lia|done].
  - intros H. apply selectEach_cursors in H as (-> & Hlines & Hsame); [|done].
    simpl. split; [|split].
    + unfold inDocument, scannedLines. rewrite scanned_wholeLine.
      rewrite <- list_fmap_compose, Forall_fmap, Forall_fmap.
      eapply Forall_impl; [exact Hlines|]. done.
    + apply fullLines_wholeLine.
    + intros d' Hd'. eexists. split; [by apply Hsame|]. simpl.
      split; [|apply fullLines_wholeLine].
      unfold scannedLines. rewrite !scanned_wholeLine.
      by rewrite <- !list_fmap_compose.
Qed.

Lemma fullLineHits_lines m ls visit :
  line <$> fullLineHits m ls visit `sublist_of` visit.
Proof.
  unfold fullLineHits. induction visit as [|l visit IH]; simpl; [done|].
  destruct (ls !! l) as [t|]; simpl; [|by apply sublist_cons].
  destruct (leftmost m t); simpl; [by apply sublist_skip|by apply sublist_cons].
Qed.

Lemma elem_of_fullLineHits m ls visit pos :
  pos ∈ fullLineHits m ls visit ↔
  line pos ∈ visit ∧
  ∃ t, ls !! line pos = Some t ∧ leftmost m t = Some (character pos).
Proof.
  unfold fullLineHits. rewrite list_elem_of_omap. split.
  - intros (l & Hl & Hpos). destruct (ls !! l) as [t|] eqn:Ht; simpl in Hpos; [|done].
    destruct (leftmost m t) as [c|] eqn:Hc; simpl in Hpos; [|done].
    injection Hpos as <-. simpl. eauto.
  - intros (Hl & t & Ht & Hc). exists (line pos). split; [done|].
    rewrite Ht. simpl. rewrite Hc. simpl. by destruct pos.
Qed.

Lemma insertInLine_nil c t : insertInLine c [] t = t.
Proof. unfold insertInLine. simpl. apply take_drop. Qed.

Lemma rightmostOf_constant (ps : list Position) (c : nat) :
  ps ≠ [] → Forall (λ p, character p = c) ps → rightmostOf ps = Z.of_nat c.
Proof.
  intros Hne Hall. destruct (rightmostOf_attained ps Hne) as (p & Hp & <-).
  eapply Forall_forall in Hall; [|exact Hp]. by rewrite Hall.
Qed.

(** C2, as the specification has it, fails: with the pattern of a single
    space, on the two lines [a b] and [cc d] and with a bare cursor, the
    first pass shows no message and inserts one space into the first line;
    the second pass finds the match of the first line at column 1 again
    and inserts one more space. *)
Lemma second_pass_pads_again :
  let w := exampleWindow "c" ["a b"; "cc d"] [cursor 0 0] in
  let w1 := alignCustomPattern Fragment_engine.compile (JString " ") w in
  let w2 := alignCustomPattern Fragment_engine.compile (JString " ") w1 in
  plannedEdits Fragment_engine.compile (JString " ") w
  = Some [mkInsertion (mkPosition 0 1) 1] ∧
  shown w1 = [] ∧
  windowLines w1 = txt <$> ["a  b"; "cc d"] ∧
  plannedEdits Fragment_engine.compile (JString " ") w1
  = Some [mkInsertion (mkPosition 0 1) 1] ∧
  windowLines w2 = txt <$> ["a   b"; "cc d"].
Proof. repeat split; reflexivity. Qed.

(** *** Patterns whose match moves with the padding *)

(** A single literal character other than the space, such as the comment
    markers [#], [%] and [;] of the table, is such a pattern. *)
Lemma literal_shiftStable c :
  c ≠ " "%char → shiftStable (Fragment.matchAt (Fragment.Chr c)).
Proof.
  intros Hc s. induction s as [|a s IH]; intros i n; [done|].
  rewrite leftmost_cons.
  assert (∀ x, Fragment.matchAt (Fragment.Chr c) (a :: x) 0
               = if Ascii.eqb a c then Some 1 else None) as Hhead by done.
  rewrite Hhead. destruct (Ascii.eqb a c) eqn:Ha.
  - intros [= <-]. unfold insertInLine. simpl. clear IH.
    induction n as [|n IHn]; simpl.
    + by rewrite leftmost_cons, Hhead.
    + rewrite leftmost_cons. unfold Fragment.matchAt at 1.
      cbn [Fragment.run lookup list_lookup].
      destruct (Ascii.eqb_spec " " c) as [Heq|_]; [by destruct Hc|].
      unfold spaces in IHn. by rewrite IHn.
  - destruct (leftmost (Fragment.matchAt (Fragment.Chr c)) s) as [i'|] eqn:Hs;
      simpl; [|done].
    intros [= <-]. unfold insertInLine. simpl.
    rewrite leftmost_cons, Hhead.
    specialize (IH i' n eq_refl). unfold insertInLine in IH. by rewrite IH.
Qed.

(** ** The scenarios of the specification *)

Example scenario_assignments :
  windowLines (alignAssignmentOperators Fragment_engine.compile
                 (exampleWindow "c" ["x = 1"; "yy = 2"] [cursor 0 0]))
  = txt <$> ["x  = 1"; "yy = 2"].
Proof. done. Qed.

Example scenario_no_match :
  shown (alignAssignmentOperators Fragment_engine.compile
           (exampleWindow "c" ["a"; "b"; "c"] [cursor 0 0]))
  = [NoMatchesFound " = "].
Proof. done. Qed.

Example scenario_comments_of_unmapped_language :
  windowLines (alignComments Fragment_engine.compile
                 (exampleWindow "javascript"
                    ["a = b / c; // ratio"; "d = e; /* none */"] [cursor 0 0]))
  = txt <$> ["a = b / c; // ratio"; "d = e;     /* none */"].
Proof. done. Qed.

Example scenario_comments_of_python :
  windowLines (alignComments Fragment_engine.compile
                 (exampleWindow "python" ["a = 1 # one"; "bb = 22 # two"]
                    [cursor 0 0]))
  = txt <$> ["a = 1   # one"; "bb = 22 # two"].
Proof. done. Qed.


(** * Further properties of the commands *)

(** ** How the host moves the selections *)

(** An insertion moves a position along its line, and keeps the order of
    positions. *)
Lemma moveBy_line e p : line (moveBy e p) = line p.
Proof. unfold moveBy. by destruct (_ && _). Qed.

Lemma movePosition_line es p : line (movePosition es p) = line p.
Proof.
  unfold movePosition. revert p. induction es as [|e es IH]; intros p; [done|].
  cbn [foldl]. by rewrite IH, moveBy_line.
Qed.

Lemma isBefore_moveBy e p q :
  isBefore (moveBy e p) (moveBy e q) = isBefore p q.
Proof.
  unfold moveBy, isBefore. destruct p as [lp cp], q as [lq cq]. simpl.
  destruct (Nat.eqb_spec lp (line (target e))),
           (Nat.eqb_spec lq (line (target e))),
           (Nat.leb_spec (character (target e)) cp),
           (Nat.leb_spec (character (target e)) cq); simpl; try done;
    apply eq_true_iff_eq;
    rewrite !orb_true_iff, !andb_true_iff, !Nat.ltb_lt, !Nat.eqb_eq; lia.
Qed.

Lemma Position_eqb_moveBy e p q :
  Position_eqb (moveBy e p) (moveBy e q) = Position_eqb p q.
Proof.
  unfold moveBy, Position_eqb. destruct p as [lp cp], q as [lq cq]. simpl.
  destruct (Nat.eqb_spec lp (line (target e))),
           (Nat.eqb_spec lq (line (target e))),
           (Nat.leb_spec (character (target e)) cp),
           (Nat.leb_spec (character (target e)) cq); simpl; try done;
    apply eq_true_iff_eq; rewrite !andb_true_iff, !Nat.eqb_eq; lia.
Qed.

Lemma isBefore_movePosition es p q :
  isBefore (movePosition es p) (movePosition es q) = isBefore p q.
Proof.
  unfold movePosition. revert p q.
  induction es as [|e es IH]; intros p q; [done|].
  cbn [foldl]. by rewrite IH, isBefore_moveBy.
Qed.

Lemma Position_eqb_movePosition es p q :
  Position_eqb (movePosition es p) (movePosition es q) = Position_eqb p q.
Proof.
  unfold movePosition. revert p q.
  induction es as [|e es IH]; intros p q; [done|].
  cbn [foldl]. by rewrite IH, Position_eqb_moveBy.
Qed.

Lemma sel_start_moveSelection es s :
  sel_start (moveSelection es s) = movePosition es (sel_start s).
Proof.
  unfold sel_start, moveSelection. cbn [anchor active].
  rewrite isBefore_movePosition. by destruct (isBefore _ _).
Qed.

Lemma sel_end_moveSelection es s :
  sel_end (moveSelection es s) = movePosition es (sel_end s).
Proof.
  unfold sel_end, moveSelection. cbn [anchor active].
  rewrite isBefore_movePosition. by destruct (isBefore _ _).
Qed.

Lemma isEmpty_moveSelection es s : isEmpty (moveSelection es s) = isEmpty s.
Proof.
  unfold isEmpty.
  by rewrite sel_start_moveSelection, sel_end_moveSelection,
             Position_eqb_movePosition.
Qed.

Lemma selectionLines_moveSelection es s :
  selectionLines (moveSelection es s) = selectionLines s.
Proof.
  unfold selectionLines. rewrite isEmpty_moveSelection.
  unfold moveSelection. cbn [anchor active]. by rewrite !movePosition_line.
Qed.

Lemma moveSelection_nil (sels : list Selection) :
  moveSelection [] <$> sels = sels.
Proof.
  induction sels as [|[a b] sels IH]; [done|]. by rewrite fmap_cons, IH.
Qed.

(** ** The ways a command can end *)

Lemma editDocument_nil w : editDocument [] w = w.
Proof.
  unfold editDocument. destruct w as [[[[lang ls] sels]|] box msgs]; [|done].
  cbn [activeTextEditor document selections languageId lines inputBox shown
       applyEdits foldl].
  by rewrite moveSelection_nil.
Qed.

Lemma createRegExp_cases compile json w :
  (∃ p, createRegExp compile json w = (Some p, w)) ∨
  createRegExp compile json w = (None, w) ∨
  ∃ m, createRegExp compile json w = (None, showErrorMessage m w).
Proof.
  unfold createRegExp. destruct json as [s| |j|].
  - destruct (newRegExp compile s); eauto.
  - destruct (inputBox w) as [s|]; [|eauto].
    destruct (newRegExp compile s); eauto.
  - eauto.
  - eauto.
Qed.

(** A command stops without a plan, with the window as it was or with one
    more message, or it reaches its plan and makes the insertions of it. *)
Lemma alignCustomPattern_cases compile json w :
  (plannedEdits compile json w = None ∧
   (alignCustomPattern compile json w = w ∨
    ∃ m, alignCustomPattern compile json w = showErrorMessage m w)) ∨
  ∃ p editor ranges,
    (createRegExp compile json w).1 = Some p ∧
    activeTextEditor w = Some editor ∧
    selectRanges (document editor) (selections editor) = Done ranges ∧
    inDocument (document editor) ranges ∧
    2 ≤ length (hits (matcher p) (document editor) ranges) ∧
    plannedEdits compile json w
    = Some (planEdits (hits (matcher p) (document editor) ranges)
              (rightmostOf (hits (matcher p) (document editor) ranges))) ∧
    alignCustomPattern compile json w
    = editDocument
        (planEdits (hits (matcher p) (document editor) ranges)
           (rightmostOf (hits (matcher p) (document editor) ranges))) w.
Proof.
  destruct (createRegExp_cases compile json w) as [[p Hp]|[Hp|[m Hp]]].
  2: { left. unfold plannedEdits, alignCustomPattern. rewrite Hp. eauto. }
  2: { left. unfold plannedEdits, alignCustomPattern. rewrite Hp. eauto. }
  assert ((createRegExp compile json w).1 = Some p) as Hp1 by by rewrite Hp.
  pose proof (createRegExp_resolved _ _ _ _ Hp1) as [_ Hst].
  destruct (activeTextEditor w) as [editor|] eqn:Hed.
  2: { left. unfold plannedEdits, alignCustomPattern. rewrite Hp, Hed. eauto. }
  destruct (selectRanges (document editor) (selections editor))
    as [ranges|m|] eqn:Hsel.
  2: { left. unfold plannedEdits, alignCustomPattern.
       rewrite Hp, Hed. simpl. rewrite Hsel. eauto. }
  2: { left. unfold plannedEdits, alignCustomPattern.
       rewrite Hp, Hed. simpl. rewrite Hsel. eauto. }
  destruct (findPositions p (document editor) ranges) as [sc|] eqn:Hfind.
  2: { left. unfold plannedEdits, alignCustomPattern.
       rewrite Hp, Hed. simpl. rewrite Hsel, Hfind. eauto. }
  pose proof (findPositions_inDocument _ _ _ _ Hfind) as Hin.
  destruct (alignCustomPattern_ranges compile json w p editor ranges)
    as [Hrun Hplan]; [done..|].
  simpl in Hrun, Hplan.
  destruct (Nat.ltb_spec
              (length (hits (matcher p) (document editor) ranges)) 2)
    as [Hlt|Hge].
  - left. split; [done|]. rewrite Hrun. 
    destruct (length (hits (matcher p) (document editor) ranges))
      as [|[|n]]; simpl; [eauto|eauto|lia].
  - right. exists p, editor, ranges. repeat (split; [done|]).
    rewrite Hrun.
    destruct (length (hits (matcher p) (document editor) ranges))
      as [|[|n]]; simpl; [lia|lia|done].
Qed.

Lemma windowLines_editDocument es w :
  windowLines (editDocument es w) = applyEdits es (windowLines w).
Proof.
  unfold editDocument, windowLines.
  destruct (activeTextEditor w) as [editor|] eqn:Hed; [reflexivity|].
  rewrite Hed. cbn [from_option]. unfold applyEdits.
  induction es as [|e es IH]; [reflexivity|]. cbn [foldl]. exact IH.
Qed.

(** X1. A command shows at most one message, and when it shows one it
    makes no edit; an edit is made only by reaching a plan, and then
    without a message.  In every case the answer of the prompt, the
    language and the number of lines stay as they were, and every
    selection stays on its lines, empty or not as it was. *)
Theorem command_reports_or_edits compile json w :
  let w' := alignCustomPattern compile json w in
  inputBox w' = inputBox w ∧
  (fmap selectionLines ∘ selections <$> activeTextEditor w')
  = (fmap selectionLines ∘ selections <$> activeTextEditor w) ∧
  (languageId ∘ document <$> activeTextEditor w')
  = (languageId ∘ document <$> activeTextEditor w) ∧
  length (windowLines w') = length (windowLines w) ∧
  (shown w' = shown w ∨
   ∃ m, shown w' = shown w ++ [m] ∧ activeTextEditor w' = activeTextEditor w) ∧
  (plannedEdits compile json w = None → activeTextEditor w' = activeTextEditor w) ∧
  (∀ plan, plannedEdits compile json w = Some plan →
           w' = editDocument plan w ∧ shown w' = shown w).
Proof.
  intros w'. subst w'.
  destruct (alignCustomPattern_cases compile json w)
    as [[Hnone [Hw|[m Hw]]]|(p & editor & ranges & _ & Hed & _ & _ & _ & Hplan & Hw)];
    rewrite Hw.
  - split_and!; try done; [by left|]. intros plan. by rewrite Hnone.
  - split_and!; try done; [right; by exists m|]. intros plan. by rewrite Hnone.
  - rewrite windowLines_editDocument, length_applyEdits.
    unfold editDocument. rewrite Hed. simpl.
    split_and!; try done; [|by left|by rewrite Hplan|].
    + f_equal. rewrite <- list_fmap_compose. apply list_fmap_ext.
      intros i s _. apply selectionLines_moveSelection.
    + intros plan. rewrite Hplan. by intros [= <-].
Qed.


(** ** What an edit can change *)

Lemma nonSpaces_insertInLine c n t :
  nonSpaces (insertInLine c (spaces n) t) = nonSpaces t.
Proof.
  unfold nonSpaces, insertInLine, spaces. rewrite !filter_app.
  assert (filter (λ c, c ≠ " "%char) (replicate n " "%char) = []) as ->.
  { induction n as [|n IH]; [done|]. simpl.
    rewrite filter_cons_False by (intros H; by apply H). exact IH. }
  simpl. by rewrite <- filter_app, take_drop.
Qed.

Lemma length_insertInLine c u t :
  length (insertInLine c u t) = length t + length u.
Proof.
  unfold insertInLine. rewrite !length_app, length_take, length_drop. lia.
Qed.

(** With insertions on different lines, a line is changed by one block of
    spaces at most. *)
Lemma applyEdits_block es ls :
  NoDup ((line ∘ target) <$> es) →
  Forall2 (λ t t', ∃ c n, t' = insertInLine c (spaces n) t)
          ls (applyEdits es ls).
Proof.
  intros Hnd. apply Forall2_same_length_lookup_2.
  { by rewrite length_applyEdits. }
  intros l t t' Ht Ht'.
  destruct (decide (l ∈ (line ∘ target) <$> es)) as [Hl|Hl].
  - apply list_elem_of_fmap in Hl as (e & -> & He). simpl in *.
    rewrite (applyEdits_lookup_target _ _ _ Hnd He), Ht in Ht'.
    injection Ht' as <-. eauto.
  - rewrite applyEdits_lookup_other, Ht in Ht' by done.
    injection Ht' as <-. exists 0, 0. by rewrite insertInLine_nil.
Qed.

(** X2. Whatever the argument and the window, a command changes a line of
    the document at most by putting one block of spaces into it: the lines
    are as many as before, each is the old line with some spaces inserted at
    one column, none is shorter, and the characters other than spaces are
    the same in the same order. *)
Theorem command_only_inserts_spaces compile json w :
  let w' := alignCustomPattern compile json w in
  Forall2 (λ t t', (∃ c n, t' = insertInLine c (spaces n) t) ∧
                   length t ≤ length t' ∧
                   nonSpaces t' = nonSpaces t)
          (windowLines w) (windowLines w').
Proof.
  intros w'. subst w'.
  assert (∀ ls ls' : list text,
            Forall2 (λ t t', ∃ c n, t' = insertInLine c (spaces n) t) ls ls' →
            Forall2 (λ t t', (∃ c n, t' = insertInLine c (spaces n) t) ∧
                             length t ≤ length t' ∧
                             nonSpaces t' = nonSpaces t) ls ls') as Hmore.
  { intros ls ls' H. eapply Forall2_impl; [exact H|]. intros t t' (c & n & ->).
    split; [eauto|]. rewrite length_insertInLine, nonSpaces_insertInLine.
    split; [lia|done]. }
  assert (∀ ls : list text,
            Forall2 (λ t t', ∃ c n, t' = insertInLine c (spaces n) t) ls ls)
    as Hsame.
  { intros ls. apply Forall_Forall2_diag, Forall_forall. intros t _.
    exists 0, 0. by rewrite insertInLine_nil. }
  apply Hmore.
  destruct (alignCustomPattern_cases compile json w)
    as [[_ [Hw|[m Hw]]]|(p & editor & ranges & _ & Hed & Hsel & _ & _ & _ & Hw)];
    rewrite Hw; [apply Hsame..|].
  rewrite windowLines_editDocument. apply applyEdits_block.
  apply planEdits_NoDup. by eapply hits_NoDup.
Qed.

(** X3. A line that no range of the selections enumerates, and a line on
    which the pattern has no match, is the same after the command as
    before. *)
Theorem unmatched_lines_stay compile json w p editor ranges l :
  (createRegExp compile json w).1 = Some p →
  activeTextEditor w = Some editor →
  selectRanges (document editor) (selections editor) = Done ranges →
  l ∉ scannedLines ranges ∨
  l ∉ line <$> hits (matcher p) (document editor) ranges →
  windowLines (alignCustomPattern compile json w) !! l = windowLines w !! l.
Proof.
  intros Hp Hed Hsel Hl.
  assert (l ∉ line <$> hits (matcher p) (document editor) ranges) as Hnot.
  { destruct Hl as [Hl|Hl]; [|done]. intros Hin. apply Hl.
    eapply sublist_subseteq; [apply hits_lines|exact Hin]. }
  destruct (alignCustomPattern_cases compile json w)
    as [[_ [Hw|[m Hw]]]|(p' & editor' & ranges' & Hp' & Hed' & Hsel' & _ & _ & _ & Hw)];
    rewrite Hw; [done..|].
  assert (p' = p) as -> by congruence.
  assert (editor' = editor) as -> by congruence.
  assert (ranges' = ranges) as -> by congruence.
  rewrite windowLines_editDocument. apply applyEdits_lookup_other.
  intros Hin. apply Hnot.
  eapply sublist_subseteq; [apply planEdits_lines|exact Hin].
Qed.

Lemma unmatched_lines_stay_witness :
  let w := exampleWindow "c" ["a = 1"; "skip"; "bbb = 2"; "c = 3"]
             [span 0 0 2 7] in
  let w' := alignCustomPattern Fragment_engine.compile (JString " = ") w in
  windowLines w' !! 1 = Some (txt "skip") ∧
  windowLines w' !! 3 = Some (txt "c = 3") ∧
  windowLines w' !! 0 = Some (txt "a   = 1").
Proof.
  intros w w'. split; [|split; [|reflexivity]].
  - unfold w'. erewrite (unmatched_lines_stay Fragment_engine.compile
                           (JString " = ") w);
      [reflexivity|reflexivity|reflexivity|reflexivity|].
    right. vm_compute. intros H. by repeat apply elem_of_cons in H as [H|H];
      [..|apply elem_of_nil in H].
  - unfold w'. erewrite (unmatched_lines_stay Fragment_engine.compile
                           (JString " = ") w);
      [reflexivity|reflexivity|reflexivity|reflexivity|].
    left. vm_compute. intros H. by repeat apply elem_of_cons in H as [H|H];
      [..|apply elem_of_nil in H].
Defined.


(** ** Resolving the pattern, and the editor *)

(** X4. A pattern typed into the prompt does what the same pattern given
    as the argument does: the two runs end in the same window and reach the
    same plan. *)
Theorem prompted_pattern_is_argument compile w s :
  inputBox w = Some s →
  alignCustomPattern compile JUndefined w
  = alignCustomPattern compile (JString s) w ∧
  plannedEdits compile JUndefined w = plannedEdits compile (JString s) w.
Proof.
  intros Hbox.
  assert (createRegExp compile JUndefined w
          = createRegExp compile (JString s) w) as Heq.
  { unfold createRegExp. by rewrite Hbox. }
  unfold alignCustomPattern, plannedEdits. by rewrite Heq.
Qed.

Lemma prompted_pattern_is_argument_witness :
  let w := mkWindow
             (Some (mkEditor (mkDocument "c" [txt "x = 1"; txt "yy = 2"])
                             [cursor 0 0]))
             (Some " = ") [] in
  windowLines (alignCustomPattern Fragment_engine.compile JUndefined w)
  = txt <$> ["x  = 1"; "yy = 2"].
Proof.
  intros w.
  destruct (prompted_pattern_is_argument Fragment_engine.compile w " = "
              eq_refl) as [-> _].
  reflexivity.
Defined.

(** X5. A string that the engine rejects, given as the argument or typed
    into the prompt, and an argument that is neither a string nor absent
    and that [JSON.stringify] prints as the text [j], end the command with
    one message, that of the engine or that of the wrong argument with [j]
    in it, before the editor is looked at: the message is shown with or
    without an editor, no plan is reached and nothing else in the window
    changes.  An argument on which [JSON.stringify] throws ends the
    command before any message: the window stays as it was and no plan is
    reached. *)
Theorem unresolved_pattern_is_reported compile w s e :
  compile s = SyntaxError e →
  alignCustomPattern compile (JString s) w
  = showErrorMessage (InvalidPattern e) w ∧
  plannedEdits compile (JString s) w = None ∧
  (inputBox w = Some s →
     alignCustomPattern compile JUndefined w
     = showErrorMessage (InvalidPattern e) w ∧
     plannedEdits compile JUndefined w = None) ∧
  (∀ j, alignCustomPattern compile (JOther j) w
        = showErrorMessage (InvalidArgument j) w ∧
        plannedEdits compile (JOther j) w = None) ∧
  alignCustomPattern compile JUnprintable w = w ∧
  plannedEdits compile JUnprintable w = None.
Proof.
  intros He.
  assert (createRegExp compile (JString s) w
          = (None, showErrorMessage (InvalidPattern e) w)) as Hs.
  { unfold createRegExp, newRegExp. by rewrite He. }
  split_and!.
  - unfold alignCustomPattern. by rewrite Hs.
  - unfold plannedEdits. by rewrite Hs.
  - intros Hbox.
    assert (createRegExp compile JUndefined w
            = (None, showErrorMessage (InvalidPattern e) w)) as Hu.
    { unfold createRegExp, newRegExp. by rewrite Hbox, He. }
    unfold alignCustomPattern, plannedEdits. by rewrite Hu.
  - done.
  - done.
  - done.
Qed.

Lemma unresolved_pattern_is_reported_witness :
  let w := exampleWindow "c" ["x = 1"; "yy = 2"] [cursor 0 0] in
  alignCustomPattern Fragment_engine.compile (JString "[") w
  = showErrorMessage (InvalidPattern "Invalid regular expression") w.
Proof.
  intros w.
  by destruct (unresolved_pattern_is_reported Fragment_engine.compile w "["
                 "Invalid regular expression" eq_refl) as [-> _].
Defined.

(** X6. Without an active editor, a command whose pattern resolves shows
    the message of no editor and nothing else, and [alignComments] shows
    that message once, without looking up or compiling a pattern; no plan
    is reached. *)
Theorem missing_editor_is_reported compile w :
  activeTextEditor w = None →
  alignComments compile w = showErrorMessage NoEditor w ∧
  ∀ json p, (createRegExp compile json w).1 = Some p →
    alignCustomPattern compile json w = showErrorMessage NoEditor w ∧
    plannedEdits compile json w = None.
Proof.
  intros Hed. split; [unfold alignComments; by rewrite Hed|].
  intros json p Hp. apply createRegExp_resolved in Hp as [Hp _].
  unfold alignCustomPattern, plannedEdits. by rewrite Hp, Hed.
Qed.

Lemma missing_editor_is_reported_witness :
  let w := mkWindow None None [] in
  alignComments Fragment_engine.compile w = showErrorMessage NoEditor w ∧
  alignAssignmentOperators Fragment_engine.compile w
  = showErrorMessage NoEditor w.
Proof.
  intros w.
  destruct (missing_editor_is_reported Fragment_engine.compile w eq_refl)
    as [Hcomments Hcustom].
  split; [exact Hcomments|]. unfold alignAssignmentOperators.
  by destruct (Hcustom (JString " = ") _ eq_refl) as [-> _].
Defined.


(** ** The selections as ranges *)

Lemma firstDuplicate_None_NoDup seen ls :
  NoDup seen → firstDuplicate seen ls = None → NoDup (reverse ls ++ seen).
Proof.
  revert seen. induction ls as [|l ls IH]; intros seen Hnd; simpl; [done|].
  destruct (bool_decide (l ∈ seen)) eqn:E; [done|].
  apply bool_decide_eq_false in E. intros H.
  rewrite reverse_cons, <- app_assoc. simpl. apply IH; [|done].
  by constructor.
Qed.

Lemma NoDup_firstDuplicate ls : NoDup ls → firstDuplicate [] ls = None.
Proof.
  intros Hnd. destruct (firstDuplicate [] ls) as [l|] eqn:E; [|done].
  apply firstDuplicate_Some in E as (before & after & -> & Hin & _ & _).
  rewrite app_nil_r in Hin. apply NoDup_app in Hnd as (_ & Hdisj & _).
  destruct (Hdisj l Hin). by left.
Qed.

Lemma scannedLines_selectionRange d sels :
  scannedLines (selectionRange d <$> sels) = claims sels.
Proof.
  induction sels as [|s sels IH]; [done|].
  rewrite fmap_cons, claims_cons, <- IH.
  unfold scannedLines, scanned. rewrite bind_cons, fmap_app. f_equal.
  rewrite <- list_fmap_compose. simpl. rewrite list_fmap_id.
  unfold selectionRange. destruct (isEmpty s) eqn:E; [|done].
  unfold wholeLine. simpl. by rewrite (isEmpty_line _ E).
Qed.

(** The loop over the selections, when no line is claimed twice. *)
Lemma selectEach_complete d sels claimed seen ranges :
  cursorsInDocument d sels → NoDup seen →
  (∀ x, x ∈ claimed ↔ x ∈ seen) →
  firstDuplicate seen (claims sels) = None →
  selectEach d sels claimed ranges
  = if length seen + length (claims sels) <? 2
    then Fail InsufficientSelection
    else Done (ranges ++ (selectionRange d <$> sels)).
Proof.
  intros Hcur. revert claimed seen ranges.
  induction Hcur as [|s sels Hs _ IH]; intros claimed seen ranges Hnd Hseen Hdup.
  { simpl. rewrite app_nil_r, Nat.add_0_r.
    assert (claimed = list_to_set seen) as -> by set_solver.
    by rewrite size_list_to_set. }
  cbn [selectEach]. destruct (isEmpty s) eqn:Hempty.
  - rewrite claims_cursor in * by done. simpl in Hdup.
    destruct (bool_decide (line (sel_start s) ∈ seen)) eqn:E; [done|].
    apply bool_decide_eq_false in E.
    destruct (lookup_lt_is_Some_2 (lines d) (line (sel_start s))) as [t Ht].
    { by apply Hs. }
    unfold lineAt at 1. rewrite Ht.
    rewrite decide_False by (by rewrite Hseen).
    rewrite (IH _ (line (sel_start s) :: seen)); [|by constructor| |done].
    2: { intros x. rewrite elem_of_cons, <- Hseen. set_solver. }
    replace (length (line (sel_start s) :: seen) + length (claims sels))
      with (length seen + length (line (sel_start s) :: claims sels))
      by (simpl; lia).
    rewrite <- app_assoc, fmap_cons. cbn [app].
    unfold selectionRange at 2. rewrite Hempty.
    by rewrite (newRange4_wholeLine d _ t Ht).
  - rewrite claims_cons, firstDuplicate_app in Hdup. rewrite claims_cons.
    pose proof (claimLines_firstDuplicate
                  (linesFromTo (line (sel_start s)) (line (sel_end s)))
                  claimed seen Hseen) as Hclaim.
    destruct (firstDuplicate seen
                (linesFromTo (line (sel_start s)) (line (sel_end s))))
      as [l|] eqn:Hfirst; [done|].
    destruct (claimLines _ claimed) as [l'|claimed']; [done|].
    destruct Hclaim as [_ Hiff].
    rewrite (IH _ _ _ (firstDuplicate_None_NoDup _ _ Hnd Hfirst) Hiff Hdup).
    rewrite !length_app, length_reverse, <- app_assoc, fmap_cons. cbn [app].
    rewrite newRange_selection. unfold selectionRange at 2. rewrite Hempty.
    by rewrite (Nat.add_comm (length (linesFromTo _ _)) (length seen)),
               Nat.add_assoc.
Qed.

Lemma selectEach_Done_cursors d sels claimed ranges out :
  selectEach d sels claimed ranges = Done out → cursorsInDocument d sels.
Proof.
  revert claimed ranges. induction sels as [|s sels IH]; intros claimed ranges H.
  { constructor. }
  simpl in H. destruct (isEmpty s) eqn:Hempty.
  - destruct (lineAt d (line (sel_start s))) as [t|] eqn:Ht; [|done].
    destruct (decide (line (sel_start s) ∈ claimed)); [done|].
    constructor; [|by eapply IH]. intros _. by apply lookup_lt_Some in Ht.
  - destruct (claimLines _ claimed); [done|].
    constructor; [|by eapply IH]. by rewrite Hempty.
Qed.

(** The resolution of selections other than a single bare cursor. *)
Lemma selectRanges_selection d sels ranges :
  wholeDocumentMode sels = false →
  selectRanges d sels = Done ranges ↔
  cursorsInDocument d sels ∧ NoDup (claims sels) ∧
  2 ≤ length (claims sels) ∧ ranges = selectionRange d <$> sels.
Proof.
  intros Hmode.
  assert (selectRanges d sels = selectEach d sels ∅ []) as Hsel.
  { unfold selectRanges. unfold wholeDocumentMode in Hmode. by rewrite Hmode. }
  assert (cursorsInDocument d sels → NoDup (claims sels) →
          selectRanges d sels
          = if length (claims sels) <? 2 then Fail InsufficientSelection
            else Done (selectionRange d <$> sels)) as Hcomplete.
  { intros Hcur Hnd. rewrite Hsel.
    rewrite (selectEach_complete d sels ∅ [] []); [done|done|constructor| |].
    - set_solver.
    - by apply NoDup_firstDuplicate. }
  split.
  - intros H.
    assert (cursorsInDocument d sels) as Hcur.
    { rewrite Hsel in H. by eapply selectEach_Done_cursors. }
    assert (NoDup (claims sels)) as Hnd.
    { rewrite Hsel in H.
      apply selectEach_Done in H as (_ & Hnd & Hlines);
        [|constructor|constructor|set_solver].
      by rewrite Hlines in Hnd. }
    rewrite Hcomplete in H by done.
    destruct (Nat.ltb_spec (length (claims sels)) 2); [done|].
    by injection H as <-.
  - intros (Hcur & Hnd & Hlen & ->). rewrite Hcomplete by done.
    by destruct (Nat.ltb_spec (length (claims sels)) 2); [lia|].
Qed.

(** X7. With selections other than a single bare cursor, the resolution
    succeeds exactly when every cursor is on a line of the document, no
    line is claimed twice and two lines or more are claimed.  It then gives
    one range per selection, in the order of the selections: the whole line
    for a cursor, the span from start to end otherwise; and the lines the
    scan visits are the claimed lines, in the order of the claims. *)
Theorem selections_resolve_to_their_lines d sels :
  wholeDocumentMode sels = false →
  (cursorsInDocument d sels ∧ NoDup (claims sels) ∧ 2 ≤ length (claims sels)
   ↔ ∃ ranges, selectRanges d sels = Done ranges) ∧
  ∀ ranges, selectRanges d sels = Done ranges →
    ranges = selectionRange d <$> sels ∧
    length ranges = length sels ∧
    scannedLines ranges = claims sels.
Proof.
  intros Hmode. split; [split|].
  - intros (Hcur & Hnd & Hlen). eexists.
    by apply selectRanges_selection.
  - intros [ranges H]. apply selectRanges_selection in H; [|done]. tauto.
  - intros ranges H. apply selectRanges_selection in H as (_ & _ & _ & ->);
      [|done].
    by rewrite length_fmap, scannedLines_selectionRange.
Qed.

Lemma selections_resolve_to_their_lines_witness :
  let d := mkDocument "c" (txt <$> ["a"; "bb"; "ccc"; "dddd"; "e"]) in
  selectRanges d [cursor 4 1; span 1 1 2 2]
  = Done [mkRange (mkPosition 4 0) (mkPosition 4 1);
          mkRange (mkPosition 1 1) (mkPosition 2 2)] ∧
  scannedLines [mkRange (mkPosition 4 0) (mkPosition 4 1);
                mkRange (mkPosition 1 1) (mkPosition 2 2)] = [4; 1; 2].
Proof.
  intros d.
  destruct (selections_resolve_to_their_lines d [cursor 4 1; span 1 1 2 2]
              eq_refl) as [_ Hranges].
  destruct (Hranges _ eq_refl) as (_ & _ & Hlines). split; [reflexivity|].
  exact Hlines.
Defined.

(** X8. With selections other than a single bare cursor that claim no
    line twice and fewer than two lines in all (a span inside one line, a
    bare cursor beside nothing, or no selection), the command shows the
    message that multiple lines must be selected; no plan is reached and
    the document stays as it was. *)
Theorem too_few_lines_selected compile json w p editor :
  (createRegExp compile json w).1 = Some p →
  activeTextEditor w = Some editor →
  wholeDocumentMode (selections editor) = false →
  cursorsInDocument (document editor) (selections editor) →
  NoDup (claims (selections editor)) →
  length (claims (selections editor)) < 2 →
  selectRanges (document editor) (selections editor)
  = Fail InsufficientSelection ∧
  alignCustomPattern compile json w
  = showErrorMessage InsufficientSelection w ∧
  plannedEdits compile json w = None.
Proof.
  intros Hp Hed Hmode Hcur Hnd Hlen.
  assert (selectRanges (document editor) (selections editor)
          = Fail InsufficientSelection) as Hsel.
  { unfold selectRanges. unfold wholeDocumentMode in Hmode. rewrite Hmode.
    rewrite (selectEach_complete _ _ ∅ [] []); [|done|constructor| |].
    - simpl. by destruct (Nat.ltb_spec (length (claims (selections editor))) 2);
        [|lia].
    - set_solver.
    - by apply NoDup_firstDuplicate. }
  split; [done|]. by apply (alignCustomPattern_fail compile json w p editor).
Qed.

Lemma too_few_lines_selected_witness :
  let w := exampleWindow "c" ["x = 1; y = 2"; "z = 3"] [span 0 2 0 9] in
  alignCustomPattern Fragment_engine.compile (JString " = ") w
  = showErrorMessage InsufficientSelection w.
Proof.
  intros w.
  edestruct (too_few_lines_selected Fragment_engine.compile (JString " = ") w)
    as (_ & Hrun & _);
    [reflexivity|reflexivity|reflexivity|by repeat constructor|
     repeat constructor; by intros ?%elem_of_nil|simpl; lia|].
  exact Hrun.
Defined.


(** ** The document after the insertions *)

(** The line of a recorded position after the plan has been carried out. *)
Lemma applyEdits_planEdits_lookup ps M ls pos t :
  NoDup (line <$> ps) → pos ∈ ps → ls !! line pos = Some t →
  applyEdits (planEdits ps M) ls !! line pos
  = Some (insertInLine (character pos)
            (spaces (Z.to_nat (M - Z.of_nat (character pos)))) t).
Proof.
  intros Hnd Hpos Ht.
  destruct (decide (Z.of_nat (character pos) < M)%Z) as [Hlt|Hge].
  - rewrite (applyEdits_lookup_target _ _
               (mkInsertion pos (Z.to_nat (M - Z.of_nat (character pos))))).
    + simpl. by rewrite Ht.
    + by apply planEdits_NoDup.
    + apply elem_of_planEdits. simpl. split; [done|]. lia.
  - rewrite applyEdits_lookup_other.
    + replace (Z.to_nat (M - Z.of_nat (character pos))) with 0 by lia.
      simpl. by rewrite insertInLine_nil.
    + intros (e & Hline & (He & Hlt & _)%elem_of_planEdits)%list_elem_of_fmap.
      simpl in Hline.
      assert (target e = pos) as Heq by (by apply (NoDup_fmap_eq line ps)).
      rewrite Heq in Hlt. lia.
Qed.

(** X9. When the pattern matches on two lines or more, the command
    reaches the empty plan exactly when all the recorded matches are at one
    column, and then it leaves the window as it was, without a message. *)
Theorem aligned_matches_need_no_edit compile json w p editor ranges :
  (createRegExp compile json w).1 = Some p →
  activeTextEditor w = Some editor →
  selectRanges (document editor) (selections editor) = Done ranges →
  inDocument (document editor) ranges →
  2 ≤ length (hits (matcher p) (document editor) ranges) →
  ((∃ c, Forall (λ pos, character pos = c)
                (hits (matcher p) (document editor) ranges))
   ↔ plannedEdits compile json w = Some []) ∧
  (plannedEdits compile json w = Some [] →
   alignCustomPattern compile json w = w).
Proof.
  intros Hp Hed Hsel Hin Hlen.
  destruct (alignCustomPattern_ranges compile json w p editor ranges)
    as [Hrun Hplan]; [done..|].
  simpl in Hrun, Hplan.
  set (found := hits (matcher p) (document editor) ranges) in *.
  destruct (Nat.ltb_spec (length found) 2) as [|_]; [lia|].
  destruct (Nat.eqb_spec (length found) 0) as [|_]; [lia|].
  destruct (Nat.eqb_spec (length found) 1) as [|_]; [lia|].
  assert (found ≠ []) as Hne by (intros E; rewrite E in Hlen; simpl in Hlen; lia).
  split; [split|].
  - intros [c Hall]. rewrite Hplan. f_equal. apply planEdits_all_rightmost.
    rewrite (rightmostOf_constant _ c) by done.
    eapply Forall_impl; [exact Hall|]. by intros pos ->.
  - rewrite Hplan. intros [= Hnil]. exists (Z.to_nat (rightmostOf found)).
    apply Forall_forall. intros pos Hpos.
    pose proof (rightmostOf_ge _ _ Hpos) as Hle.
    destruct (decide (Z.of_nat (character pos) < rightmostOf found)%Z)
      as [Hlt|Hge]; [|lia].
    assert (mkInsertion pos
              (Z.to_nat (rightmostOf found - Z.of_nat (character pos)))
            ∈ planEdits found (rightmostOf found)) as Hin'.
    { apply elem_of_planEdits. simpl. split; [done|]. lia. }
    rewrite Hnil in Hin'. by apply elem_of_nil in Hin'.
  - rewrite Hplan, Hrun. intros [= ->]. apply editDocument_nil.
Qed.

Lemma aligned_matches_need_no_edit_witness :
  let w := exampleWindow "c" ["x   = 1"; "yyy = 2"; "none"] [cursor 2 0] in
  alignAssignmentOperators Fragment_engine.compile w = w.
Proof.
  intros w.
  edestruct (aligned_matches_need_no_edit Fragment_engine.compile
               (JString " = ") w) as [_ Hsame];
    [reflexivity|reflexivity|reflexivity|repeat constructor|simpl; lia|].
  apply Hsame. reflexivity.
Defined.

Lemma selectedPart_within r l (t : text) :
  ordered r → line (start r) ≤ l ≤ line (end_ r) →
  (l = line (start r) → character (start r) ≤ length t) →
  (selectedPart r l t).2 + length (selectedPart r l t).1 ≤ length t.
Proof.
  intros Hord Hl Hstart. rewrite selectedPart_lineRange by done. simpl.
  apply isBefore_false in Hord.
  unfold lineRangeOf, permitted. repeat case_decide; simpl;
    rewrite ?length_take, ?length_drop; lia.
Qed.

(** A recorded column is inside the text of its line, when the ranges
    start inside their lines. *)
Lemma hits_within m d ranges pos (t : text) :
  Forall ordered ranges → startsInLines d ranges →
  pos ∈ hits m d ranges → lines d !! line pos = Some t →
  character pos ≤ length t.
Proof.
  intros Hord Hstarts Hpos Ht.
  apply list_elem_of_omap in Hpos as ([r l] & Hrl & Hloc).
  apply elem_of_scanned in Hrl as [Hr Hl]. simpl in Hr, Hl.
  unfold locate, lineAt in Hloc. simpl in Hloc.
  destruct (lines d !! l) as [t'|] eqn:Ht'; simpl in Hloc; [|done].
  destruct (leftmost m (selectedPart r l t').1) as [index|] eqn:Hi;
    simpl in Hloc; [|done].
  injection Hloc as <-. cbn [line character] in *.
  assert (t' = t) as -> by congruence.
  apply leftmost_le in Hi.
  pose proof (selectedPart_within r l t) as Hwithin.
  eapply Forall_forall in Hord; [|exact Hr].
  eapply Forall_forall in Hstarts; [|exact Hr].
  specialize (Hwithin Hord Hl). unfold lineAt in Hstarts.
  assert (l = line (start r) → character (start r) ≤ length t) as Hs.
  { intros ->. by apply Hstarts. }
  specialize (Hwithin Hs). lia.
Qed.

(** The line of a recorded match after a command that reached its plan. *)
Lemma matched_line_after_plan compile json w p editor ranges plan pos :
  (createRegExp compile json w).1 = Some p →
  activeTextEditor w = Some editor →
  selectRanges (document editor) (selections editor) = Done ranges →
  startsInLines (document editor) ranges →
  plannedEdits compile json w = Some plan →
  pos ∈ hits (matcher p) (document editor) ranges →
  let M := Z.to_nat (rightmostOf (hits (matcher p) (document editor) ranges)) in
  character pos ≤ M ∧
  ∃ t : text,
    lines (document editor) !! line pos = Some t ∧
    character pos ≤ length t ∧
    windowLines (alignCustomPattern compile json w) !! line pos
    = Some (insertInLine (character pos) (spaces (M - character pos)) t).
Proof.
  intros Hp Hed Hsel Hstarts Hplan Hpos M.
  pose proof (selectRanges_Done _ _ _ Hsel) as [Hord _].
  destruct (alignCustomPattern_cases compile json w)
    as [[Hnone _]|(p' & editor' & ranges' & Hp' & Hed' & Hsel' & Hin & _ & _ & Hw)];
    [congruence|].
  assert (p' = p) as -> by congruence.
  assert (editor' = editor) as -> by congruence.
  assert (ranges' = ranges) as -> by congruence.
  pose proof (rightmostOf_ge _ _ Hpos) as Hle.
  split; [lia|].
  destruct (lookup_lt_is_Some_2 (lines (document editor)) (line pos))
    as [t Ht].
  { by eapply hits_inDocument. }
  pose proof (hits_within _ _ _ _ _ Hord Hstarts Hpos Ht) as Hc.
  exists t. split; [done|]. split; [done|].
  rewrite Hw, windowLines_editDocument. unfold windowLines. rewrite Hed.
  simpl.
  replace (M - character pos)
    with (Z.to_nat (rightmostOf (hits (matcher p) (document editor) ranges)
                    - Z.of_nat (character pos))) by lia.
  apply applyEdits_planEdits_lookup; [|done..].
  by eapply hits_NoDup.
Qed.

(** X10. When the command reaches its plan, with [M] the rightmost
    recorded column: on every line with a recorded match, at column [C],
    the text from column [M] on is afterwards what the text from column [C]
    on was before, and the text before column [M] is the old text before
    column [C] followed by [M - C] spaces.  So the matched texts of all
    these lines start in one column.  The ranges are taken to start inside
    their lines, as the host has it. *)
Theorem matches_move_to_rightmost_column compile json w p editor ranges plan :
  (createRegExp compile json w).1 = Some p →
  activeTextEditor w = Some editor →
  selectRanges (document editor) (selections editor) = Done ranges →
  startsInLines (document editor) ranges →
  plannedEdits compile json w = Some plan →
  let found := hits (matcher p) (document editor) ranges in
  let M := Z.to_nat (rightmostOf found) in
  ∀ pos, pos ∈ found →
    character pos ≤ M ∧
    ∃ t t', lines (document editor) !! line pos = Some t ∧
            windowLines (alignCustomPattern compile json w) !! line pos
            = Some t' ∧
            take M t' = take (character pos) t ++ spaces (M - character pos) ∧
            drop M t' = drop (character pos) t.
Proof.
  intros Hp Hed Hsel Hstarts Hplan found M pos Hpos.
  destruct (matched_line_after_plan compile json w p editor ranges plan pos)
    as (HM & t & Ht & Hc & Ht'); [done..|].
  fold found in HM, Ht'. fold M in HM, Ht'.
  split; [done|]. exists t. eexists. split; [done|]. split; [exact Ht'|].
  unfold insertInLine. rewrite app_assoc.
  assert (length (take (character pos) t ++ spaces (M - character pos)) = M)
    as Hlen.
  { rewrite length_app, length_take. unfold spaces. rewrite length_replicate.
    lia. }
  split.
  - by rewrite take_app_length' by done.
  - by rewrite drop_app_length' by done.
Qed.

Lemma matches_move_to_rightmost_column_witness :
  let w := exampleWindow "c" ["a = 1"; "skip"; "bbb = 2"] [span 0 1 2 6] in
  ∃ t', windowLines (alignCustomPattern Fragment_engine.compile
                       (JString " = ") w) !! 0 = Some t' ∧
        drop 3 t' = txt " = 1" ∧ take 3 t' = txt "a  ".
Proof.
  intros w.
  edestruct (matches_move_to_rightmost_column Fragment_engine.compile
               (JString " = ") w) as [_ (t & t' & Ht & Ht' & Htake & Hdrop)];
    [reflexivity|reflexivity|reflexivity| |reflexivity| |].
  - repeat constructor. intros t [= <-]. simpl. lia.
  - apply (list_elem_of_here (mkPosition 0 1)).
  - injection Ht as <-. exists t'. split; [exact Ht'|].
    split; [exact Hdrop|exact Htake].
Defined.


(** ** What the matcher of the fragment accepts *)

Lemma drop_lookup_cons (l : text) i x rest :
  drop i l = x :: rest → l !! i = Some x ∧ drop (S i) l = rest.
Proof.
  revert l. induction i as [|i IH]; intros [|y l] H; simpl in *; try done.
  - by injection H as -> ->.
  - by apply IH.
Qed.

(** The matcher succeeds at an index exactly when the text from that index
    on begins with a string that the pattern accepts and after which the
    rest of the match succeeds. *)
Lemma run_accepts r (s : text) i k :
  i ≤ length s →
  is_Some (Fragment.run r s i k) ↔
  ∃ u rest, drop i s = u ++ rest ∧ accepts r u ∧ is_Some (k (i + length u)).
Proof.
  revert i k. induction r as [|c| |neg ms|r1 IH1 r2 IH2|r1 IH1 r2 IH2];
    intros i k Hi; simpl.
  - split.
    + intros Hk. exists [], (drop i s). by rewrite Nat.add_0_r.
    + intros (u & rest & _ & -> & Hk). by rewrite Nat.add_0_r in Hk.
  - split.
    + destruct (s !! i) as [c'|] eqn:Hc; [|by intros [??]].
      destruct (Ascii.eqb_spec c' c) as [->|]; [|by intros [??]].
      intros Hk. exists [c], (drop (S i) s). rewrite Nat.add_1_r.
      split; [|done]. by apply drop_S.
    + intros (u & rest & Hdrop & -> & Hk).
      apply drop_lookup_cons in Hdrop as [-> _].
      rewrite Ascii.eqb_refl. by rewrite Nat.add_1_r in Hk.
  - split.
    + destruct (s !! i) as [c'|] eqn:Hc; [|by intros [??]].
      destruct (Fragment.lineTerminator c') eqn:Hterm; [by intros [??]|].
      intros Hk. exists [c'], (drop (S i) s). rewrite Nat.add_1_r.
      split; [by apply drop_S|]. split; [eauto|done].
    + intros (u & rest & Hdrop & (c & -> & Hterm) & Hk).
      apply drop_lookup_cons in Hdrop as [-> _].
      rewrite Hterm. by rewrite Nat.add_1_r in Hk.
  - split.
    + destruct (s !! i) as [c'|] eqn:Hc; [|by intros [??]].
      destruct (xorb neg (existsb (Ascii.eqb c') ms)) eqn:Hin; [|by intros [??]].
      intros Hk. exists [c'], (drop (S i) s). rewrite Nat.add_1_r.
      split; [by apply drop_S|]. split; [eauto|done].
    + intros (u & rest & Hdrop & (c & -> & Hin) & Hk).
      apply drop_lookup_cons in Hdrop as [-> _].
      rewrite Hin. by rewrite Nat.add_1_r in Hk.
  - rewrite IH1 by done. split.
    + intros (u1 & rest1 & Hdrop1 & Hu1 & Hk).
      assert (i + length u1 ≤ length s) as Hle.
      { apply (f_equal length) in Hdrop1.
        rewrite length_drop, length_app in Hdrop1. lia. }
      apply IH2 in Hk as (u2 & rest & Hdrop2 & Hu2 & Hk); [|done].
      exists (u1 ++ u2), rest. rewrite length_app, Nat.add_assoc, <- app_assoc.
      split; [|eauto 10].
      rewrite Hdrop1. f_equal.
      rewrite <- drop_drop, Hdrop1 in Hdrop2.
      by rewrite drop_app_length in Hdrop2.
    + intros (u & rest & Hdrop & (u1 & u2 & -> & Hu1 & Hu2) & Hk).
      rewrite <- app_assoc in Hdrop. exists u1, (u2 ++ rest).
      split; [done|]. split; [done|].
      apply IH2.
      { apply (f_equal length) in Hdrop.
        rewrite length_drop, !length_app in Hdrop. lia. }
      exists u2, rest. rewrite length_app, Nat.add_assoc in Hk.
      split; [|done].
      by rewrite <- drop_drop, Hdrop, drop_app_length.
  - split.
    + intros H. destruct (Fragment.run r1 s i k) as [e|] eqn:E1.
      * assert (is_Some (Fragment.run r1 s i k)) as H1 by (rewrite E1; eauto).
        apply IH1 in H1 as (u & rest & ? & ? & ?); [|done].
        exists u, rest. eauto.
      * apply IH2 in H as (u & rest & ? & ? & ?); [|done].
        exists u, rest. eauto.
    + intros (u & rest & Hdrop & [Hu|Hu] & Hk).
      * assert (is_Some (Fragment.run r1 s i k)) as [e He]
          by (apply IH1; eauto).
        rewrite He. eauto.
      * destruct (Fragment.run r1 s i k); [eauto|]. apply IH2; eauto.
Qed.

Lemma matchAt_accepts r (s : text) i :
  i ≤ length s →
  is_Some (Fragment.matchAt r s i) ↔
  ∃ u rest, drop i s = u ++ rest ∧ accepts r u.
Proof.
  intros Hi. unfold Fragment.matchAt. rewrite run_accepts by done.
  split; intros (u & rest & ? & ? ); exists u, rest; [by destruct H0|eauto].
Qed.

Lemma accepts_spaceFree r u :
  spaceFree r = true → accepts r u → " "%char ∉ u.
Proof.
  revert u. induction r as [|c| |neg ms|r1 IH1 r2 IH2|r1 IH1 r2 IH2];
    intros u Hfree Hu; simpl in *.
  - subst u. by intros ?%elem_of_nil.
  - subst u. intros Heq%list_elem_of_singleton.
    by rewrite <- Heq, Ascii.eqb_refl in Hfree.
  - done.
  - destruct Hu as (c & -> & Hin). intros Heq%list_elem_of_singleton.
    apply andb_true_iff in Hfree as [Hneg Hmem].
    destruct neg; [done|]. simpl in Hin. rewrite Heq, Hin in Hmem. done.
  - destruct Hu as (u1 & u2 & -> & Hu1 & Hu2).
    apply andb_true_iff in Hfree as [H1 H2].
    intros [?|?]%elem_of_app; [by eapply IH1|by eapply IH2].
  - apply andb_true_iff in Hfree as [H1 H2].
    destruct Hu; [by eapply IH1|by eapply IH2].
Qed.

Lemma accepts_nonNullable r u :
  nonNullable r = true → accepts r u → u ≠ [].
Proof.
  revert u. induction r as [|c| |neg ms|r1 IH1 r2 IH2|r1 IH1 r2 IH2];
    intros u Hnn Hu; simpl in *.
  - done.
  - by subst u.
  - by destruct Hu as (c & -> & _).
  - by destruct Hu as (c & -> & _).
  - destruct Hu as (u1 & u2 & -> & Hu1 & Hu2).
    intros [-> ->]%app_eq_nil.
    apply orb_true_iff in Hnn as [H|H]; [by eapply IH1|by eapply IH2].
  - apply andb_true_iff in Hnn as [H1 H2].
    destruct Hu; [by eapply IH1|by eapply IH2].
Qed.


(** ** Patterns whose matches move with the padding *)

Lemma length_insertInLine_spaces i n (s : text) :
  length (insertInLine i (spaces n) s) = length s + n.
Proof.
  rewrite length_insertInLine. unfold spaces. by rewrite length_replicate.
Qed.

Lemma drop_insertInLine_after i n (s : text) :
  i ≤ length s → drop (i + n) (insertInLine i (spaces n) s) = drop i s.
Proof.
  intros Hi. unfold insertInLine. rewrite app_assoc.
  apply drop_app_length'. rewrite length_app, length_take.
  unfold spaces. rewrite length_replicate. lia.
Qed.

(** A pattern of the fragment that cannot match a space nor the empty
    string keeps its leftmost match when spaces are put in front of it. *)
Lemma spaceFree_shiftStable r :
  spaceFree r = true → nonNullable r = true →
  shiftStable (Fragment.matchAt r).
Proof.
  intros Hfree Hnn s i n Hleft.
  destruct n as [|n].
  { unfold spaces. simpl. by rewrite insertInLine_nil, Nat.add_0_r. }
  apply leftmost_Some in Hleft as (Hi & Hsome & Hnone).
  apply leftmost_Some. rewrite length_insertInLine_spaces.
  split; [lia|]. split.
  - apply matchAt_accepts; [rewrite length_insertInLine_spaces; lia|].
    apply matchAt_accepts in Hsome as (u & rest & Hdrop & Hu); [|done].
    exists u, rest. by rewrite drop_insertInLine_after.
  - intros j Hj.
    destruct (Fragment.matchAt r (insertInLine i (spaces (S n)) s) j)
      as [e|] eqn:E; [|done]. exfalso.
    assert (is_Some (Fragment.matchAt r (insertInLine i (spaces (S n)) s) j))
      as Hmatch by (rewrite E; eauto).
    apply matchAt_accepts in Hmatch as (u & rest & Hdrop & Hu);
      [|rewrite length_insertInLine_spaces; lia].
    pose proof (accepts_spaceFree _ _ Hfree Hu) as Hnospace.
    pose proof (accepts_nonNullable _ _ Hnn Hu) as Hnonempty.
    unfold insertInLine in Hdrop.
    destruct (decide (j < i)) as [Hlt|Hge].
    + rewrite drop_app_le in Hdrop by (rewrite length_take; lia).
      symmetry in Hdrop.
      apply app_eq_inv in Hdrop as [(k & Hu' & Hk)|(k & HA & Hk)].
      * destruct k as [|c k].
        -- rewrite app_nil_r in Hu'. 
           assert (is_Some (Fragment.matchAt r s j)) as [e' He'].
           { apply matchAt_accepts; [lia|]. exists u, (drop i s).
             rewrite <- (take_drop i s) at 1.
             rewrite drop_app_le by (rewrite length_take; lia).
             by rewrite <- Hu'. }
           rewrite Hnone in He' by done. done.
        -- simpl in Hk. injection Hk as <- _. apply Hnospace.
           rewrite Hu'. apply elem_of_app. right. by left.
      * assert (is_Some (Fragment.matchAt r s j)) as [e' He'].
        { apply matchAt_accepts; [lia|]. exists u, (k ++ drop i s).
          rewrite <- (take_drop i s) at 1.
          rewrite drop_app_le by (rewrite length_take; lia).
          by rewrite HA, <- app_assoc. }
        rewrite Hnone in He' by done. done.
    + rewrite drop_app_ge in Hdrop by (rewrite length_take; lia).
      rewrite length_take in Hdrop.
      rewrite drop_app_le in Hdrop
        by (unfold spaces; rewrite length_replicate; lia).
      unfold spaces in Hdrop. rewrite drop_replicate in Hdrop.
      destruct (S n - (j - i `min` length s)) as [|m] eqn:Hm; [lia|].
      simpl in Hdrop. destruct u as [|c u]; [done|].
      simpl in Hdrop. injection Hdrop as <- _. apply Hnospace. by left.
Qed.

(** ** A second run of a command *)

Lemma createRegExp_editor compile json w :
  activeTextEditor (createRegExp compile json w).2 = activeTextEditor w ∧
  inputBox (createRegExp compile json w).2 = inputBox w.
Proof.
  destruct (createRegExp_cases compile json w) as [[p ->]|[->|[m ->]]]; done.
Qed.

(** The plan depends on the editor and on the answer of the prompt, not
    on the messages shown before. *)
Lemma plannedEdits_window compile json w w' :
  inputBox w' = inputBox w → activeTextEditor w' = activeTextEditor w →
  plannedEdits compile json w' = plannedEdits compile json w.
Proof.
  intros Hbox Hed. unfold plannedEdits.
  pose proof (createRegExp_window compile json w w' Hbox) as Hfst.
  pose proof (createRegExp_editor compile json w) as [He _].
  pose proof (createRegExp_editor compile json w') as [He' _].
  destruct (createRegExp compile json w) as [o w1].
  destruct (createRegExp compile json w') as [o' w1'].
  simpl in *. subst o'. destruct o as [p|]; [|done].
  by rewrite He, He', Hed.
Qed.

Lemma windowLines_no_plan compile json w :
  plannedEdits compile json w = None →
  windowLines (alignCustomPattern compile json w) = windowLines w.
Proof.
  intros Hnone.
  destruct (alignCustomPattern_cases compile json w)
    as [[_ [->|[m ->]]]|(p & editor & ranges & _ & _ & _ & _ & _ & Hplan & _)];
    [done..|congruence].
Qed.

(** After a pass over cursors that reached its plan, a second pass with a
    pattern whose matches move with the padding reaches the empty plan. *)

(** ** The selections after the insertions *)

Lemma movePosition_other es p :
  line p ∉ (line ∘ target) <$> es → movePosition es p = p.
Proof.
  unfold movePosition. induction es as [|e es IH]; intros Hp; [done|].
  rewrite fmap_cons, not_elem_of_cons in Hp. destruct Hp as [Hne Hp].
  cbn [foldl]. unfold moveBy at 2. simpl in Hne.
  destruct (Nat.eqb_spec (line p) (line (target e))); [done|]. by apply IH.
Qed.

Lemma movePosition_target es e p :
  NoDup ((line ∘ target) <$> es) → e ∈ es → line p = line (target e) →
  movePosition es p = moveBy e p.
Proof.
  induction es as [|e0 es IH]; intros Hnd He Hp.
  { by apply elem_of_nil in He. }
  rewrite fmap_cons in Hnd. apply NoDup_cons in Hnd as [Hfresh Hnd].
  unfold movePosition. cbn [foldl]. fold (movePosition es (moveBy e0 p)).
  apply elem_of_cons in He as [->|He].
  - apply movePosition_other. by rewrite moveBy_line, Hp.
  - assert (moveBy e0 p = p) as ->; [|by apply IH].
    unfold moveBy. destruct (Nat.eqb_spec (line p) (line (target e0))) as [Heq|];
      [|done].
    exfalso. apply Hfresh. apply list_elem_of_fmap. exists e. split; [|done].
    simpl. congruence.
Qed.

Lemma claims_moveSelection es sels :
  claims (moveSelection es <$> sels) = claims sels.
Proof.
  induction sels as [|s sels IH]; [done|].
  rewrite fmap_cons, !claims_cons, IH.
  by rewrite sel_start_moveSelection, sel_end_moveSelection,
             !movePosition_line.
Qed.

Lemma wholeDocumentMode_moveSelection es sels :
  wholeDocumentMode (moveSelection es <$> sels) = wholeDocumentMode sels.
Proof.
  unfold wholeDocumentMode. rewrite length_fmap, list_lookup_fmap.
  destruct (sels !! 0) as [s|]; [|done]. simpl.
  by rewrite isEmpty_moveSelection.
Qed.

(** ** The selected part of a padded line *)

Lemma drop_insertInLine_before a i (u t : text) :
  a ≤ length t →
  drop a (insertInLine (i + a) u t) = insertInLine i u (drop a t).
Proof.
  intros Ha. unfold insertInLine, text in *.
  rewrite drop_app_le by (rewrite length_take; lia).
  rewrite drop_drop. f_equal; [|by rewrite (Nat.add_comm a i)].
  rewrite take_drop_commute. by rewrite (Nat.add_comm a i).
Qed.

Lemma take_insertInLine k i (u t : text) :
  i ≤ k → i ≤ length t →
  take (k + length u) (insertInLine i u t) = insertInLine i u (take k t).
Proof.
  intros Hik Hi. unfold insertInLine, text in *.
  rewrite take_app, length_take, (Nat.min_l i) by lia.
  rewrite (take_ge (take i t)) by (rewrite length_take; lia).
  rewrite take_take, (Nat.min_l i k) by lia. f_equal.
  rewrite take_app. rewrite (take_ge u) by lia. f_equal.
  replace (k + length u - i - length u) with (k - i) by lia.
  rewrite take_drop_commute. by replace (i + (k - i)) with k by lia.
Qed.

Lemma drop_insertInLine_behind i n (s : text) :
  drop (i + n) (insertInLine i (spaces n) s) = drop i s.
Proof.
  destruct (Nat.le_gt_cases i (length s)) as [Hi|Hi].
  { by apply drop_insertInLine_after. }
  unfold text in *. rewrite (drop_ge s) by lia.
  apply drop_ge. rewrite length_insertInLine_spaces. lia.
Qed.

(** The leftmost match in the selected part of a line, once the spaces
    are in front of the match and the part has moved with them. *)
Lemma permitted_padded m (t : text) lr lr' idx n :
  shiftStable m →
  (∀ b, endColumn lr = Some b → startColumn lr ≤ b) →
  leftmost m (permitted lr t) = Some idx →
  endColumn lr' = (λ b, b + n) <$> endColumn lr →
  (startColumn lr' = startColumn lr ∧ (startColumn lr ≤ length t ∨ n = 0)) ∨
    (idx = 0 ∧ startColumn lr' = startColumn lr + n) →
  ∃ idx', leftmost m (permitted lr'
                        (insertInLine (idx + startColumn lr) (spaces n) t))
          = Some idx' ∧
          idx' + startColumn lr' = idx + startColumn lr + n.
Proof.
  intros Hshift Hab Hidx He Hs.
  destruct lr as [l a e], lr' as [l' a' e']. simpl in *. subst e'.
  pose proof (leftmost_le _ _ _ Hidx) as Hle.
  unfold permitted in *. simpl in *.
  assert (length (spaces n) = n) as Hn
    by (unfold spaces; apply length_replicate).
  destruct Hs as [[-> [Ha| ->]]|[-> ->]].
  - exists (idx + n). split; [|lia].
    rewrite drop_insertInLine_before by done.
    destruct e as [b|]; simpl in *.
    + specialize (Hab b eq_refl).
      rewrite length_take, length_drop in Hle.
      replace (b + n - a) with ((b - a) + length (spaces n)) by lia.
      rewrite take_insertInLine by (rewrite ?length_drop; lia).
      by apply Hshift.
    + by apply Hshift.
  - exists idx. split; [|lia]. unfold spaces. simpl.
    rewrite insertInLine_nil.
    destruct e as [b|]; simpl in *; [|done]. by rewrite Nat.add_0_r.
  - exists 0. split; [|lia]. simpl.
    pose proof (drop_insertInLine_behind a n t) as Hdrop.
    destruct e as [b|]; simpl in *.
    + specialize (Hab b eq_refl).
      replace (b + n - (a + n)) with (b - a) by lia.
      unfold text in *. by rewrite Hdrop.
    + unfold text in *. by rewrite Hdrop.
Qed.

(** ** A second pass over the padded document *)

Section SecondPass.

Variables (m : Matcher) (d : TextDocument) (ranges : list Range).
Hypothesis Hshift : shiftStable m.
Hypothesis Hord : Forall ordered ranges.
Hypothesis Hnd : NoDup (scannedLines ranges).
Hypothesis Hin : inDocument d ranges.

(** The recorded match of a line is the match of the one visit of it. *)
Lemma hit_of_line r l pos :
  (r, l) ∈ scanned ranges → pos ∈ (hits m d ranges) → line pos = l →
  locate m d (r, l) = Some pos.
Proof.
  intros Hrl Hpos Hl. apply list_elem_of_omap in Hpos as (rl' & Hrl' & Hloc).
  pose proof (locate_line _ _ _ _ Hloc) as Hline.
  assert (rl' = (r, l)) as <-; [|done].
  apply (NoDup_fmap_eq snd (scanned ranges)); [exact Hnd|done|done|].
  simpl. congruence.
Qed.

Lemma found_NoDup : NoDup (line <$> (hits m d ranges)).
Proof. eapply sublist_NoDup; [exact Hnd|apply hits_lines]. Qed.

Lemma scanned_line r l : (r, l) ∈ scanned ranges → is_Some (lines d !! l).
Proof.
  intros Hrl. apply lookup_lt_is_Some_2.
  unfold inDocument in Hin. eapply Forall_forall in Hin; [exact Hin|].
  by apply (list_elem_of_fmap_2 snd) in Hrl.
Qed.

Lemma padded_hit_line r l pos (t : text) :
  (r, l) ∈ scanned ranges → locate m d (r, l) = Some pos →
  lines d !! l = Some t →
  lines (padded m d ranges) !! l
  = Some (insertInLine (character pos) (spaces ((rightColumn (hits m d ranges)) - character pos)) t) ∧
  character pos ≤ (rightColumn (hits m d ranges)) ∧ pos ∈ (hits m d ranges) ∧ line pos = l.
Proof.
  intros Hrl Hloc Ht.
  assert (pos ∈ (hits m d ranges)) as Hpos.
  { apply list_elem_of_omap. by exists (r, l). }
  pose proof (locate_line _ _ _ _ Hloc) as Hline. simpl in Hline.
  pose proof (rightmostOf_ge _ _ Hpos) as Hge.
  split_and!; [|unfold rightColumn; lia|done|done].
  unfold padded. cbn [lines]. rewrite <- Hline in Ht |- *.
  rewrite (applyEdits_planEdits_lookup _ _ _ pos t found_NoDup Hpos Ht).
  do 3 f_equal. unfold rightColumn. lia.
Qed.

Lemma padded_miss_line r l :
  (r, l) ∈ scanned ranges → locate m d (r, l) = None →
  lines (padded m d ranges) !! l = lines d !! l ∧
  ∀ pos, pos ∈ (hits m d ranges) → line pos ≠ l.
Proof.
  intros Hrl Hloc.
  assert (∀ pos, pos ∈ (hits m d ranges) → line pos ≠ l) as Hnone.
  { intros pos Hpos Hl. by rewrite (hit_of_line r l pos) in Hloc. }
  split; [|done]. unfold padded. cbn [lines].
  apply applyEdits_lookup_other.
  intros (e & Hline & (He & _)%elem_of_planEdits)%list_elem_of_fmap.
  simpl in Hline. by apply (Hnone (target e)).
Qed.

(** The match of a visited line after the insertions: at the rightmost
    column, when the range has followed the insertions. *)
Lemma locate_padded r r' l :
  (r, l) ∈ scanned ranges → rangeFollows d (hits m d ranges) (rightColumn (hits m d ranges)) r r' → ordered r' →
  locate m (padded m d ranges) (r', l) = atColumn (rightColumn (hits m d ranges)) <$> locate m d (r, l).
Proof.
  intros Hrl (Hls & Hle & Hstart & Hend & Hend0) Hord'.
  pose proof Hrl as [Hr Hl]%elem_of_scanned. simpl in Hr, Hl.
  pose proof Hord as Hordr. eapply Forall_forall in Hordr; [|exact Hr].
  destruct (scanned_line r l Hrl) as [t Ht].
  pose proof Hordr as Hcols. apply isBefore_false in Hcols.
  destruct (locate m d (r, l)) as [pos|] eqn:Hloc.
  - destruct (padded_hit_line r l pos t Hrl Hloc Ht)
      as (Ht' & HC & Hpos & Hline).
    unfold locate, lineAt in Hloc |- *. cbn [fst snd] in *.
    rewrite Ht in Hloc. rewrite Ht'. cbn [mbind option_bind] in *.
    rewrite selectedPart_lineRange in Hloc by done.
    rewrite selectedPart_lineRange by done. cbn [fst snd] in *.
    destruct (leftmost m (permitted (lineRangeOf r l) t)) as [idx|] eqn:Hidx;
      [|done].
    injection Hloc as <-. cbn [line character] in *.
    destruct (permitted_padded m t (lineRangeOf r l) (lineRangeOf r' l) idx
                (rightColumn (hits m d ranges)
                 - (idx + startColumn (lineRangeOf r l))))
      as (idx' & -> & Hsum); [done| |done| | |].
    + unfold lineRangeOf. intros b. repeat case_decide; simpl; try done.
      * intros [= <-]. lia.
      * intros [= <-]. lia.
    + pose proof (Hend _ Hpos) as Hend'. cbn [line character] in Hend'.
      revert Hend'. unfold lineRangeOf. rewrite Hls, Hle.
      repeat case_decide; simpl; intros Hend'; try done;
        f_equal; apply Hend'; lia.
    + assert (l = line (start r) →
              startColumn (lineRangeOf r l) = character (start r) ∧
              startColumn (lineRangeOf r' l) = character (start r')) as Hcol.
      { intros Hl0. unfold lineRangeOf. rewrite Hls, Hle.
        by repeat case_decide. }
      assert (l ≠ line (start r) →
              startColumn (lineRangeOf r l) = 0 ∧
              startColumn (lineRangeOf r' l) = 0) as Hcol0.
      { intros Hl0. unfold lineRangeOf. rewrite Hls, Hle.
        repeat case_decide; simpl; try done. lia. }
      destruct (decide (l = line (start r))) as [Hl0|Hl0].
      2: { destruct (Hcol0 Hl0) as [-> ->]. left. split; [done|left; lia]. }
      destruct (Hcol Hl0) as [Ha Ha']. rewrite Ha, Ha' in *. clear Hcol Hcol0.
      assert (idx = 0 → start r ∈ hits m d ranges) as Hzero.
      { intros ->. replace (start r) with (mkPosition l (0 + character (start r)));
          [done|].
        destruct (start r). simpl in *. by subst. }
      destruct Hstart as [[Hsame Hvalid]|[Hfound HM]].
      * left. split; [done|]. destruct idx as [|idx].
        -- destruct (Hvalid (Hzero eq_refl)) as [HM|Hlen].
           ++ right. lia.
           ++ left. unfold lineAt in Hlen. rewrite <- Hl0, Ht in Hlen.
              exact Hlen.
        -- left. apply leftmost_le in Hidx. revert Hidx.
           unfold lineRangeOf, permitted.
           repeat case_decide; simpl;
             rewrite ?length_take, ?length_drop; lia.
      * right.
        pose proof (hit_of_line r l (start r) Hrl Hfound (eq_sym Hl0)) as Hloc'.
        unfold locate, lineAt in Hloc'. cbn [fst snd] in Hloc'.
        rewrite Ht in Hloc'. cbn [mbind option_bind] in Hloc'.
        rewrite selectedPart_lineRange in Hloc' by done. cbn [fst snd] in Hloc'.
        rewrite Hidx in Hloc'. simpl in Hloc'. injection Hloc' as Hloc'.
        apply (f_equal character) in Hloc'. simpl in Hloc'.
        rewrite Ha in Hloc'. lia.
    + simpl. unfold atColumn. simpl. f_equal. f_equal. lia.
  - destruct (padded_miss_line r l Hrl Hloc) as [Ht' Hnone].
    unfold locate, lineAt in Hloc |- *. cbn [fst snd] in *.
    rewrite Ht'. rewrite Ht in Hloc |- *. cbn [mbind option_bind] in *.
    rewrite selectedPart_lineRange in Hloc by done.
    rewrite selectedPart_lineRange by done. cbn [fst snd] in *.
    assert (lineRangeOf r' l = lineRangeOf r l) as ->.
    { assert (l = line (start r) →
              character (start r') = character (start r)) as Hs.
      { intros Hl0. destruct Hstart as [[Hsame _]|[Hfound _]]; [done|].
        by destruct (Hnone _ Hfound). }
      assert (l = line (end_ r) →
              character (end_ r') = character (end_ r)) as He.
      { intros Hl1. apply Hend0. intros pos Hpos. rewrite <- Hl1.
        by apply Hnone. }
      unfold lineRangeOf. rewrite Hls, Hle.
      repeat case_decide; simpl; f_equal; try done.
      - apply Hs. lia.
      - f_equal. apply He. lia.
      - by apply Hs.
      - f_equal. by apply He. }
    destruct (leftmost m (permitted (lineRangeOf r l) t)); [done|done].
Qed.

(** The matches of a second scan, over ranges that have followed the
    insertions: the matches of the first scan, at the rightmost column. *)
Lemma hits_padded_part rs rs' :
  rs ⊆ ranges →
  Forall2 (rangeFollows d (hits m d ranges) (rightColumn (hits m d ranges)))
          rs rs' →
  Forall ordered rs' →
  omap (locate m (padded m d ranges)) (scanned rs')
  = atColumn (rightColumn (hits m d ranges))
      <$> omap (locate m d) (scanned rs).
Proof.
  intros Hsub Hfol. induction Hfol as [|r r' rs rs' Hr Hrs IH]; intros Hord';
    [done|].
  apply Forall_cons in Hord' as [Hor' Hord'].
  unfold scanned in *. rewrite !bind_cons, !omap_app, fmap_app. f_equal.
  - pose proof Hr as (Hls & Hle & _). rewrite Hls, Hle.
    assert (∀ l, l ∈ linesFromTo (line (start r)) (line (end_ r)) →
                 (r, l) ∈ scanned ranges) as Hvisit.
    { intros l Hl. apply elem_of_scanned. simpl. split; [set_solver|].
      by apply elem_of_linesFromTo. }
    induction (linesFromTo (line (start r)) (line (end_ r))) as [|l ls IHl];
      [done|].
    rewrite !fmap_cons. cbn [omap list_omap].
    rewrite (locate_padded r r' l) by (done || apply Hvisit; left).
    rewrite IHl by (intros l' Hl'; apply Hvisit; by right).
    by destruct (locate m d (r, l)).
  - apply IH; [set_solver|done].
Qed.

Lemma hits_padded ranges' :
  Forall2 (rangeFollows d (hits m d ranges) (rightColumn (hits m d ranges)))
          ranges ranges' →
  Forall ordered ranges' →
  hits m (padded m d ranges) ranges'
  = atColumn (rightColumn (hits m d ranges)) <$> hits m d ranges.
Proof. intros Hfol Hord'. by apply hits_padded_part. Qed.

(** A range that ends with the text of a line follows the insertions
    when it ends with the text of that line after them. *)
Lemma wholeLines_follow l0 l1 (t1 : text) :
  mkRange (mkPosition l0 0) (mkPosition l1 (length t1)) ∈ ranges →
  l0 ≤ l1 → lines d !! l1 = Some t1 →
  ∃ t1' : text,
    lines (padded m d ranges) !! l1 = Some t1' ∧
    rangeFollows d (hits m d ranges) (rightColumn (hits m d ranges))
      (mkRange (mkPosition l0 0) (mkPosition l1 (length t1)))
      (mkRange (mkPosition l0 0) (mkPosition l1 (length t1'))).
Proof.
  intros Hr Hl Ht1.
  set (r := mkRange (mkPosition l0 0) (mkPosition l1 (length t1))) in *.
  assert ((r, l1) ∈ scanned ranges) as Hrl.
  { apply elem_of_scanned. simpl. split; [done|lia]. }
  destruct (locate m d (r, l1)) as [pos|] eqn:Hloc.
  - destruct (padded_hit_line r l1 pos t1 Hrl Hloc Ht1)
      as (Ht' & HC & Hpos & Hline).
    eexists. split; [exact Ht'|].
    unfold rangeFollows. cbn [start end_ line character].
    split_and!; [done|done|left; split; [done|intros _; right; unfold r; simpl; lia]| |].
    + intros pos' Hpos' Hline'.
      pose proof (hit_of_line r l1 pos' Hrl Hpos' Hline') as Hloc'.
      assert (pos' = pos) as -> by congruence.
      apply length_insertInLine_spaces.
    + intros Hno. by destruct (Hno pos Hpos).
  - destruct (padded_miss_line r l1 Hrl Hloc) as [Ht' Hnone].
    exists t1. split; [by rewrite Ht'|].
    unfold rangeFollows. cbn [start end_ line character].
    split_and!; [done|done|left; split; [done|intros _; right; unfold r; simpl; lia]| |done].
    intros pos Hpos Hline. by destruct (Hnone pos Hpos).
Qed.

(** Where the insertions of the plan take a position. *)
Lemma movePosition_plan_miss q :
  (∀ pos, pos ∈ hits m d ranges → line pos ≠ line q) →
  movePosition (planEdits (hits m d ranges) (rightmostOf (hits m d ranges))) q
  = q.
Proof.
  intros Hnone. apply movePosition_other.
  intros (e & Hline & (He & _)%elem_of_planEdits)%list_elem_of_fmap.
  simpl in Hline. by apply (Hnone (target e)).
Qed.

Lemma movePosition_plan_hit q pos :
  pos ∈ hits m d ranges → line pos = line q →
  character
    (movePosition
       (planEdits (hits m d ranges) (rightmostOf (hits m d ranges))) q)
  = if character pos <=? character q
    then character q + (rightColumn (hits m d ranges) - character pos)
    else character q.
Proof.
  intros Hpos Hline. pose proof (rightmostOf_ge _ _ Hpos) as Hge.
  destruct (decide (Z.of_nat (character pos) < rightmostOf (hits m d ranges))%Z)
    as [Hlt|Hnlt].
  - rewrite (movePosition_target _
               (mkInsertion pos
                  (Z.to_nat (rightmostOf (hits m d ranges)
                             - Z.of_nat (character pos))))).
    + unfold moveBy. cbn [target spaceCount]. rewrite Hline, Nat.eqb_refl.
      cbn [andb]. destruct (character pos <=? character q); [|done].
      simpl. unfold rightColumn. lia.
    + apply planEdits_NoDup, found_NoDup.
    + apply elem_of_planEdits. simpl. split; [done|]. lia.
    + done.
  - rewrite movePosition_other.
    + destruct (character pos <=? character q); [|done].
      unfold rightColumn. lia.
    + intros (e & Hl & (He & Hlt & _)%elem_of_planEdits)%list_elem_of_fmap.
      simpl in Hl.
      assert (target e = pos) as Heq.
      { apply (NoDup_fmap_eq line (hits m d ranges));
          [apply found_NoDup|done|done|congruence]. }
      rewrite Heq in Hlt. lia.
Qed.

(** The match of the first line of a range is not before its start, and
    the match of its last line is not after its end. *)
Lemma hit_in_range r l pos :
  ordered r → line (start r) ≤ l ≤ line (end_ r) →
  locate m d (r, l) = Some pos →
  (l = line (start r) → character (start r) ≤ character pos) ∧
  (l = line (end_ r) → character pos ≤ character (end_ r)).
Proof.
  intros Hordr Hl Hloc. unfold locate, lineAt in Hloc. cbn [fst snd] in Hloc.
  destruct (lines d !! l) as [t|]; [|done]. cbn [mbind option_bind] in Hloc.
  rewrite selectedPart_lineRange in Hloc by done. cbn [fst snd] in Hloc.
  destruct (leftmost m (permitted (lineRangeOf r l) t)) as [idx|] eqn:Hidx;
    [|done].
  injection Hloc as <-. apply leftmost_le in Hidx. apply isBefore_false in Hordr.
  revert Hidx. unfold lineRangeOf, permitted.
  repeat case_decide; simpl; rewrite ?length_take, ?length_drop; lia.
Qed.

(** A range of the scan follows the insertions when the host moves its
    two ends. *)
Lemma moved_range_follows r :
  r ∈ ranges →
  rangeFollows d (hits m d ranges) (rightColumn (hits m d ranges)) r
    (mkRange
       (movePosition
          (planEdits (hits m d ranges) (rightmostOf (hits m d ranges)))
          (start r))
       (movePosition
          (planEdits (hits m d ranges) (rightmostOf (hits m d ranges)))
          (end_ r))).
Proof.
  intros Hr.
  pose proof Hord as Hordr. eapply Forall_forall in Hordr; [|exact Hr].
  pose proof (ordered_lines _ Hordr) as Hlines.
  assert ((r, line (start r)) ∈ scanned ranges) as Hfirst.
  { apply elem_of_scanned. simpl. split; [done|lia]. }
  assert ((r, line (end_ r)) ∈ scanned ranges) as Hlast.
  { apply elem_of_scanned. simpl. split; [done|lia]. }
  unfold rangeFollows. cbn [start end_].
  rewrite !movePosition_line. split_and!; [done|done| | |].
  - destruct (locate m d (r, line (start r))) as [pos|] eqn:Hloc.
    + destruct (scanned_line _ _ Hfirst) as [t Ht].
      destruct (padded_hit_line _ _ pos t Hfirst Hloc Ht)
        as (_ & HC & Hpos & Hline).
      destruct (hit_in_range r (line (start r)) pos Hordr) as [Hge _];
        [lia|done|].
      specialize (Hge eq_refl).
      rewrite (movePosition_plan_hit _ pos Hpos Hline).
      destruct (Nat.leb_spec (character pos) (character (start r))) as [Hle|Hgt].
      * right.
        assert (start r = pos) as Heq.
        { destruct (start r), pos. simpl in *. f_equal; lia. }
        split; [by rewrite Heq|]. lia.
      * left. split; [done|]. intros Hfound.
        pose proof (hit_of_line r _ (start r) Hfirst Hfound eq_refl) as Hloc'.
        rewrite Hloc in Hloc'. injection Hloc' as ->. lia.
    + destruct (padded_miss_line _ _ Hfirst Hloc) as [_ Hnone].
      left. rewrite movePosition_plan_miss by done. split; [done|].
      intros Hfound. by destruct (Hnone _ Hfound).
  - intros pos Hpos Hline.
    pose proof (hit_of_line r (line (end_ r)) pos Hlast Hpos Hline) as Hloc.
    destruct (hit_in_range r (line (end_ r)) pos Hordr) as [_ Hle];
      [lia|done|].
    specialize (Hle eq_refl).
    rewrite (movePosition_plan_hit _ pos Hpos Hline).
    by destruct (Nat.leb_spec (character pos) (character (end_ r))); [|lia].
  - intros Hnone. by rewrite movePosition_plan_miss.
Qed.

(** The selections that the host has moved resolve into ranges that
    follow the insertions. *)
Lemma selectRanges_padded sels :
  selectRanges d sels = Done ranges →
  ∃ ranges',
    selectRanges (padded m d ranges)
      (moveSelection
         (planEdits (hits m d ranges) (rightmostOf (hits m d ranges)))
         <$> sels)
    = Done ranges' ∧
    Forall2 (rangeFollows d (hits m d ranges) (rightColumn (hits m d ranges)))
            ranges ranges'.
Proof.
  intros Hsel.
  assert (lineCount (padded m d ranges) = lineCount d) as Hcount
    by apply length_applyEdits.
  destruct (wholeDocumentMode sels) eqn:Hmode.
  - unfold wholeDocumentMode in Hmode.
    destruct sels as [|s [|s' sels]]; try done.
    simpl in Hmode. rename Hmode into Hempty.
    assert (2 ≤ lineCount d) as Hlen.
    { unfold selectRanges in Hsel. simpl in Hsel. rewrite Hempty in Hsel.
      simpl in Hsel. by destruct (Nat.ltb_spec (lineCount d) 2). }
    destruct (selectRanges_document d s Hempty Hlen) as (t & Ht & Hdoc).
    rewrite Hdoc in Hsel. injection Hsel as Hranges.
    destruct (wholeLines_follow 0 (lineCount d - 1) t) as (t' & Ht' & Hfol);
      [rewrite <- Hranges; by left|lia|done|].
    destruct (selectRanges_document (padded m d ranges)
                (moveSelection
                   (planEdits (hits m d ranges)
                      (rightmostOf (hits m d ranges))) s))
      as (t'' & Ht'' & Hdoc').
    { by rewrite isEmpty_moveSelection. }
    { by rewrite Hcount. }
    rewrite Hcount in Ht'', Hdoc'. unfold lineAt in Ht''.
    assert (t'' = t') as -> by congruence.
    eexists. split; [exact Hdoc'|].
    assert (Forall2 (rangeFollows d (hits m d ranges)
                       (rightColumn (hits m d ranges)))
              [mkRange (mkPosition 0 0)
                       (mkPosition (lineCount d - 1) (length t))]
              [mkRange (mkPosition 0 0)
                       (mkPosition (lineCount d - 1) (length t'))]) as Hall
      by (constructor; [exact Hfol|constructor]).
    by rewrite Hranges in Hall.
  - apply selectRanges_selection in Hsel as (Hcur & Hndc & Hlen & Hranges);
      [|done].
    eexists. split.
    + apply selectRanges_selection;
        [by rewrite wholeDocumentMode_moveSelection|].
      rewrite claims_moveSelection. split_and!; [|done|done|reflexivity].
      unfold cursorsInDocument in *. rewrite Forall_fmap.
      eapply Forall_impl; [exact Hcur|]. intros s Hs. simpl.
      by rewrite isEmpty_moveSelection, sel_start_moveSelection,
                 movePosition_line, Hcount.
    + assert (Forall2 (rangeFollows d (hits m d ranges)
                         (rightColumn (hits m d ranges)))
                (selectionRange d <$> sels)
                (selectionRange (padded m d ranges)
                   <$> (moveSelection
                          (planEdits (hits m d ranges)
                             (rightmostOf (hits m d ranges))) <$> sels)))
        as Hall; [|by rewrite <- Hranges in Hall].
      rewrite <- list_fmap_compose. apply Forall2_fmap, Forall_Forall2_diag.
      apply Forall_forall. intros s Hs. simpl.
      assert (selectionRange d s ∈ ranges) as Hr.
      { rewrite Hranges. by apply list_elem_of_fmap_2. }
      unfold selectionRange in Hr |- *. rewrite isEmpty_moveSelection.
      rewrite sel_start_moveSelection, sel_end_moveSelection.
      destruct (isEmpty s) eqn:Hempty.
      * rewrite movePosition_line. unfold wholeLine, lineAt in Hr |- *.
        eapply Forall_forall in Hcur; [|exact Hs].
        destruct (lookup_lt_is_Some_2 (lines d) (line (sel_start s)))
          as [t Ht]; [by apply Hcur|].
        rewrite Ht in Hr |- *. cbn [default from_option id] in Hr |- *.
        destruct (wholeLines_follow (line (sel_start s))
                    (line (sel_start s)) t) as (t' & Ht' & Hfol);
          [done|lia|done|].
        by rewrite Ht'.
      * by apply (moved_range_follows (mkRange (sel_start s) (sel_end s))).
Qed.

End SecondPass.

Lemma scannedLines_follow d found M rs rs' :
  Forall2 (rangeFollows d found M) rs rs' → scannedLines rs' = scannedLines rs.
Proof.
  unfold scannedLines, scanned.
  induction 1 as [|r r' rs rs' (Hls & Hle & _) _ IH]; [done|].
  by rewrite !bind_cons, !fmap_app, IH, <- !list_fmap_compose, Hls, Hle.
Qed.

(** After a pass that reached its plan, a second pass with a pattern
    whose matches move with the padding reaches the empty plan. *)
Lemma second_pass_aligned compile json w p editor ranges :
  (createRegExp compile json w).1 = Some p →
  activeTextEditor w = Some editor →
  selectRanges (document editor) (selections editor) = Done ranges →
  inDocument (document editor) ranges →
  2 ≤ length (hits (matcher p) (document editor) ranges) →
  shiftStable (matcher p) →
  plannedEdits compile json (alignCustomPattern compile json w) = Some [] ∧
  alignCustomPattern compile json (alignCustomPattern compile json w)
  = alignCustomPattern compile json w.
Proof.
  intros Hp Hed Hsel Hin Hfound Hshift.
  pose proof (selectRanges_Done _ _ _ Hsel) as [Hord Hnd].
  destruct (alignCustomPattern_ranges compile json w p editor ranges)
    as [Hrun _]; [done..|].
  simpl in Hrun.
  destruct (selectRanges_padded (matcher p) (document editor) ranges
              Hord Hnd Hin (selections editor) Hsel)
    as (ranges' & Hsel' & Hfol).
  pose proof (selectRanges_Done _ _ _ Hsel') as [Hord' _].
  pose proof (hits_padded (matcher p) (document editor) ranges
                Hshift Hord Hnd Hin ranges' Hfol Hord') as Hfound'.
  assert (inDocument (padded (matcher p) (document editor) ranges) ranges')
    as Hin'.
  { unfold inDocument in *. rewrite (scannedLines_follow _ _ _ _ _ Hfol).
    unfold lineCount, padded. cbn [lines]. by rewrite length_applyEdits. }
  set (found := hits (matcher p) (document editor) ranges) in *.
  destruct (Nat.eqb_spec (length found) 0) as [|_]; [lia|].
  destruct (Nat.eqb_spec (length found) 1) as [|_]; [lia|].
  rewrite Hrun.
  set (plan := planEdits found (rightmostOf found)) in *.
  set (editor' := mkEditor (padded (matcher p) (document editor) ranges)
                    (moveSelection plan <$> selections editor)).
  assert (editDocument plan w = mkWindow (Some editor') (inputBox w) (shown w))
    as Hw1 by (unfold editDocument; by rewrite Hed).
  rewrite Hw1. set (w1 := mkWindow (Some editor') (inputBox w) (shown w)).
  destruct (alignCustomPattern_ranges compile json w1 p editor' ranges')
    as [Hrun' Hplan']; [|done..|].
  { by rewrite (createRegExp_window compile json w w1). }
  cbn [document editor'] in Hrun', Hplan'. cbv zeta in Hrun', Hplan'.
  rewrite Hfound' in Hrun', Hplan'.
  rewrite length_fmap in Hrun', Hplan'.
  destruct (Nat.eqb_spec (length found) 0) as [|_]; [lia|].
  destruct (Nat.eqb_spec (length found) 1) as [|_]; [lia|].
  destruct (Nat.ltb_spec (length found) 2) as [|_]; [lia|].
  assert (planEdits (atColumn (rightColumn found) <$> found)
            (rightmostOf (atColumn (rightColumn found) <$> found)) = [])
    as Hnil.
  { apply planEdits_all_rightmost.
    rewrite (rightmostOf_constant _ (rightColumn found)).
    - apply Forall_fmap, Forall_forall. done.
    - destruct found; simpl in *; [lia|done].
    - apply Forall_fmap, Forall_forall. done. }
  rewrite Hnil in Hrun', Hplan'. split; [done|].
  rewrite Hrun'. apply editDocument_nil.
Qed.

(** With such a pattern, the lines after two runs are the lines after
    one. *)
Lemma second_run_keeps_lines compile json w :
  (∀ p, (createRegExp compile json w).1 = Some p → shiftStable (matcher p)) →
  windowLines (alignCustomPattern compile json
                 (alignCustomPattern compile json w))
  = windowLines (alignCustomPattern compile json w).
Proof.
  intros Hshift.
  destruct (alignCustomPattern_cases compile json w)
    as [[Hnone [Hw|[m Hw]]]|(p & editor & ranges & Hp & Hed & Hsel & Hin & Hlen & _ & _)].
  - by rewrite !Hw.
  - rewrite Hw. apply windowLines_no_plan.
    by rewrite (plannedEdits_window compile json w).
  - destruct (second_pass_aligned compile json w p editor ranges)
      as [_ ->]; auto.
Qed.

(** C2, as the script has it.  Let the pattern be one whose leftmost match
    moves with the spaces put in front of it: whatever the text and the
    number of spaces, once the spaces are inserted at the leftmost match,
    the leftmost match is that many columns further.  When a pass of the
    alignment reaches its plan, it makes the insertions of the plan
    without a message, the host moves the selections along, and a second
    pass with the same argument in the window the first one leaves plans
    no insertion at all and leaves the window as it is.  The selections
    are any the script accepts: a bare cursor for the whole document,
    cursors for their lines, spans. *)
Theorem second_pass_plans_nothing compile json w p plan :
  (createRegExp compile json w).1 = Some p →
  shiftStable (matcher p) →
  plannedEdits compile json w = Some plan →
  let w1 := alignCustomPattern compile json w in
  w1 = editDocument plan w ∧
  shown w1 = shown w ∧
  plannedEdits compile json w1 = Some [] ∧
  alignCustomPattern compile json w1 = w1.
Proof.
  intros Hp Hshift Hplan w1. subst w1.
  destruct (alignCustomPattern_cases compile json w)
    as [[Hnone _]|(p' & editor & ranges & Hp' & Hed & Hsel & Hin & Hlen & Hplan' & Hw)];
    [congruence|].
  assert (p' = p) as -> by congruence.
  destruct (second_pass_aligned compile json w p editor ranges)
    as [Hnil Hsame]; [done..|].
  rewrite Hplan in Hplan'. injection Hplan' as ->.
  split_and!; [done| |done|done].
  rewrite Hw. unfold editDocument. by rewrite Hed.
Qed.

Lemma second_pass_plans_nothing_witness :
  let w := exampleWindow "c" ["aa=1"; "b=2"; "skip"; "cccc=3"]
             [span 0 0 1 2; cursor 3 0] in
  let w1 := alignCustomPattern Fragment_engine.compile (JString "=") w in
  windowLines w1 = txt <$> ["aa  =1"; "b   =2"; "skip"; "cccc=3"] ∧
  (selections <$> activeTextEditor w1) = Some [span 0 0 1 5; cursor 3 0] ∧
  plannedEdits Fragment_engine.compile (JString "=") w1 = Some [] ∧
  alignCustomPattern Fragment_engine.compile (JString "=") w1 = w1.
Proof.
  intros w w1.
  destruct (second_pass_plans_nothing Fragment_engine.compile (JString "=") w
              (mkRegExp "=" (Fragment.matchAt (Fragment.Chr "=")) false false 0)
              [mkInsertion (mkPosition 0 2) 2; mkInsertion (mkPosition 1 1) 3])
    as (_ & _ & Hplan & Hrun).
  - reflexivity.
  - by apply literal_shiftStable.
  - reflexivity.
  - split; [reflexivity|]. split; [reflexivity|]. split; [exact Hplan|exact Hrun].
Defined.


(** ** The commands with the engine of the fragment *)

Lemma createRegExp_fragment json w p :
  (createRegExp Fragment_engine.compile json w).1 = Some p →
  ∃ r, Fragment.parse (source p) = Some r ∧ matcher p = Fragment.matchAt r.
Proof.
  assert (∀ s, newRegExp Fragment_engine.compile s = inr p →
               ∃ r, Fragment.parse (source p) = Some r ∧
                    matcher p = Fragment.matchAt r) as Hnew.
  { intros s. unfold newRegExp, Fragment_engine.compile.
    destruct (Fragment.parse s) as [r|] eqn:Hr; [|done].
    intros [= <-]. simpl. eauto. }
  unfold createRegExp. destruct json as [s| |j|]; simpl.
  - destruct (newRegExp Fragment_engine.compile s) eqn:E; simpl; [done|].
    intros [= ->]. eauto.
  - destruct (inputBox w) as [s|]; simpl; [|done].
    destruct (newRegExp Fragment_engine.compile s) eqn:E; simpl; [done|].
    intros [= ->]. eauto.
  - done.
  - done.
Qed.

(** The selected part of a line is a piece of the line that begins at
    the column recorded for it. *)
Lemma selectedPart_piece r l (t : text) :
  ordered r →
  ∃ tail, drop (selectedPart r l t).2 t = (selectedPart r l t).1 ++ tail.
Proof.
  intros Hord. rewrite selectedPart_lineRange by done. simpl.
  unfold permitted. destruct (endColumn (lineRangeOf r l)) as [e|].
  - eexists. symmetry. apply take_drop.
  - exists []. by rewrite app_nil_r.
Qed.

(** A recorded match of a pattern of the fragment is a match in the full
    line at the recorded column. *)
Lemma hit_matches_line r d ranges pos (t : text) :
  Forall ordered ranges → startsInLines d ranges →
  pos ∈ hits (Fragment.matchAt r) d ranges →
  lines d !! line pos = Some t →
  ∃ u rest, drop (character pos) t = u ++ rest ∧ accepts r u.
Proof.
  intros Hord Hstarts Hpos Ht.
  pose proof (hits_within _ _ _ _ _ Hord Hstarts Hpos Ht) as Hc.
  apply list_elem_of_omap in Hpos as ([r0 l] & Hrl & Hloc).
  apply elem_of_scanned in Hrl as [Hr Hl]. simpl in Hr, Hl.
  unfold locate, lineAt in Hloc. simpl in Hloc.
  destruct (lines d !! l) as [t'|] eqn:Ht'; simpl in Hloc; [|done].
  destruct (leftmost (Fragment.matchAt r) (selectedPart r0 l t').1)
    as [index|] eqn:Hi; simpl in Hloc; [|done].
  injection Hloc as <-. cbn [line character] in *.
  assert (t' = t) as -> by congruence.
  eapply Forall_forall in Hord; [|exact Hr].
  apply leftmost_Some in Hi as (Hle & Hsome & _).
  apply matchAt_accepts in Hsome as (u & rest & Hdrop & Hu); [|done].
  destruct (selectedPart_piece r0 l t Hord) as [tail Htail].
  exists u, (rest ++ tail). split; [|done].
  rewrite Nat.add_comm, <- drop_drop, Htail.
  rewrite drop_app_le by done. by rewrite Hdrop, <- app_assoc.
Qed.

(** X11. With a pattern of the fragment, when the command reaches its
    plan, the pattern matches afterwards at the rightmost recorded column
    on every line on which a match was recorded: the matches are aligned.
    The ranges are taken to start inside their lines, as the host has
    it. *)
Theorem pattern_matches_at_rightmost_column json w p editor ranges plan :
  (createRegExp Fragment_engine.compile json w).1 = Some p →
  activeTextEditor w = Some editor →
  selectRanges (document editor) (selections editor) = Done ranges →
  startsInLines (document editor) ranges →
  plannedEdits Fragment_engine.compile json w = Some plan →
  let found := hits (matcher p) (document editor) ranges in
  let M := Z.to_nat (rightmostOf found) in
  ∀ pos, pos ∈ found →
    ∃ t', windowLines (alignCustomPattern Fragment_engine.compile json w)
            !! line pos = Some t' ∧
          is_Some (matcher p t' M).
Proof.
  intros Hp Hed Hsel Hstarts Hplan found M pos Hpos.
  destruct (matched_line_after_plan Fragment_engine.compile json w p editor
              ranges plan pos) as (HM & t & Ht & Hc & Ht'); [done..|].
  fold found in HM, Ht'. fold M in HM, Ht'.
  eexists. split; [exact Ht'|].
  destruct (createRegExp_fragment _ _ _ Hp) as (r & _ & Hm).
  pose proof (selectRanges_Done _ _ _ Hsel) as [Hord _].
  subst found. rewrite Hm in *.
  destruct (hit_matches_line r _ _ _ _ Hord Hstarts Hpos Ht)
    as (u & rest & Hdrop & Hu).
  apply matchAt_accepts.
  { rewrite length_insertInLine_spaces. lia. }
  exists u, rest. split; [|done].
  replace M with (character pos + (M - character pos)) at 1 by lia.
  by rewrite drop_insertInLine_after.
Qed.

Lemma pattern_matches_at_rightmost_column_witness :
  let w := exampleWindow "python" ["a = 1 # one"; "bb = 22 # two"]
             [cursor 0 0] in
  ∃ t', windowLines (alignCustomPattern Fragment_engine.compile
                       (JString "#") w) !! 0 = Some t' ∧
        is_Some (Fragment.matchAt (Fragment.Chr "#") t' 8).
Proof.
  intros w.
  edestruct (pattern_matches_at_rightmost_column (JString "#") w)
    as (t' & Ht' & Hmatch);
    [reflexivity|reflexivity|reflexivity| |reflexivity| |].
  - repeat constructor. intros t _. simpl. lia.
  - apply (list_elem_of_here (mkPosition 0 6)).
  - exists t'. split; [exact Ht'|exact Hmatch].
Defined.


(** ** Running [alignAssignmentOperators] twice *)

Lemma assignmentRegex_parse : Fragment.parse " = " = Some assignmentRegex.
Proof. reflexivity. Qed.

(** The assignment pattern matches at an index exactly when a space, an
    equals sign and a space are there. *)
Lemma assignmentRegex_matchAt (s : text) j :
  is_Some (Fragment.matchAt assignmentRegex s j) ↔
  s !! j = Some " "%char ∧ s !! S j = Some "="%char ∧
  s !! S (S j) = Some " "%char.
Proof.
  unfold Fragment.matchAt, assignmentRegex. simpl.
  destruct (s !! j) as [a|]; [|split; [by intros [??]|by intros [? _]]].
  destruct (Ascii.eqb_spec a " ") as [->|Ha].
  2: { split; [by intros [??]|]. intros [[= ?] _]. done. }
  destruct (s !! S j) as [b|]; [|split; [by intros [??]|by intros (_ & ? & _)]].
  destruct (Ascii.eqb_spec b "=") as [->|Hb].
  2: { split; [by intros [??]|]. intros (_ & [= ?] & _). done. }
  destruct (s !! S (S j)) as [c|]; [|split; [by intros [??]|by intros (_ & _ & ?)]].
  destruct (Ascii.eqb_spec c " ") as [->|Hc].
  2: { split; [by intros [??]|]. intros (_ & _ & [= ?]). done. }
  split; [done|eauto].
Qed.

Lemma lookup_insertInLine i n (s : text) j :
  i ≤ length s →
  insertInLine i (spaces n) s !! j
  = if j <? i then s !! j
    else if j <? i + n then Some " "%char
    else s !! (j - n).
Proof.
  intros Hi. unfold insertInLine, spaces, text in *.
  destruct (Nat.ltb_spec j i).
  { rewrite lookup_app_l by (rewrite length_take; lia).
    by rewrite lookup_take_lt. }
  rewrite lookup_app_r by (rewrite length_take; lia).
  rewrite length_take, Nat.min_l by done.
  destruct (Nat.ltb_spec j (i + n)).
  { rewrite lookup_app_l by (rewrite length_replicate; lia).
    apply lookup_replicate_2. lia. }
  rewrite lookup_app_r by (rewrite length_replicate; lia).
  rewrite length_replicate, lookup_drop. f_equal. lia.
Qed.

(** The match of the assignment pattern moves with the spaces put in
    front of it. *)
Lemma assignmentRegex_shiftStable :
  shiftStable (Fragment.matchAt assignmentRegex).
Proof.
  intros s i n Hleft.
  destruct n as [|n].
  { unfold spaces. simpl. by rewrite insertInLine_nil, Nat.add_0_r. }
  apply leftmost_Some in Hleft as (Hi & Hsome & Hnone).
  apply assignmentRegex_matchAt in Hsome as (H0 & H1 & H2).
  assert (∀ k, k < i →
            ¬ (s !! k = Some " "%char ∧ s !! S k = Some "="%char ∧
               s !! S (S k) = Some " "%char)) as Hno.
  { intros k Hk Hmatch. apply assignmentRegex_matchAt in Hmatch as [e He].
    rewrite Hnone in He by done. done. }
  apply leftmost_Some. rewrite length_insertInLine_spaces.
  split; [lia|]. split.
  - apply assignmentRegex_matchAt. rewrite !lookup_insertInLine by done.
    destruct (Nat.ltb_spec (i + S n) i); [lia|].
    destruct (Nat.ltb_spec (S (i + S n)) i); [lia|].
    destruct (Nat.ltb_spec (S (S (i + S n))) i); [lia|].
    destruct (Nat.ltb_spec (i + S n) (i + S n)); [lia|].
    destruct (Nat.ltb_spec (S (i + S n)) (i + S n)); [lia|].
    destruct (Nat.ltb_spec (S (S (i + S n))) (i + S n)); [lia|].
    replace (i + S n - S n) with i by lia.
    replace (S (i + S n) - S n) with (S i) by lia.
    replace (S (S (i + S n)) - S n) with (S (S i)) by lia. done.
  - intros j Hj.
    destruct (Fragment.matchAt assignmentRegex
                (insertInLine i (spaces (S n)) s) j) as [e|] eqn:E; [|done].
    exfalso.
    assert (is_Some (Fragment.matchAt assignmentRegex
                       (insertInLine i (spaces (S n)) s) j)) as Hmatch
      by (rewrite E; eauto).
    apply assignmentRegex_matchAt in Hmatch as (M0 & M1 & M2).
    rewrite !lookup_insertInLine in M0, M1, M2 by done.
    destruct (Nat.ltb_spec j i) as [Hji|Hji].
    + destruct (Nat.ltb_spec (S j) i) as [Hj1|Hj1].
      * destruct (Nat.ltb_spec (S (S j)) i) as [Hj2|Hj2].
        -- by apply (Hno j).
        -- destruct (Nat.ltb_spec (S (S j)) (i + S n)); [|lia].
           assert (S (S j) = i) as Heq by lia.
           apply (Hno j); [lia|]. by rewrite Heq.
      * destruct (Nat.ltb_spec (S j) (i + S n)); [done|lia].
    + destruct (Nat.ltb_spec j (i + S n)); [|lia].
      destruct (Nat.ltb_spec (S j) i); [lia|].
      destruct (Nat.ltb_spec (S j) (i + S n)); [done|].
      replace (S j - S n) with i in M1 by lia. congruence.
Qed.

(** X12. With bare cursors as the selections (one for the whole document,
    or several for their lines), aligning the assignment operators a second
    time changes no line: the lines after two runs are the lines after
    one. *)
Theorem assignments_align_once w :
  cursorsOnly w →
  windowLines (alignAssignmentOperators Fragment_engine.compile
                 (alignAssignmentOperators Fragment_engine.compile w))
  = windowLines (alignAssignmentOperators Fragment_engine.compile w).
Proof.
  intros Hcursors. unfold alignAssignmentOperators.
  apply second_run_keeps_lines.
  intros p Hp. simpl in Hp. injection Hp as <-. simpl.
  apply assignmentRegex_shiftStable.
Qed.

Lemma assignments_align_once_witness :
  let w := exampleWindow "c" ["x = 1"; "yy   = 2"; "z =  = 3"] [cursor 1 2] in
  let w1 := alignAssignmentOperators Fragment_engine.compile w in
  windowLines w1 = txt <$> ["x    = 1"; "yy   = 2"; "z    =  = 3"] ∧
  windowLines (alignAssignmentOperators Fragment_engine.compile w1)
  = windowLines w1.
Proof.
  intros w w1. split; [reflexivity|].
  apply (assignments_align_once w). intros editor [= <-].
  by repeat constructor.
Defined.


(** ** Running [alignComments] twice *)

(** Every comment pattern but that of reStructuredText, and the fallback,
    is a pattern of the fragment that matches neither a space nor the empty
    string. *)
Lemma commentPattern_spaceFree lang :
  lang ≠ "restructuredtext" →
  ∃ r, Fragment.parse (commentPattern lang) = Some r ∧
       spaceFree r = true ∧ nonNullable r = true.
Proof.
  unfold commentPattern.
  destruct (COMMENT_PATTERNS !! lang) as [src|] eqn:Hsrc; simpl.
  2: { intros _. eexists. split; [reflexivity|done]. }
  revert lang src Hsrc.
  change (map_Forall
            (λ lang src, lang ≠ "restructuredtext" →
               ∃ r, Fragment.parse src = Some r ∧
                    spaceFree r = true ∧ nonNullable r = true)
            COMMENT_PATTERNS).
  unfold COMMENT_PATTERNS. apply map_Forall_to_list.
  rewrite map_to_list_to_map.
  - repeat (constructor;
            [first [by (intros _; eexists; split; [reflexivity|done])
                   |by (intros H; destruct H)]|]).
    constructor.
  - apply (bool_decide_unpack _). by vm_compute.
Qed.

(** What a command keeps of the editor. *)
Lemma alignCustomPattern_editor compile json w :
  (languageId ∘ document <$> activeTextEditor (alignCustomPattern compile json w))
  = (languageId ∘ document <$> activeTextEditor w) ∧
  (fmap isEmpty ∘ selections
     <$> activeTextEditor (alignCustomPattern compile json w))
  = (fmap isEmpty ∘ selections <$> activeTextEditor w).
Proof.
  destruct (alignCustomPattern_cases compile json w)
    as [[_ [Hw|[m Hw]]]|(p & editor & ranges & _ & Hed & _ & _ & _ & _ & Hw)];
    rewrite Hw; [done..|].
  unfold editDocument. rewrite Hed. simpl. split; [done|]. f_equal.
  rewrite <- list_fmap_compose. apply list_fmap_ext.
  intros i s _. apply isEmpty_moveSelection.
Qed.

Lemma cursorsOnly_alignCustomPattern compile json w :
  cursorsOnly w → cursorsOnly (alignCustomPattern compile json w).
Proof.
  intros Hcursors editor' Hed'.
  destruct (alignCustomPattern_editor compile json w) as [_ Hsels].
  rewrite Hed' in Hsels. simpl in Hsels.
  destruct (activeTextEditor w) as [editor|] eqn:Hed; [|done].
  injection Hsels as Hsels.
  assert (Forall (λ b, b = true) (isEmpty <$> selections editor')) as Hall.
  { rewrite Hsels. apply Forall_fmap. by apply Hcursors. }
  by apply Forall_fmap in Hall.
Qed.

(** X13. With bare cursors as the selections and a document of any
    language but reStructuredText, in the table or not, aligning the
    comments a second time changes no line: the lines after two runs are
    the lines after one. *)
Theorem comments_align_once w :
  cursorsOnly w →
  (∀ editor, activeTextEditor w = Some editor →
             languageId (document editor) ≠ "restructuredtext") →
  windowLines (alignComments Fragment_engine.compile
                 (alignComments Fragment_engine.compile w))
  = windowLines (alignComments Fragment_engine.compile w).
Proof.
  intros Hcursors Hlang.
  destruct (activeTextEditor w) as [editor|] eqn:Hed.
  2: { unfold alignComments. rewrite Hed. simpl. by rewrite Hed. }
  specialize (Hlang editor eq_refl).
  destruct (commentPattern_spaceFree _ Hlang) as (r & Hparse & Hfree & Hnn).
  set (src := commentPattern (languageId (document editor))) in *.
  assert (alignComments Fragment_engine.compile w
          = alignCustomPattern Fragment_engine.compile (JString src) w) as Hw.
  { unfold alignComments. by rewrite Hed. }
  rewrite Hw.
  destruct (alignCustomPattern_editor Fragment_engine.compile (JString src) w)
    as [Hsame _].
  destruct (activeTextEditor
              (alignCustomPattern Fragment_engine.compile (JString src) w))
    as [editor'|] eqn:Hed'; rewrite Hed in Hsame; [|done].
  injection Hsame as Hsame.
  assert (alignComments Fragment_engine.compile
            (alignCustomPattern Fragment_engine.compile (JString src) w)
          = alignCustomPattern Fragment_engine.compile (JString src)
              (alignCustomPattern Fragment_engine.compile (JString src) w))
    as ->.
  { unfold alignComments. rewrite Hed'. by rewrite Hsame. }
  apply second_run_keeps_lines.
  intros p Hp. unfold createRegExp, newRegExp, Fragment_engine.compile in Hp.
  rewrite Hparse in Hp. injection Hp as <-.
  by apply spaceFree_shiftStable.
Qed.

Lemma comments_align_once_witness :
  let w := exampleWindow "sql" ["a -- x"; "bbbb /* y */"; "cc"] [cursor 0 0] in
  let w1 := alignComments Fragment_engine.compile w in
  windowLines w1 = txt <$> ["a    -- x"; "bbbb /* y */"; "cc"] ∧
  windowLines (alignComments Fragment_engine.compile w1) = windowLines w1.
Proof.
  intros w w1. split; [reflexivity|].
  apply (comments_align_once w).
  - intros editor [= <-]. by repeat constructor.
  - intros editor [= <-]. done.
Defined.

(** ** The pattern of reStructuredText *)

(** On a line without a line break the pattern [..] matches at column 0
    or not at all. *)
Lemma dots_leftmost (t : text) :
  Forall (λ c, Fragment.lineTerminator c = false) t →
  ∀ c, leftmost (Fragment.matchAt
                   (Fragment.Seq (Fragment.Seq Fragment.Eps Fragment.Any)
                                 Fragment.Any)) t = Some c → c = 0.
Proof.
  intros Hbreaks c. destruct t as [|a [|b t]].
  - done.
  - rewrite leftmost_cons. unfold Fragment.matchAt at 1. simpl.
    by destruct (Fragment.lineTerminator a).
  - rewrite leftmost_cons. unfold Fragment.matchAt at 1. simpl.
    apply Forall_cons in Hbreaks as [-> Hbreaks].
    apply Forall_cons in Hbreaks as [-> _]. by intros [= <-].
Qed.

(** X14. For a document of reStructuredText the pattern of the table is
    [..], two characters of any kind.  With bare cursors as the selections
    it matches at column 0 on every line it matches on, so [alignComments]
    never changes a line of such a document. *)
Theorem restructuredtext_is_never_aligned w editor :
  activeTextEditor w = Some editor →
  languageId (document editor) = "restructuredtext" →
  Forall (λ s, isEmpty s = true) (selections editor) →
  noLineBreaks (document editor) →
  windowLines (alignComments Fragment_engine.compile w) = windowLines w.
Proof.
  intros Hed Hlang Hempty Hbreaks.
  unfold alignComments, commentPattern. rewrite Hed, Hlang.
  change (default "/[/*]" (COMMENT_PATTERNS !! "restructuredtext"))
    with ("..").
  destruct (alignCustomPattern_cases Fragment_engine.compile (JString "..") w)
    as [[_ [Hw|[m Hw]]]|(p & editor' & ranges & Hp & Hed' & Hsel & _ & Hlen & _ & Hw)];
    rewrite Hw; [done..|]. clear Hw.
  assert (editor' = editor) as -> by congruence.
  injection Hp as <-. cbn [matcher] in *.
  destruct (selectRanges_cursors _ _ _ Hempty Hsel) as (_ & Hfull & _).
  rewrite hits_fullLines in * by done.
  set (found := fullLineHits _ (lines (document editor)) (scannedLines ranges))
    in *.
  assert (Forall (λ pos, character pos = 0) found) as Hzero.
  { apply Forall_forall. intros pos Hpos.
    apply elem_of_fullLineHits in Hpos as (_ & t & Ht & Hc).
    eapply dots_leftmost; [|exact Hc].
    eapply Forall_forall in Hbreaks; [exact Hbreaks|].
    by eapply list_elem_of_lookup_2. }
  rewrite planEdits_all_rightmost.
  - by rewrite editDocument_nil.
  - rewrite (rightmostOf_constant _ 0);
      [|intros E; rewrite E in Hlen; simpl in Hlen; lia|done].
    eapply Forall_impl; [exact Hzero|]. by intros pos ->.
Qed.

Lemma restructuredtext_is_never_aligned_witness :
  let w := exampleWindow "restructuredtext"
             ["Title"; "   .. note:: indented"; ".. image:: a.png"]
             [cursor 0 0] in
  windowLines (alignComments Fragment_engine.compile w) = windowLines w.
Proof.
  intros w.
  eapply (restructuredtext_is_never_aligned w);
    [reflexivity|reflexivity|by repeat constructor|].
  unfold noLineBreaks. simpl. by repeat constructor.
Defined.


(** ** The order of the selections, and the columns of the cursors *)

Lemma wholeDocumentMode_Permutation sels sels' :
  sels' ≡ₚ sels → wholeDocumentMode sels' = wholeDocumentMode sels.
Proof.
  intros Hperm. destruct sels as [|s [|s2 sels]].
  - by apply Permutation_nil_r in Hperm as ->.
  - by apply Permutation_singleton_r in Hperm as ->.
  - pose proof (Permutation_length Hperm) as Hlen. simpl in Hlen.
    unfold wholeDocumentMode. simpl.
    by destruct (Nat.eqb_spec (length sels') 1); [lia|].
Qed.

Lemma claims_Permutation sels sels' : sels' ≡ₚ sels → claims sels' ≡ₚ claims sels.
Proof. intros Hperm. unfold claims. by rewrite Hperm. Qed.

Lemma scanned_Permutation ranges ranges' :
  ranges' ≡ₚ ranges → scanned ranges' ≡ₚ scanned ranges.
Proof. intros Hperm. unfold scanned. by rewrite Hperm. Qed.

(** The ranges of permuted selections are the permuted ranges. *)
Lemma selectRanges_Permutation d sels sels' ranges :
  sels' ≡ₚ sels → selectRanges d sels = Done ranges →
  ∃ ranges', selectRanges d sels' = Done ranges' ∧ ranges' ≡ₚ ranges.
Proof.
  intros Hperm Hsel.
  destruct (wholeDocumentMode sels) eqn:Hmode.
  - assert (sels' = sels) as ->; [|eauto].
    unfold wholeDocumentMode in Hmode.
    destruct sels as [|s [|??]]; simpl in Hmode; try done.
    by apply Permutation_singleton_r in Hperm.
  - apply selectRanges_selection in Hsel as (Hcur & Hnd & Hlen & ->); [|done].
    exists (selectionRange d <$> sels'). split; [|by rewrite Hperm].
    apply selectRanges_selection.
    { by rewrite (wholeDocumentMode_Permutation sels). }
    pose proof (claims_Permutation _ _ Hperm) as Hclaims.
    split_and!.
    + unfold cursorsInDocument in *. by rewrite Hperm.
    + by rewrite Hclaims.
    + by rewrite (Permutation_length Hclaims).
    + done.
Qed.

Lemma rightmostOf_Permutation ps ps' :
  ps' ≡ₚ ps → rightmostOf ps' = rightmostOf ps.
Proof.
  intros Hperm.
  destruct (foldl_max_spec ps (-1)) as (Hlow & Hge & Hat).
  destruct (foldl_max_spec ps' (-1)) as (Hlow' & Hge' & Hat').
  fold (rightmostOf ps) in *. fold (rightmostOf ps') in *.
  assert (rightmostOf ps' ≤ rightmostOf ps)%Z.
  { destruct Hat' as [->|(p & Hp & <-)]; [done|].
    apply Hge. by rewrite <- Hperm. }
  assert (rightmostOf ps ≤ rightmostOf ps')%Z; [|lia].
  destruct Hat as [->|(p & Hp & <-)]; [done|].
  apply Hge'. by rewrite Hperm.
Qed.

(** A plan reached with some selections is reached, up to the order of
    its insertions, with the same selections in another order. *)
Lemma plan_of_permuted_selections compile json d sels sels' box msgs msgs' :
  sels' ≡ₚ sels →
  is_Some (plannedEdits compile json
             (mkWindow (Some (mkEditor d sels)) box msgs)) →
  is_Some (plannedEdits compile json
             (mkWindow (Some (mkEditor d sels')) box msgs')) ∧
  windowLines (alignCustomPattern compile json
                 (mkWindow (Some (mkEditor d sels')) box msgs'))
  = windowLines (alignCustomPattern compile json
                   (mkWindow (Some (mkEditor d sels)) box msgs)).
Proof.
  intros Hperm [plan Hplan].
  set (w := mkWindow (Some (mkEditor d sels)) box msgs) in *.
  set (w' := mkWindow (Some (mkEditor d sels')) box msgs').
  destruct (alignCustomPattern_cases compile json w)
    as [[Hnone _]|(p & editor & ranges & Hp & Hed & Hsel & Hin & Hlen & _ & Hw)];
    [congruence|].
  injection Hed as <-. simpl in Hsel, Hin, Hlen, Hw.
  destruct (selectRanges_Permutation _ _ _ _ Hperm Hsel)
    as (ranges' & Hsel' & Hranges).
  pose proof (scanned_Permutation _ _ Hranges) as Hscanned.
  assert (hits (matcher p) d ranges' ≡ₚ hits (matcher p) d ranges) as Hhits.
  { unfold hits. by rewrite Hscanned. }
  destruct (alignCustomPattern_ranges compile json w' p (mkEditor d sels')
              ranges') as [Hrun' Hplan']; [|done|done| |].
  { by rewrite (createRegExp_window compile json w w'). }
  { unfold inDocument, scannedLines in *. by rewrite Hscanned. }
  simpl in Hrun', Hplan'.
  rewrite (Permutation_length Hhits), (rightmostOf_Permutation _ _ Hhits)
    in Hrun', Hplan'.
  destruct (Nat.ltb_spec (length (hits (matcher p) d ranges)) 2); [lia|].
  destruct (Nat.eqb_spec (length (hits (matcher p) d ranges)) 0); [lia|].
  destruct (Nat.eqb_spec (length (hits (matcher p) d ranges)) 1); [lia|].
  split; [by rewrite Hplan'|].
  rewrite Hrun', Hw, !windowLines_editDocument.
  apply applyEdits_Permutation.
  - apply planEdits_NoDup. by eapply hits_NoDup.
  - unfold planEdits. by rewrite Hhits.
Qed.

(** X15. The order in which the selections were made does not matter for
    the document: with the same selections in another order a command
    leaves the same lines. *)
Theorem selection_order_is_irrelevant compile json d sels sels' box msgs :
  sels' ≡ₚ sels →
  windowLines (alignCustomPattern compile json
                 (mkWindow (Some (mkEditor d sels')) box msgs))
  = windowLines (alignCustomPattern compile json
                   (mkWindow (Some (mkEditor d sels)) box msgs)).
Proof.
  intros Hperm.
  destruct (plannedEdits compile json
              (mkWindow (Some (mkEditor d sels)) box msgs)) as [plan|] eqn:Hplan.
  { apply plan_of_permuted_selections; [done|]. by rewrite Hplan. }
  destruct (plannedEdits compile json
              (mkWindow (Some (mkEditor d sels')) box msgs))
    as [plan'|] eqn:Hplan'.
  { destruct (plan_of_permuted_selections compile json d sels' sels box
                msgs msgs) as [[plan Hsome] _]; [done|by rewrite Hplan'|].
    congruence. }
  by rewrite !windowLines_no_plan.
Qed.

Lemma selection_order_is_irrelevant_witness :
  let d := mkDocument "c" (txt <$> ["a = 1"; "skip"; "bbb = 2"; "cc = 3"]) in
  windowLines (alignCustomPattern Fragment_engine.compile (JString " = ")
                 (mkWindow (Some (mkEditor d [span 2 0 3 6; cursor 0 2]))
                           None []))
  = txt <$> ["a   = 1"; "skip"; "bbb = 2"; "cc  = 3"].
Proof.
  intros d.
  rewrite (selection_order_is_irrelevant Fragment_engine.compile
             (JString " = ") d [cursor 0 2; span 2 0 3 6]).
  - reflexivity.
  - apply Permutation_swap.
Defined.

(** The loop over the selections reads the line of a cursor only. *)
Lemma selectEach_cursor_columns d sels sels' claimed ranges :
  Forall2 (λ s s', s' = s ∨
                   (isEmpty s = true ∧ isEmpty s' = true ∧
                    line (sel_start s') = line (sel_start s))) sels sels' →
  selectEach d sels' claimed ranges = selectEach d sels claimed ranges.
Proof.
  intros Hrel. revert claimed ranges.
  induction Hrel as [|s s' sels sels' Hs _ IH]; intros claimed ranges; [done|].
  destruct Hs as [->|(He & He' & Hline)].
  - simpl. destruct (isEmpty s).
    + destruct (lineAt d (line (sel_start s))); [|done].
      by destruct (decide (line (sel_start s) ∈ claimed)).
    + by destruct (claimLines _ claimed).
  - simpl. rewrite He, He', Hline.
    destruct (lineAt d (line (sel_start s))); [|done].
    by destruct (decide (line (sel_start s) ∈ claimed)).
Qed.

(** X16. Of a bare cursor the commands read the line and nothing else:
    when cursors are moved along their lines, the other selections staying
    as they are, the ranges, the plan, the messages and the lines that a
    command leaves are the same. *)
Theorem cursor_column_is_irrelevant compile json d sels sels' box msgs :
  Forall2 (λ s s', s' = s ∨
                   (isEmpty s = true ∧ isEmpty s' = true ∧
                    line (sel_start s') = line (sel_start s))) sels sels' →
  let w := mkWindow (Some (mkEditor d sels)) box msgs in
  let w' := mkWindow (Some (mkEditor d sels')) box msgs in
  selectRanges d sels' = selectRanges d sels ∧
  plannedEdits compile json w' = plannedEdits compile json w ∧
  shown (alignCustomPattern compile json w')
  = shown (alignCustomPattern compile json w) ∧
  windowLines (alignCustomPattern compile json w')
  = windowLines (alignCustomPattern compile json w).
Proof.
  intros Hrel w w'.
  assert (selectRanges d sels' = selectRanges d sels) as Hsel.
  { unfold selectRanges.
    rewrite <- (Forall2_length _ _ _ Hrel).
    assert (from_option isEmpty false (sels' !! 0)
            = from_option isEmpty false (sels !! 0)) as ->.
    { destruct Hrel as [|s s' ?? Hs _]; [done|]. simpl.
      by destruct Hs as [->|(-> & -> & _)]. }
    destruct (_ && _); [done|]. by apply selectEach_cursor_columns. }
  split; [done|].
  assert (createRegExp compile json w'
          = ((createRegExp compile json w).1,
             mkWindow (Some (mkEditor d sels'))
                      (inputBox (createRegExp compile json w).2)
                      (shown (createRegExp compile json w).2))) as Hcreate.
  { unfold createRegExp. destruct json as [s| |j|]; simpl.
    - by destruct (newRegExp compile s).
    - destruct box as [s|]; [|done]. by destruct (newRegExp compile s).
    - done.
    - done. }
  pose proof (createRegExp_editor compile json w) as [Hed _].
  unfold plannedEdits, alignCustomPattern. rewrite Hcreate.
  destruct (createRegExp compile json w) as [[p|] w1] eqn:Hp; simpl in *.
  - rewrite Hed. simpl. rewrite Hsel.
    destruct (selectRanges d sels) as [ranges|m|];
      [|by unfold windowLines; simpl; rewrite ?Hed..].
    destruct (findPositions p d ranges) as [sc|];
      [|by unfold windowLines; simpl; rewrite ?Hed]. simpl.
    destruct (length (positions sc)) as [|[|n]];
      unfold windowLines, editDocument; simpl; rewrite ?Hed; simpl; by rewrite ?Hed.
  - unfold windowLines. simpl. by rewrite Hed.
Qed.

Lemma cursor_column_is_irrelevant_witness :
  let d := mkDocument "c" (txt <$> ["a = 1"; "bbb = 2"]) in
  selectRanges d [cursor 1 4; cursor 0 0] = selectRanges d [cursor 1 0; cursor 0 5].
Proof.
  intros d.
  edestruct (cursor_column_is_irrelevant Fragment_engine.compile
               (JString " = ") d [cursor 1 0; cursor 0 5]
               [cursor 1 4; cursor 0 0] None []) as [Hsel _]; [|exact Hsel].
  repeat constructor; right; done.
Defined.
